(** * rhealpix-geo: the DGGS cell algebra of [rheal/dggs_classes.py]

    A shallow embedding of the [Cell] and [CellCollection] classes, followed
    by the properties of the specification that were checked against it. *)

From Stdlib Require Import ZArith Ascii String.
From stdpp Require Import countable.
From stdpp Require Import base tactics option list strings pretty sorting.

Open Scope string_scope.
Open Scope list_scope.

Set Warnings "-clear-no-such-hyp".

(** ** Exceptions *)

Inductive exn :=
  | TypeError | ValueError | NotImplementedError | IndexError | KeyError
  | AttributeError | RecursionError.

Inductive result (A : Type) :=
  | Ok (a : A)
  | Raise (e : exn).
Arguments Ok {A} a.
Arguments Raise {A} e.

Global Instance exn_eq_dec : EqDecision exn.
Proof. solve_decision. Defined.

Global Instance result_eq_dec {A} `{EqDecision A} : EqDecision (result A).
Proof. solve_decision. Defined.

Definition rbind {A B} (m : result A) (k : A → result B) : result B :=
  match m with
  | Ok a => k a
  | Raise e => Raise e
  end.

Global Instance result_bind : MBind result := λ A B k m, rbind m k.
Global Instance result_ret : MRet result := @Ok.
Global Instance result_fmap : FMap result := λ A B f m, rbind m (λ a, Ok (f a)).

Fixpoint rmap {A B} (f : A → result B) (l : list A) : result (list B) :=
  match l with
  | [] => Ok []
  | x :: l' => y ← f x; ys ← rmap f l'; Ok (y :: ys)
  end.

Fixpoint rfold {A S} (f : S → A → result S) (l : list A) (s : S) : result S :=
  match l with
  | [] => Ok s
  | x :: l' => s' ← f s x; rfold f l' s'
  end.

Definition is_ok {A} (r : result A) : bool :=
  match r with Ok _ => true | Raise _ => false end.

(** ** Suids

    A suid is a Python tuple whose first element is a one-character face
    label and whose other elements are integers. *)

Inductive elem :=
  | Lbl (c : ascii)
  | Dig (n : nat).

Global Instance elem_eq_dec : EqDecision elem.
Proof. solve_decision. Defined.

Global Instance elem_countable : Countable elem :=
  inj_countable'
    (λ e, match e with Lbl c => inl c | Dig n => inr n end)
    (λ s, match s with inl c => Lbl c | inr n => Dig n end)
    (λ e, match e with Lbl _ | Dig _ => eq_refl end).

Definition suid := list elem.

(** [parametrisations] has the single entry ["auspix"]. *)
Definition zero_cells : list ascii :=
  ["N"; "O"; "P"; "Q"; "R"; "S"]%char.
Definition N_sides : nat := 3.

Definition known_crs (crs : string) : bool := bool_decide (crs = "auspix").

(** [str(i)] for an element of a suid. *)
Definition str_elem (e : elem) : string :=
  match e with
  | Lbl c => String c ""
  | Dig n => pretty n
  end.

Definition join (l : list string) : string := foldr String.append "" l.

(** [int(i)] for a one-character string [i].  The strings of this
    development are strings of 8-bit characters, and among these [int]
    accepts the ten characters from ["0"] to ["9"] only; the decimal digits
    of other scripts, which Python's [int] accepts as well, lie outside
    them, so what is proved of [Cell] on strings is proved of strings of
    8-bit characters. *)
Definition int_of_char (c : ascii) : result nat :=
  let k := nat_of_ascii c in
  if bool_decide (48 ≤ k ∧ k ≤ 57)%nat then Ok (k - 48) else Raise ValueError.

(** ** Cells *)

Record Cell := mkCell { cell_suids : suid }.

Global Instance Cell_eq_dec : EqDecision Cell.
Proof. solve_decision. Defined.

Inductive suid_arg :=
  | SuidStr (s : string)
  | SuidTuple (t : suid)
  | SuidOther.

Definition suid_from_str (suid_str : string) : result suid :=
  match suid_str with
  | EmptyString => Raise IndexError
  | String c rest =>
      ds ← rmap int_of_char (list_ascii_of_string rest);
      Ok (Lbl c :: (Dig <$> ds))
  end.

Definition digit_in_range (e : elem) : bool :=
  match e with
  | Dig n => bool_decide (n < N_sides ^ 2)%nat
  | Lbl _ => false
  end.

Definition is_zero_cell (e : elem) : bool :=
  match e with
  | Lbl c => bool_decide (c ∈ zero_cells)
  | Dig _ => false
  end.

Definition rhealpix_validator (t : suid) : result unit :=
  match t with
  | [] => Raise IndexError
  | e0 :: digits =>
      if is_zero_cell e0 then
        if forallb digit_in_range digits then Ok tt else Raise ValueError
      else Raise ValueError
  end.

Definition Cell_validate (kind : string) (t : suid) : result unit :=
  if bool_decide (kind = "rHEALPix") then rhealpix_validator t
  else Raise NotImplementedError.

Definition Cell_init (a : suid_arg) (kind crs : string) : result Cell :=
  match a with
  | SuidOther => Raise ValueError
  | _ =>
      if known_crs crs then
        t ← match a with
             | SuidStr s => suid_from_str s
             | SuidTuple t => Ok t
             | SuidOther => Raise ValueError
             end;
        Cell_validate kind t;;
        Ok (mkCell t)
      else Raise KeyError
  end.

(** Every cell that exists was built with the default kind and crs. *)
Definition Cell_of_str (s : string) : result Cell :=
  Cell_init (SuidStr s) "rHEALPix" "auspix".
Definition Cell_of_tuple (t : suid) : result Cell :=
  Cell_init (SuidTuple t) "rHEALPix" "auspix".
Definition cell_kind (c : Cell) : string := "rHEALPix".
Definition cell_crs (c : Cell) : string := "auspix".

Definition resolution (c : Cell) : Z := Z.of_nat (length (cell_suids c)) - 1.

Definition Cell_repr (c : Cell) : string := join (str_elem <$> cell_suids c).

Definition Cell_wkt (c : Cell) : string := "CELL (" +:+ Cell_repr c +:+ ")".

(** [Cell.__eq__]: [str(self) == str(other)] *)
Definition Cell_eq (self other : Cell) : bool :=
  bool_decide (Cell_repr self = Cell_repr other).

(** *** Atomic neighbours *)

Inductive direction := left | right | up | down.

Global Instance direction_eq_dec : EqDecision direction.
Proof. solve_decision. Defined.

Definition row (l r u d : elem) (dir : direction) : elem :=
  match dir with left => l | right => r | up => u | down => d end.

Definition atomic_neighbours (n : elem) : option (direction → elem) :=
  match n with
  | Lbl "O" => Some (row (Lbl "R") (Lbl "P") (Lbl "N") (Lbl "S"))
  | Lbl "P" => Some (row (Lbl "O") (Lbl "Q") (Lbl "N") (Lbl "S"))
  | Lbl "Q" => Some (row (Lbl "P") (Lbl "R") (Lbl "N") (Lbl "S"))
  | Lbl "R" => Some (row (Lbl "Q") (Lbl "O") (Lbl "N") (Lbl "S"))
  | Lbl "N" => Some (row (Lbl "R") (Lbl "P") (Lbl "Q") (Lbl "O"))
  | Lbl "S" => Some (row (Lbl "R") (Lbl "P") (Lbl "O") (Lbl "Q"))
  | Dig 0 => Some (row (Dig 2) (Dig 1) (Dig 6) (Dig 3))
  | Dig 1 => Some (row (Dig 0) (Dig 2) (Dig 7) (Dig 4))
  | Dig 2 => Some (row (Dig 1) (Dig 0) (Dig 8) (Dig 5))
  | Dig 3 => Some (row (Dig 5) (Dig 4) (Dig 0) (Dig 6))
  | Dig 4 => Some (row (Dig 3) (Dig 5) (Dig 1) (Dig 7))
  | Dig 5 => Some (row (Dig 4) (Dig 3) (Dig 2) (Dig 8))
  | Dig 6 => Some (row (Dig 8) (Dig 7) (Dig 3) (Dig 0))
  | Dig 7 => Some (row (Dig 6) (Dig 8) (Dig 4) (Dig 1))
  | Dig 8 => Some (row (Dig 7) (Dig 6) (Dig 5) (Dig 2))
  | _ => None
  end.

(** [an[n][direction]] *)
Definition an (n : elem) (d : direction) : result elem :=
  match atomic_neighbours n with
  | Some r => Ok (r d)
  | None => Raise KeyError
  end.

(** [x == an[key][d]] for a key of the table. *)
Definition an_is (key : elem) (d : direction) (x : elem) : bool :=
  bool_decide (an key d = Ok x).

(** *** [neighbour] *)

Definition up_border : list nat := seq 0 N_sides.
Definition down_border : list nat :=
  (λ i, (N_sides - 1) * N_sides + i)%nat <$> seq 0 N_sides.
Definition left_border : list nat :=
  (λ i, i * N_sides)%nat <$> seq 0 N_sides.
Definition right_border : list nat :=
  (λ i, (i + 1) * N_sides - 1)%nat <$> seq 0 N_sides.

Definition border (d : direction) : list nat :=
  match d with
  | left => left_border
  | right => right_border
  | up => up_border
  | down => down_border
  end.

(** [n in border[direction]]; a face label is in no border set. *)
Definition in_border (n : elem) (d : direction) : bool :=
  match n with
  | Dig k => bool_decide (k ∈ border d)
  | Lbl _ => false
  end.

(** The scan from the back to the front of the suid: [rev_suid] is the suid
    reversed, the result is [neighbour_suid] before its [reverse()]. *)
Fixpoint neighbour_scan (d : direction) (rev_suid : list elem)
    (crossed_all_borders : bool) : result (list elem) :=
  match rev_suid with
  | [] => Ok []
  | n :: rest =>
      if crossed_all_borders then
        tl ← neighbour_scan d rest true; Ok (n :: tl)
      else
        m ← an n d;
        tl ← neighbour_scan d rest (negb (in_border n d));
        Ok (m :: tl)
  end.

(** [child_order]: the keys that are pairs, [A[(row, col)]]. *)
Definition child_order (row col : nat) : nat := (row * N_sides + col)%nat.

(** The dictionary [f] of [rotate_entry], in the order it is filled. *)
Definition rotate_table : list (elem * elem) :=
  flat_map (λ i, (λ j, (Dig (child_order i j),
                            Dig (child_order j (N_sides - 1 - i))))
                  <$> seq 0 N_sides)
           (seq 0 N_sides)
  ++ ((λ c, (Lbl c, Lbl c)) <$> zero_cells).

Fixpoint lookup_last {K V} `{EqDecision K} (k : K) (t : list (K * V))
    : option V :=
  match t with
  | [] => None
  | (k', v) :: t' =>
      match lookup_last k t' with
      | Some w => Some w
      | None => if decide (k' = k) then Some v else None
      end
  end.

Definition rotate_f (x : elem) : result elem :=
  match lookup_last x rotate_table with
  | Some y => Ok y
  | None => Raise KeyError
  end.

Definition rotate_entry (x : elem) (quarter_turns : nat) : result elem :=
  match (quarter_turns mod 4)%nat with
  | 1 => rotate_f x
  | 2 => y ← rotate_f x; rotate_f y
  | 3 => y ← rotate_f x; z ← rotate_f y; rotate_f z
  | _ => Ok x
  end.

Definition rotate (t : suid) (quarter_turns : nat) : result suid :=
  rmap (λ x, rotate_entry x quarter_turns) t.

(** [zero_cells[0]] and [zero_cells[5]] *)
Definition zc0 : elem := Lbl "N".
Definition zc5 : elem := Lbl "S".

Definition head_elem (t : suid) : result elem :=
  match t with
  | [] => Raise IndexError
  | e :: _ => Ok e
  end.

(** The three tests that follow the scan: how many quarter turns the
    neighbour needs, if any. *)
Definition quarter_turns (self0 neighbour0 : elem) : option nat :=
  if (bool_decide (self0 = zc5) && an_is self0 left neighbour0)
     || (an_is zc5 right self0 && bool_decide (neighbour0 = zc5))
     || (bool_decide (self0 = zc0) && an_is self0 right neighbour0)
     || (an_is zc0 left self0 && bool_decide (neighbour0 = zc0))
  then Some 1%nat
  else if (bool_decide (self0 = zc5) && an_is self0 down neighbour0)
     || (an_is zc5 down self0 && bool_decide (neighbour0 = zc5))
     || (bool_decide (self0 = zc0) && an_is self0 up neighbour0)
     || (an_is zc0 up self0 && bool_decide (neighbour0 = zc0))
  then Some 2%nat
  else if (bool_decide (self0 = zc5) && an_is self0 right neighbour0)
     || (an_is zc5 left self0 && bool_decide (neighbour0 = zc5))
     || (bool_decide (self0 = zc0) && an_is self0 left neighbour0)
     || (an_is zc0 right self0 && bool_decide (neighbour0 = zc0))
  then Some 3%nat
  else None.

Definition Cell_neighbour (c : Cell) (d : direction) : result Cell :=
  let suid := cell_suids c in
  scanned ← neighbour_scan d (reverse suid) false;
  let neighbour_suid := reverse scanned in
  self0 ← head_elem suid;
  neighbour0 ← head_elem neighbour_suid;
  neighbour ←
    match quarter_turns self0 neighbour0 with
    | Some q => rotate neighbour_suid q
    | None => Ok neighbour_suid
    end;
  Cell_of_tuple neighbour.

(** *** [overlaps] *)

Fixpoint zip_all_equal (a b : suid) : bool :=
  match a, b with
  | i :: a', j :: b' => if decide (i = j) then zip_all_equal a' b' else false
  | _, _ => true
  end.

Definition Cell_overlaps (self other : Cell) : bool :=
  zip_all_equal (cell_suids self) (cell_suids other).

(** ** Python sets and [sorted]

    The language does not fix the order in which a set is iterated:
    [list(set(l))] is some arrangement of the distinct elements of [l], which
    an implementation derives from the hash codes of the elements and from
    the order in which they were added. *)

Class SetOrder := {
  set_to_list : ∀ {A} `{Countable A}, list A → list A;
  set_to_list_perm : ∀ {A} `{Countable A} (l : list A),
    set_to_list l ≡ₚ remove_dups l
}.

(** [int(s)] on a string of decimal digits. *)
Fixpoint int_digits (acc : N) (s : string) : result N :=
  match s with
  | EmptyString => Ok acc
  | String c rest =>
      k ← int_of_char c; int_digits (acc * 10 + N.of_nat k)%N rest
  end.

Definition py_int (s : string) : result N :=
  match s with
  | EmptyString => Raise ValueError
  | _ => int_digits 0%N s
  end.

(** [sorted(l, key=...)] is stable: among equal keys the input order stays. *)
Fixpoint insert_by {A} (key : A → N) (x : A) (l : list A) : list A :=
  match l with
  | [] => [x]
  | y :: l' =>
      if (key x <=? key y)%N then x :: y :: l' else y :: insert_by key x l'
  end.

Definition sorted_by {A} (key : A → N) (l : list A) : list A :=
  foldr (insert_by key) [] l.

Definition int_key (s : string) : N :=
  match py_int s with Ok n => n | Raise _ => 0%N end.

Definition sorted_key_int (l : list string) : result (list string) :=
  rmap py_int l;; Ok (sorted_by int_key l).

(** [s.split(" ")] *)
Fixpoint split_space (cur : string) (s : string) : list string :=
  match s with
  | EmptyString => [cur]
  | String c rest =>
      if decide (c = " "%char) then cur :: split_space "" rest
      else split_space (cur +:+ String c "") rest
  end.

(** ** Cell collections *)

Record CellCollection := mkCellCollection {
  cells : option (list Cell);   (* [None] is Python's [None] *)
  crs : option string;
  kind : option string;
  suids : list string;
  max_resolution : option Z;
  min_resolution : option Z;
  wkt : option string
}.

(** What the constructor accepts as [cells]; [ArgOther] is a true value of
    any other type. *)
Inductive cells_arg :=
  | ArgNone
  | ArgStr (s : string)
  | ArgStrs (l : list string)
  | ArgCell (c : Cell)
  | ArgCells (l : list Cell)
  | ArgOther.

(** [not self.cells] ([Cell] has a [__len__] that returns 1). *)
Definition arg_false (a : cells_arg) : bool :=
  match a with
  | ArgNone | ArgStr "" | ArgStrs [] | ArgCells [] => true
  | _ => false
  end.

(** [self.cells] as [empty] leaves it: the argument itself. *)
Definition arg_cells (a : cells_arg) : option (list Cell) :=
  match a with
  | ArgNone => None
  | _ => Some []
  end.

Definition empty_collection (a : cells_arg) : CellCollection :=
  {| cells := arg_cells a; crs := None; kind := None; suids := [];
     max_resolution := None; min_resolution := None; wkt := None |}.

Definition CellCollection_repr (self : CellCollection) : string :=
  match suids self with
  | [] => "Empty CellCollection"
  | l => String.concat " " l
  end.

Definition CellCollection_len (self : CellCollection) : nat :=
  length (suids self).

Definition CellCollection_eq (self other : CellCollection) : bool :=
  bool_decide (CellCollection_repr self = CellCollection_repr other).

Definition standardise_input (a : cells_arg) : result (list Cell) :=
  match a with
  | ArgNone | ArgOther => Raise TypeError
  | ArgStr s => rmap Cell_of_str (split_space "" s)
  | ArgCell c => Ok [c]
  | ArgStrs [] | ArgCells [] => Raise ValueError
  | ArgStrs l => rmap Cell_of_str l
  | ArgCells l => Ok l
  end.

Definition truthy (o : option string) : bool :=
  match o with
  | Some s => negb (bool_decide (s = ""))
  | None => false
  end.

Definition CellCollection_validate (cs : list Cell) (crs kind : string)
    : result unit :=
  rfold (λ _ cell,
           if negb (bool_decide (cell_crs cell = crs)) then Raise ValueError
           else if negb (bool_decide (cell_kind cell = kind))
           then Raise ValueError
           else Ok tt) cs tt.

(** [upper_cells.setdefault(k, []).append(v)] on a dictionary that keeps
    its keys in the order they were first set. *)
Fixpoint setdefault_append {K V} `{EqDecision K} (k : K) (v : V)
    (d : list (K * list V)) : list (K * list V) :=
  match d with
  | [] => [(k, [v])]
  | (k', vs) :: d' =>
      if decide (k' = k) then (k', vs ++ [v]) :: d'
      else (k', vs) :: setdefault_append k v d'
  end.

Definition upper_cells_of (l : list suid) : list (suid * list suid) :=
  foldl (λ d cell, setdefault_append (removelast cell) cell d) [] l.

Definition rhealpix_compress (l : list suid) : list suid :=
  flat_map (λ kv : suid * list suid,
              if decide (length kv.2 = 9%nat) then [kv.1] else kv.2)
           (upper_cells_of l).

Definition zero_cell_index (e : elem) : result nat :=
  match e with
  | Lbl c =>
      match list_find (λ z, z = c) zero_cells with
      | Some (i, _) => Ok i
      | None => Raise ValueError
      end
  | Dig _ => Raise ValueError
  end.

Definition num_of_suid (x : suid) : result string :=
  e0 ← head_elem x;
  i ← zero_cell_index e0;
  Ok (pretty i +:+ join (str_elem <$> tail x)).

Definition suid_of_num (x : string) : result string :=
  match x with
  | EmptyString => Raise IndexError
  | String c rest =>
      k ← int_of_char c;
      match zero_cells !! k with
      | Some z => Ok (String z rest)
      | None => Raise IndexError
      end
  end.

Definition rhealpix_order (l : list suid) : result (list string) :=
  nums ← rmap num_of_suid l;
  s ← sorted_key_int nums;
  rmap suid_of_num s.

Section with_set_order.
Context `{SO : SetOrder}.

Definition deduplicate (l : list suid) : list suid := set_to_list l.

Definition absorb (l : list suid) : list suid :=
  foldl (λ cur suid,
           foldl (λ cur i,
                    let ancestor := take (i + 1) suid in
                    if bool_decide (ancestor ∈ cur)
                    then set_to_list (list_difference cur [suid])
                    else cur)
                 cur (seq 0 (length suid - 1)))
        l l.

Definition compress (kind : string) (l : list suid) : result (list suid) :=
  if bool_decide (kind = "rHEALPix") then Ok (rhealpix_compress l)
  else Raise NotImplementedError.

Definition order (kind : string) (l : list suid) : result (list string) :=
  if bool_decide (kind = "rHEALPix") then rhealpix_order l
  else Raise NotImplementedError.

Definition list_max_Z (l : list Z) : result Z :=
  match l with
  | [] => Raise ValueError
  | x :: l' => Ok (foldl Z.max x l')
  end.

Definition list_min_Z (l : list Z) : result Z :=
  match l with
  | [] => Raise ValueError
  | x :: l' => Ok (foldl Z.min x l')
  end.

Definition CellCollection_init (a : cells_arg) (crs kind : option string)
    (do_compress : bool) : result CellCollection :=
  if arg_false a then Ok (empty_collection a)
  else
    cs ← standardise_input a;
    c0 ← match cs with [] => Raise IndexError | c :: _ => Ok c end;
    let crs := if truthy crs then default "" crs else cell_crs c0 in
    let kind := if truthy kind then default "" kind else cell_kind c0 in
    let s0 := cell_suids <$> cs in
    CellCollection_validate cs crs kind;;
    s1 ← (if do_compress then compress kind s0 else Ok s0);
    let s2 := deduplicate s1 in
    let s3 := absorb s2 in
    s4 ← order kind s3;
    cs' ← rmap Cell_of_str s4;
    mx ← list_max_Z (resolution <$> cs');
    mn ← list_min_Z (resolution <$> cs');
    Ok {| cells := Some cs'; crs := Some crs; kind := Some kind;
          suids := s4; max_resolution := Some mx;
          min_resolution := Some mn;
          wkt := Some ("CELLLIST ((" +:+ String.concat " " s4 +:+ "))") |}.

(** *** Operands of the binary operators *)

Inductive operand :=
  | OpCell (c : Cell)
  | OpColl (cc : CellCollection).

Definition validate_other (other : operand) : result CellCollection :=
  match other with
  | OpCell c => CellCollection_init (ArgCell c) None None true
  | OpColl cc => Ok cc
  end.

Definition operand_crs (o : operand) : option string :=
  match o with OpCell c => Some (cell_crs c) | OpColl cc => crs cc end.
Definition operand_kind (o : operand) : option string :=
  match o with OpCell c => Some (cell_kind c) | OpColl cc => kind cc end.

Definition matches (self : CellCollection) (other : operand) : result unit :=
  if negb (truthy (crs self) && truthy (kind self))
     || negb (truthy (operand_crs other) && truthy (operand_kind other))
  then Ok tt
  else if bool_decide (crs self = operand_crs other)
          && bool_decide (kind self = operand_kind other)
  then Ok tt
  else Raise ValueError.

Definition CellCollection_add (self : CellCollection) (other : operand)
    (do_compress : bool) : result CellCollection :=
  matches self other;;
  other ← validate_other other;
  let new_suids := set_to_list (suids self ++ suids other) in
  CellCollection_init (ArgStrs new_suids) None None do_compress.

(** *** [Cell.children] *)

(** [product(l, repeat=n)] *)
Fixpoint product_repeat {A} (l : list A) (n : nat) : list (list A) :=
  match n with
  | O => [[]]
  | S n' => flat_map (λ x, cons x <$> product_repeat l n') l
  end.

Definition str_digits (i : list nat) : string := join (pretty <$> i).

Definition Cell_children (self : Cell) (res : option Z) : result operand :=
  let resolution_delta :=
    match res with
    | None => 1%Z
    | Some r => (r - resolution self)%Z
    end in
  if (resolution_delta =? 0)%Z then Ok (OpCell self)
  else if (resolution_delta <? 0)%Z then Raise ValueError
  else
    let children_tuples :=
      (λ i, Cell_repr self +:+ str_digits i)
        <$> product_repeat (seq 0 (N_sides ^ 2)) (Z.to_nat resolution_delta) in
    OpColl <$> CellCollection_init (ArgStrs children_tuples) None None false.

(** [x.cells] where [x] came from [children]. *)
Definition operand_cells (o : operand) : result (option (list Cell)) :=
  match o with
  | OpColl cc => Ok (cells cc)
  | OpCell _ => Raise AttributeError
  end.

(** *** Difference

    The two module-level lists are the state threaded through
    [progressively_intersect]. *)

Record accum := mkAccum {
  cells_to_retain : list suid;
  cells_to_remove : list suid
}.

Definition iter_cells (cs : option (list Cell)) : result (list Cell) :=
  match cs with
  | Some l => Ok l
  | None => Raise TypeError
  end.

Fixpoint progressively_intersect (fuel : nat)
    (cells_one cells_two : option (list Cell)) (st : accum) : result accum :=
  match fuel with
  | O => Raise RecursionError
  | S fuel' =>
      ones ← iter_cells cells_one;
      rfold (λ st cell_one,
        twos ← iter_cells cells_two;
        rfold (λ st cell_two,
          if Cell_overlaps cell_one cell_two then
            if (resolution cell_one >=? resolution cell_two)%Z then
              Ok (mkAccum (cells_to_retain st)
                          (cells_to_remove st ++ [cell_suids cell_one]))
            else
              ch ← Cell_children cell_one None;
              children ← operand_cells ch;
              progressively_intersect fuel' children (Some [cell_two]) st
          else
            Ok (mkAccum (cells_to_retain st ++ [cell_suids cell_one])
                        (cells_to_remove st)))
          twos st)
        ones st
  end.

(** The depth the recursion can reach: one call per level between a cell
    of the left operand and a finer cell of the right operand. *)
Definition depth_bound (other : CellCollection) : nat :=
  S (foldr (λ c m, max (length (cell_suids c)) m) 0%nat
           (default [] (cells other))).

Definition CellCollection_sub (self : CellCollection) (other : operand)
    (do_compress : bool) : result CellCollection :=
  other ← validate_other other;
  st ← progressively_intersect (depth_bound other)
          (cells self) (cells other) (mkAccum [] []);
  let overall :=
    set_to_list (list_difference (cells_to_retain st) (cells_to_remove st)) in
  cs ← rmap Cell_of_tuple overall;
  CellCollection_init (ArgCells cs) None None do_compress.

(** *** [Cell.__add__] and [Cell.__sub__]

    Both wrap the cell in a collection and use the collection's operator,
    with its default [compress=True]. *)

Definition Cell_add (self : Cell) (other : operand) : result CellCollection :=
  other ← validate_other other;
  s ← CellCollection_init (ArgCell self) None None true;
  CellCollection_add s (OpColl other) true.

Definition Cell_sub (self : Cell) (other : operand) : result CellCollection :=
  other ← validate_other other;
  s ← CellCollection_init (ArgCell self) None None true;
  CellCollection_sub s (OpColl other) true.

(** *** [Cell.neighbours] and [Cell.border] *)

Definition Cell_neighbours (self : Cell) (include_diagonals : bool)
    : result CellCollection :=
  cardinal ← rmap (Cell_neighbour self) [up; down; left; right];
  diagonal ←
    (if include_diagonals && (0 <? resolution self)%Z then
       lu ← (l ← Cell_neighbour self left; Cell_neighbour l up);
       ld ← (l ← Cell_neighbour self left; Cell_neighbour l down);
       ru ← (r ← Cell_neighbour self right; Cell_neighbour r up);
       rd ← (r ← Cell_neighbour self right; Cell_neighbour r down);
       Ok [lu; ld; ru; rd]
     else Ok []);
  CellCollection_init (ArgCells (cardinal ++ diagonal)) None None true.

(** [zip(a, b, c, d)] followed by [chain.from_iterable] *)
Fixpoint zip4_chain {A} (a b c d : list A) : list A :=
  match a, b, c, d with
  | x :: a', y :: b', z :: c', w :: d' =>
      x :: y :: z :: w :: zip4_chain a' b' c' d'
  | _, _, _, _ => []
  end.

Definition Cell_border (self : Cell) (res : option Z) : result operand :=
  match res with
  | None => Ok (OpCell self)
  | Some r =>
      let resolution_delta := (r - resolution self)%Z in
      if (resolution_delta <? 0)%Z then Raise ValueError
      else
        let n := Z.to_nat resolution_delta in
        let left_edge := product_repeat [0; 3; 6]%nat n in
        let right_edge := product_repeat [2; 5; 8]%nat n in
        let top_edge := product_repeat [0; 1; 2]%nat n in
        let bottom_edge := product_repeat [6; 7; 8]%nat n in
        let all_edges :=
          set_to_list (zip4_chain left_edge right_edge top_edge bottom_edge) in
        OpColl <$> CellCollection_init
          (ArgStrs ((λ i, Cell_repr self +:+ str_digits i) <$> all_edges))
          None None true
  end.

(** *** Aggregate operations *)

Fixpoint CellCollection_neighbours_rec (fuel : nat) (self : CellCollection)
    (res : option Z) : result CellCollection :=
  match fuel with
  | O => Raise RecursionError
  | S fuel' =>
      res ← match res with
            | None | Some 0%Z => Ok (max_resolution self)
            | Some r =>
                match max_resolution self with
                | None => Raise TypeError
                | Some m =>
                    if (r <? m)%Z then Raise ValueError else Ok (Some r)
                end
            end;
      all_neighbours ← CellCollection_init ArgNone None None true;
      cs ← iter_cells (cells self);
      all_neighbours ←
        rfold (λ all_neighbours cell,
                 r ← match res with
                     | Some r => Ok r
                     | None => Raise TypeError
                     end;
                 if (resolution cell <? r)%Z then
                   b ← Cell_border cell (Some r);
                   n ← match b with
                       | OpColl bc => CellCollection_neighbours_rec fuel' bc None
                       | OpCell c => Cell_neighbours c true
                       end;
                   CellCollection_add all_neighbours (OpColl n) true
                 else
                   n ← Cell_neighbours cell true;
                   CellCollection_add all_neighbours (OpColl n) true)
              cs all_neighbours;
      CellCollection_sub all_neighbours (OpColl self) true
  end.

(** A border collection has one resolution, so the call on it does not
    recurse again. *)
Definition CellCollection_neighbours := CellCollection_neighbours_rec 2.

Definition CellCollection_children (self : CellCollection) (res : option Z)
    : result CellCollection :=
  children ← CellCollection_init ArgNone None None true;
  cs ← iter_cells (cells self);
  rfold (λ children cell,
           ch ← Cell_children cell res;
           CellCollection_add children ch false)
        cs children.

Definition CellCollection_flatten (self : CellCollection) (res : option Z)
    : result CellCollection :=
  r ← match res with
      | Some r => Ok r
      | None =>
          match max_resolution self with
          | Some m => Ok m
          | None => Raise TypeError
          end
      end;
  m ← match min_resolution self with
      | Some m => Ok m
      | None => Raise TypeError
      end;
  if (r <? m)%Z then Raise ValueError
  else CellCollection_children self (Some r).

End with_set_order.

(** Three iteration orders: the order of first insertion, and the two
    orders by hash code, rising and falling (the hash is the code of the
    element as a number). *)
Program Definition first_seen : SetOrder :=
  {| set_to_list := λ A _ _ l, remove_dups l |}.
Next Obligation. done. Qed.

Definition hash_code {A} `{Countable A} (x : A) : N := Npos (encode x).

Program Definition hash_rising : SetOrder :=
  {| set_to_list := λ A _ _ l, sorted_by hash_code (remove_dups l) |}.
Next Obligation.
  intros A ? ? l. unfold sorted_by.
  induction (remove_dups l) as [|x k IH]; [done|]. cbn [foldr].
  rewrite <-IH at 2. generalize (foldr (insert_by hash_code) [] k). clear.
  intros k. induction k as [|y k IH]; [done|]. cbn [insert_by].
  destruct (_ <=? _)%N; [done|]. rewrite IH. apply Permutation_swap.
Qed.

Program Definition hash_falling : SetOrder :=
  {| set_to_list := λ A _ _ l, reverse (@set_to_list hash_rising A _ _ l) |}.
Next Obligation.
  intros A ? ? l. rewrite reverse_Permutation. apply (@set_to_list_perm hash_rising).
Qed.

(** * Notions used in the statements *)

Definition valid_suid (t : suid) : Prop := rhealpix_validator t = Ok tt.

Definition valid_cell (c : Cell) : Prop := valid_suid (cell_suids c).

(** The cells handed to the constructor are valid, as every [Cell] is. *)
Definition arg_valid (a : cells_arg) : Prop :=
  match a with
  | ArgCell c => valid_cell c
  | ArgCells l => Forall valid_cell l
  | _ => True
  end.

Definition opposite (d : direction) : direction :=
  match d with left => right | right => left | up => down | down => up end.

(** The direction that leads back from the neighbour [b] of [a] in
    direction [d]: the opposite direction when [b] is on the face of [a],
    and otherwise the direction in which the face of [a] is the atomic
    neighbour of the face of [b]. *)
Definition way_back (a b : Cell) (d : direction) : direction :=
  match head (cell_suids a), head (cell_suids b) with
  | Some fa, Some fb =>
      if decide (fa = fb) then opposite d
      else default (opposite d)
             (head (filter (λ d', an fb d' = Ok fa) [left; right; up; down]))
  | _, _ => opposite d
  end.

(** A cell on one of the two polar faces, [zero_cells[0]] and
    [zero_cells[5]]. *)
Definition polar (c : Cell) : Prop :=
  head (cell_suids c) = Some zc0 ∨ head (cell_suids c) = Some zc5.

(** A cell all of whose digits lie on the border of their parent in
    direction [d]: the cell touches the edge of its face on that side. *)
Definition on_border (d : direction) (c : Cell) : Prop :=
  Forall (λ e, in_border e d = true) (tail (cell_suids c)).

(** The digits that [an] and [rotate_entry] give for a digit. *)
Definition an_digit_of (d : direction) (n : nat) : nat :=
  match an (Dig n) d with Ok (Dig m) => m | _ => n end.

Definition turn_digit (q : option nat) (n : nat) : nat :=
  match q with
  | Some q => match rotate_entry (Dig n) q with Ok (Dig m) => m | _ => n end
  | None => n
  end.

(** A string without a blank: one word of the string form of a
    collection. *)
Definition no_space (s : string) : Prop := " "%char ∉ list_ascii_of_string s.

Definition digit_char (n : nat) : ascii := ascii_of_nat (48 + n).

Fixpoint digits_str (ds : list nat) : string :=
  match ds with
  | [] => ""
  | n :: ds' => String (digit_char n) (digits_str ds')
  end.

Definition repr_suid (t : suid) : string := Cell_repr (mkCell t).

Definition num_str (t : suid) : string :=
  match num_of_suid t with Ok s => s | Raise _ => "" end.

(** The integer a suid is sorted by. *)
Definition suid_key (t : suid) : N := int_key (num_str t).

Definition digits_val (acc : N) (ds : list nat) : N :=
  foldl (λ a d, a * 10 + N.of_nat d)%N acc ds.

Definition key_le {A} (key : A → N) (x y : A) : Prop := (key x ≤ key y)%N.

(** No two cells of the collection are sorted by the same integer. *)
Definition distinct_keys (R : CellCollection) : Prop :=
  ∀ cs c c', cells R = Some cs → c ∈ cs → c' ∈ cs →
    suid_key (cell_suids c) = suid_key (cell_suids c') → c = c'.

Definition opt_of {A} (r : result A) : option A :=
  match r with Ok a => Some a | Raise _ => None end.

(** The collection whose canonical suid sequence is [L]. *)
Definition collection_of (L : list suid) : CellCollection :=
  {| cells := Some (mkCell <$> L);
     crs := Some "auspix";
     kind := Some "rHEALPix";
     suids := repr_suid <$> L;
     max_resolution := opt_of (list_max_Z (resolution <$> (mkCell <$> L)));
     min_resolution := opt_of (list_min_Z (resolution <$> (mkCell <$> L)));
     wkt := Some ("CELLLIST ((" +:+ String.concat " " (repr_suid <$> L) +:+ "))") |}.

(** The suid a string of a collection stands for. *)
Definition suid_of_string (s : string) : suid :=
  match Cell_of_str s with
  | Ok c => cell_suids c
  | Raise _ => []
  end.

(** [S] is the empty sentinel ([L] is empty) or the collection of the valid
    suids [L]. *)
Definition holds (S : CellCollection) (L : list suid) : Prop :=
  Forall valid_suid L
  ∧ ((L = [] ∧ ∃ a, S = empty_collection a) ∨ (L ≠ [] ∧ S = collection_of L)).

(** [x] has a proper ancestor among [l]: one of the prefixes that [absorb]
    looks up. *)
Definition has_ancestor (x : suid) (l : list suid) : Prop :=
  Exists (λ i, take (S i) x ∈ l) (seq 0 (length x - 1)).

Global Instance has_ancestor_dec x l : Decision (has_ancestor x l).
Proof. unfold has_ancestor. apply _. Defined.

(** The cells of [l] whose parent is [k], in the order of [l]. *)
Definition siblings (k : suid) (l : list suid) : list suid :=
  filter (λ c, removelast c = k) l.

(** Invariants 1, 2 and 4 of a collection: no duplicate, no cell below
    another, sorted by key. *)
Definition canonical_form (L : list suid) : Prop :=
  NoDup L
  ∧ (∀ x, x ∈ L → ¬ has_ancestor x L)
  ∧ StronglySorted (key_le suid_key) L.

(** Invariant 3: no parent has all nine children in [L]. *)
Definition no_full_group (L : list suid) : Prop :=
  ∀ k, length (siblings k L) ≠ 9%nat.

(** The immediate children of a cell. *)
Definition child_suids (t : suid) : list suid :=
  (λ k, t ++ [Dig k]) <$> seq 0 9.

(** The 81 cells two levels below the face cell [P]. *)
Definition grandchildren_P : list suid :=
  flat_map child_suids (child_suids [Lbl "P"]).

(** The cells [n] levels below a cell, in the order [Cell.children] lists
    them. *)
Definition descendants (t : suid) (n : nat) : list suid :=
  (λ i, t ++ (Dig <$> i)) <$> product_repeat (seq 0 9) n.

(** The cells that [children(resolution)] lists for the cell of suid [t]:
    its nine children when no resolution is given. *)
Definition level (res : option Z) (t : suid) : list suid :=
  descendants t
    match res with
    | None => 1%nat
    | Some r => Z.to_nat (r - resolution (mkCell t))
    end.

(** Some cell of [L] contains the cell [x]. *)
Definition covers (L : list suid) (x : suid) : Prop :=
  ∃ y, y ∈ L ∧ y `prefix_of` x.

(** What the comparison of the cell [one] with the cell [two] retains: the
    cell itself when the two do not overlap, and, when [one] contains
    [two], the cells below [one] that are siblings of an ancestor of [two]
    or of [two] itself. *)
Definition retained (one two y : suid) : Prop :=
  (zip_all_equal one two = false ∧ y = one)
  ∨ (one `prefix_of` two
     ∧ ∃ i k, (length one ≤ i < length two)%nat ∧ (k < 9)%nat
              ∧ y = take i two ++ [Dig k] ∧ two !! i ≠ Some (Dig k)).

(** What it removes: [one] when [two] contains it, and [two] when [one]
    strictly contains it. *)
Definition removed (one two y : suid) : Prop :=
  (two `prefix_of` one ∧ y = one)
  ∨ (one `prefix_of` two ∧ one ≠ two ∧ y = two).

Definition accum_valid (st : accum) : Prop :=
  Forall valid_suid (cells_to_retain st) ∧ Forall valid_suid (cells_to_remove st).

Section canonical_sequence.
Context `{SO : SetOrder}.

(** The inner loop of [absorb] for one suid [s]. *)
Definition absorb_one (cur : list suid) (s : suid) : list suid :=
foldl (λ cur i,
         let ancestor := take (i + 1) s in
         if bool_decide (ancestor ∈ cur)
         then set_to_list (list_difference cur [s])
         else cur)
      cur (seq 0 (length s - 1)).

Definition pre_absorb (b : bool) (s0 : list suid) : list suid :=
if b then rhealpix_compress s0 else s0.

(** The suid sequence the constructor computes from the suids [s0] of the
  cells it is given. *)
Definition canonical (do_compress : bool) (s0 : list suid) : list suid :=
sorted_by suid_key
  (absorb (deduplicate (if do_compress then rhealpix_compress s0 else s0))).

(** What the constructor returns for the cells of the suids [U]. *)
Definition built (b : bool) (U : list suid) : CellCollection :=
match U with
| [] => empty_collection (ArgCells [])
| _ => collection_of (canonical b U)
end.

(** The cells a difference keeps, before they are passed to the
  constructor: retained and not removed. *)
Definition kept (st : accum) : list suid :=
set_to_list (list_difference (cells_to_retain st) (cells_to_remove st)).

(** The suids of a union, in the order the set of strings is iterated. *)
Definition union_of (S T : CellCollection) : list suid :=
suid_of_string <$> set_to_list (suids S ++ suids T).

End canonical_sequence.

(** * Properties *)

(** ** Valid cells *)

Lemma rbind_ok {A B} (m : result A) (k : A → result B) b :
  m ≫= k = Ok b ↔ ∃ a, m = Ok a ∧ k a = Ok b.
Proof.
  destruct m as [a|e]; simpl; split.
  - intros H. by exists a.
  - by intros (a' & [= ->] & H).
  - done.
  - by intros (a' & ? & _).
Qed.

Lemma valid_suid_inv t :
  valid_suid t ↔
  ∃ f ds, t = Lbl f :: (Dig <$> ds) ∧ f ∈ zero_cells ∧ Forall (λ n, n < 9)%nat ds.
Proof.
  unfold valid_suid, rhealpix_validator. split.
  - destruct t as [|[f|n] digits]; try done.
    simpl. case_bool_decide as Hf; [|done].
    destruct (forallb digit_in_range digits) eqn:Hd; [|done].
    intros _. exists f.
    assert (∃ ds, digits = (Dig <$> ds) ∧ Forall (λ n, n < 9)%nat ds) as (ds & -> & ?).
    { clear Hf. induction digits as [|[c|n] digits IH]; simpl in Hd.
      - by exists [].
      - done.
      - apply andb_prop in Hd as [Hn Hd]. apply bool_decide_eq_true in Hn.
        destruct (IH Hd) as (ds & -> & ?). exists (n :: ds). split; [done|].
        constructor; [exact Hn | done]. }
    by exists ds.
  - intros (f & ds & -> & Hf & Hds). simpl.
    rewrite bool_decide_eq_true_2 by done.
    replace (forallb digit_in_range (Dig <$> ds)) with true; [done|].
    symmetry. induction Hds as [|n ds Hn _ IH]; csimpl; [done|].
    rewrite IH. by rewrite bool_decide_eq_true_2.
Qed.

Lemma Cell_of_tuple_valid t : valid_suid t → Cell_of_tuple t = Ok (mkCell t).
Proof.
  intros Hv. unfold Cell_of_tuple, Cell_init. simpl.
  unfold Cell_validate. simpl. unfold valid_suid in Hv. by rewrite Hv.
Qed.

Lemma Cell_of_tuple_ok t c : Cell_of_tuple t = Ok c → c = mkCell t ∧ valid_suid t.
Proof.
  unfold Cell_of_tuple, Cell_init. simpl. unfold Cell_validate. simpl.
  unfold valid_suid. destruct (rhealpix_validator t) as [[]|e]; simpl; [|done].
  by intros [= <-].
Qed.

(** ** The atomic table *)

Lemma digit_in_seq n : (n < 9)%nat → n ∈ seq 0 9.
Proof. intros H. apply elem_of_seq. lia. Qed.

Ltac enum_cases H :=
  simpl in H;
  repeat (apply elem_of_cons in H as [-> | H]);
  [.. | by apply elem_of_nil in H].

Ltac digit_cases H := apply digit_in_seq in H; enum_cases H.

Lemma an_digit n d :
  (n < 9)%nat → ∃ m, an (Dig n) d = Ok (Dig m) ∧ (m < 9)%nat ∧ m ≠ n.
Proof.
  intros H. digit_cases H; destruct d; simpl; eexists; (split; [reflexivity|lia]).
Qed.

Lemma an_digit_back n d m :
  (n < 9)%nat → an (Dig n) d = Ok (Dig m) →
  an (Dig m) (opposite d) = Ok (Dig n) ∧
  in_border (Dig m) (opposite d) = in_border (Dig n) d.
Proof.
  intros H. digit_cases H; destruct d; simpl; intros [= <-]; by vm_compute.
Qed.

Lemma an_face f d :
  f ∈ zero_cells → ∃ g, an (Lbl f) d = Ok (Lbl g) ∧ g ∈ zero_cells ∧ g ≠ f.
Proof.
  intros H. unfold zero_cells in H. enum_cases H; destruct d; simpl;
    eexists; (split; [reflexivity|]); (split; [|done]);
    unfold zero_cells; rewrite !elem_of_cons; tauto.
Qed.

Lemma quarter_turns_same f :
  f ∈ zero_cells → quarter_turns (Lbl f) (Lbl f) = None.
Proof. intros H. unfold zero_cells in H. enum_cases H; by vm_compute. Qed.

Lemma quarter_turns_range f g q :
  quarter_turns (Lbl f) (Lbl g) = Some q → q ∈ [1; 2; 3]%nat.
Proof.
  unfold quarter_turns.
  repeat match goal with |- context [if ?b then _ else _] => destruct b end;
    intros [= <-]; rewrite !elem_of_cons; tauto.
Qed.

Lemma rotate_entry_face f q :
  f ∈ zero_cells → q ∈ [1; 2; 3]%nat → rotate_entry (Lbl f) q = Ok (Lbl f).
Proof.
  intros H Hq. unfold zero_cells in H. enum_cases H; enum_cases Hq; by vm_compute.
Qed.

Lemma rotate_entry_digit n q :
  (n < 9)%nat → q ∈ [1; 2; 3]%nat →
  ∃ m, rotate_entry (Dig n) q = Ok (Dig m) ∧ (m < 9)%nat.
Proof.
  intros H Hq. digit_cases H; enum_cases Hq;
    vm_compute; eexists; (split; [reflexivity|lia]).
Qed.

Lemma rotate_valid f ds q :
  f ∈ zero_cells → Forall (λ n, n < 9)%nat ds → q ∈ [1; 2; 3]%nat →
  ∃ ds', rotate (Lbl f :: (Dig <$> ds)) q = Ok (Lbl f :: (Dig <$> ds'))
         ∧ Forall (λ n, n < 9)%nat ds'.
Proof.
  intros Hf Hds Hq. unfold rotate. cbn [rmap].
  rewrite rotate_entry_face by done. cbn.
  assert (∃ ds', rmap (λ x, rotate_entry x q) (Dig <$> ds) = Ok (Dig <$> ds')
                 ∧ Forall (λ n, n < 9)%nat ds') as (ds' & -> & ?).
  { induction Hds as [|n ds Hn _ (ds' & IH & ?)]; [by exists []|].
    destruct (rotate_entry_digit n q Hn Hq) as (m & Hm & ?).
    exists (m :: ds'). cbn [fmap list_fmap rmap]. rewrite Hm, IH. split; [done|].
    by constructor. }
  by exists ds'.
Qed.

(** ** The scan *)

Lemma rbind_Ok {A B} (a : A) (k : A → result B) : Ok a ≫= k = k a.
Proof. done. Qed.

Lemma neighbour_scan_cons d n rest :
  neighbour_scan d (n :: rest) false
  = m ← an n d; tl ← neighbour_scan d rest (negb (in_border n d)); Ok (m :: tl).
Proof. done. Qed.

Lemma neighbour_scan_copy d l : neighbour_scan d l true = Ok l.
Proof. induction l as [|n l IH]; simpl; [done|]. by rewrite IH. Qed.

Lemma neighbour_scan_digits d rds f :
  f ∈ zero_cells → Forall (λ n, n < 9)%nat rds →
  ∃ rds' f',
    neighbour_scan d ((Dig <$> rds) ++ [Lbl f]) false = Ok ((Dig <$> rds') ++ [Lbl f'])
    ∧ f' ∈ zero_cells ∧ Forall (λ n, n < 9)%nat rds'.
Proof.
  intros Hf Hds. induction Hds as [|k rds Hk Hds IH].
  - destruct (an_face f d Hf) as (g & Hg & ? & ?).
    exists [], g. rewrite fmap_nil, app_nil_l, neighbour_scan_cons, Hg. done.
  - destruct (an_digit k d Hk) as (m & Hm & ? & ?).
    rewrite fmap_cons, <-app_comm_cons, neighbour_scan_cons, Hm, rbind_Ok.
    destruct (in_border (Dig k) d); cbn [negb].
    + destruct IH as (rds' & f' & -> & ? & ?). exists (m :: rds'), f'.
      rewrite rbind_Ok. repeat split; try done. by constructor.
    + rewrite neighbour_scan_copy, rbind_Ok. exists (m :: rds), f.
      repeat split; try done. by constructor.
Qed.

Lemma neighbour_scan_head d rds f out :
  f ∈ zero_cells → Forall (λ n, n < 9)%nat rds →
  neighbour_scan d ((Dig <$> rds) ++ [Lbl f]) false = Ok out →
  head out ≠ head ((Dig <$> rds) ++ [Lbl f]).
Proof.
  intros Hf Hds. destruct Hds as [|n rds Hn Hds].
  - destruct (an_face f d Hf) as (g & Hg & ? & ?).
    rewrite fmap_nil, app_nil_l, neighbour_scan_cons, Hg.
    intros [= <-] [= ->]. done.
  - destruct (an_digit n d Hn) as (m & Hm & ? & ?).
    rewrite fmap_cons, <-app_comm_cons, neighbour_scan_cons, Hm, rbind_Ok.
    intros (tl & _ & [= <-])%rbind_ok [= ->]. done.
Qed.

Lemma neighbour_scan_back d rds rds' f :
  Forall (λ n, n < 9)%nat rds → f ∈ zero_cells →
  neighbour_scan d ((Dig <$> rds) ++ [Lbl f]) false = Ok ((Dig <$> rds') ++ [Lbl f]) →
  neighbour_scan (opposite d) ((Dig <$> rds') ++ [Lbl f]) false
  = Ok ((Dig <$> rds) ++ [Lbl f]).
Proof.
  intros Hds Hf. revert rds'. induction Hds as [|n rds Hn _ IH]; intros rds'.
  - rewrite fmap_nil, app_nil_l, neighbour_scan_cons.
    destruct (an_face f d Hf) as (g & -> & _ & Hne). rewrite rbind_Ok.
    destruct rds' as [|? [|? ?]]; intros [= E]; congruence.
  - rewrite fmap_cons, <-app_comm_cons, neighbour_scan_cons.
    destruct (an_digit n d Hn) as (m & Hm & _ & _). rewrite Hm, rbind_Ok.
    destruct (an_digit_back n d m Hn Hm) as [Hback Hb].
    intros (tl & Htl & E)%rbind_ok. injection E as E.
    destruct rds' as [|m' rds'].
    { injection E as E _. done. }
    rewrite fmap_cons, <-app_comm_cons in E. injection E as <- ->.
    rewrite fmap_cons, <-app_comm_cons, neighbour_scan_cons, Hback, rbind_Ok, Hb.
    destruct (in_border (Dig n) d); cbn [negb] in *.
    + by rewrite (IH _ Htl).
    + rewrite neighbour_scan_copy in Htl. injection Htl as Htl.
      rewrite <-Htl. by rewrite neighbour_scan_copy.
Qed.

Lemma reverse_suid f ds :
  reverse (Lbl f :: (Dig <$> ds)) = (Dig <$> reverse ds) ++ [Lbl f].
Proof. rewrite reverse_cons. f_equal. by rewrite <-fmap_reverse. Qed.

Lemma reverse_rev_suid f rds :
  reverse ((Dig <$> rds) ++ [Lbl f]) = Lbl f :: (Dig <$> reverse rds).
Proof. rewrite reverse_app, reverse_singleton. simpl. f_equal. by rewrite <-fmap_reverse. Qed.

(** [neighbour] on a valid cell returns a valid cell that is not the cell. *)
Global Instance Dig_inj : Inj (=) (=) Dig.
Proof. by intros ?? [=]. Qed.

Lemma Cell_neighbour_unfold f ds d out :
  neighbour_scan d (reverse (Lbl f :: (Dig <$> ds))) false = Ok out →
  Cell_neighbour (mkCell (Lbl f :: (Dig <$> ds))) d
  = (neighbour0 ← head_elem (reverse out);
     neighbour ← match quarter_turns (Lbl f) neighbour0 with
                 | Some q => rotate (reverse out) q
                 | None => Ok (reverse out)
                 end;
     Cell_of_tuple neighbour).
Proof. intros H. unfold Cell_neighbour. cbn [cell_suids]. by rewrite H. Qed.

Lemma Cell_neighbour_valid a d :
  valid_cell a →
  ∃ b, Cell_neighbour a d = Ok b ∧ valid_cell b ∧ b ≠ a.
Proof.
  destruct a as [t]. unfold valid_cell. cbn [cell_suids].
  intros (f & ds & -> & Hf & Hds)%valid_suid_inv.
  apply Forall_reverse in Hds as Hrds.
  destruct (neighbour_scan_digits d (reverse ds) f Hf Hrds)
    as (rds' & f' & Hscan & Hf' & Hds').
  pose proof (neighbour_scan_head d (reverse ds) f _ Hf Hrds Hscan) as Hne.
  rewrite <-reverse_suid in Hscan.
  rewrite (Cell_neighbour_unfold _ _ _ _ Hscan), reverse_rev_suid.
  cbn [head_elem]. rewrite rbind_Ok.
  apply Forall_reverse in Hds' as Hrds'.
  destruct (quarter_turns (Lbl f) (Lbl f')) as [q|] eqn:Hq.
  - assert (f ≠ f') as Hff.
    { intros ->. by rewrite quarter_turns_same in Hq. }
    destruct (rotate_valid f' (reverse rds') q) as (ds' & -> & Hv); try done.
    { by eapply quarter_turns_range. }
    assert (valid_suid (Lbl f' :: (Dig <$> ds'))) as Hvalid.
    { apply valid_suid_inv. by exists f', ds'. }
    rewrite rbind_Ok, Cell_of_tuple_valid by done.
    eexists. split; [done|]. split; [done|].
    intros [= -> _]. done.
  - assert (valid_suid (Lbl f' :: (Dig <$> reverse rds'))) as Hvalid.
    { apply valid_suid_inv. by exists f', (reverse rds'). }
    rewrite rbind_Ok, Cell_of_tuple_valid by done.
    eexists. split; [done|]. split; [done|].
    intros [= -> E]. apply Hne. apply (inj (fmap Dig)) in E.
    apply (f_equal reverse) in E. rewrite reverse_involutive in E.
    by rewrite E.
Qed.

(** ** Neighbour symmetry *)

(** C4: when the neighbour of a valid cell [a] in direction [d] lies on the
    face of [a], the neighbour of that cell in the opposite direction is [a]. *)
Theorem neighbour_symmetry (a b : Cell) (d : direction) :
  valid_cell a →
  Cell_neighbour a d = Ok b →
  head (cell_suids b) = head (cell_suids a) →
  Cell_neighbour b (opposite d) = Ok a.
Proof.
  destruct a as [t]. unfold valid_cell. cbn [cell_suids].
  intros Hva. pose proof Hva as (f & ds & -> & Hf & Hds)%valid_suid_inv.
  apply Forall_reverse in Hds as Hrds.
  destruct (neighbour_scan_digits d (reverse ds) f Hf Hrds)
    as (rds' & f' & Hscan & Hf' & Hds').
  apply Forall_reverse in Hds' as Hrds'.
  pose proof Hscan as Hscan'. rewrite <-reverse_suid in Hscan'.
  rewrite (Cell_neighbour_unfold _ _ _ _ Hscan'), reverse_rev_suid.
  cbn [head_elem]. rewrite rbind_Ok.
  destruct (quarter_turns (Lbl f) (Lbl f')) as [q|] eqn:Hq.
  - destruct (rotate_valid f' (reverse rds') q) as (ds' & -> & Hv); try done.
    { by eapply quarter_turns_range. }
    rewrite rbind_Ok. intros [-> _]%Cell_of_tuple_ok [= ->].
    by rewrite quarter_turns_same in Hq.
  - rewrite rbind_Ok. intros [-> _]%Cell_of_tuple_ok [= ->].
    apply neighbour_scan_back in Hscan; [|done..].
    rewrite <-(reverse_involutive rds'), <-reverse_suid in Hscan.
    rewrite (Cell_neighbour_unfold _ _ _ _ Hscan), reverse_rev_suid.
    rewrite reverse_involutive. cbn [head_elem].
    rewrite rbind_Ok, quarter_turns_same, rbind_Ok by done.
    by apply Cell_of_tuple_valid.
Qed.

Lemma neighbour_symmetry_witness :
  Cell_neighbour (mkCell [Lbl "P"; Dig 2]) (opposite right)
  = Ok (mkCell [Lbl "P"; Dig 1]).
Proof.
  apply (neighbour_symmetry (mkCell [Lbl "P"; Dig 1]) (mkCell [Lbl "P"; Dig 2]) right);
    reflexivity.
Defined.

(** ** Overlap *)

Lemma zip_all_equal_prefix (a b : suid) :
  zip_all_equal a b = true ↔ a `prefix_of` b ∨ b `prefix_of` a.
Proof.
  revert b. induction a as [|i a IH]; intros [|j b]; simpl.
  - split; [left; done | done].
  - split; [left; apply prefix_nil | done].
  - split; [right; apply prefix_nil | done].
  - destruct (decide (i = j)) as [->|Hne].
    + rewrite IH. split; (intros [H|H]; [left|right]);
        (by apply prefix_cons) || (by eapply prefix_cons_inv_2).
    + split; [done|]. intros [H|H]; apply prefix_cons_inv_1 in H; congruence.
Qed.

Lemma zip_all_equal_lookup (a b : suid) :
  zip_all_equal a b = true ↔
  ∀ i x y, a !! i = Some x → b !! i = Some y → x = y.
Proof.
  revert b. induction a as [|x a IH]; intros [|y b]; simpl; try (split; [|done]; by intros _ [|?] ?? ).
  destruct (decide (x = y)) as [->|Hne].
  - rewrite IH. split.
    + intros H [|i] x' y'; simpl; [congruence | apply H].
    + intros H i x' y'. apply (H (S i)).
  - split; [done|]. intros H. destruct Hne. by apply (H 0%nat).
Qed.

(** C5: [overlaps] holds exactly when one suid is a prefix of the other,
    that is, when the two suids agree at every common position; it is
    symmetric in its two cells. *)
Theorem overlaps_iff_prefix (a b : Cell) :
  (Cell_overlaps a b = true ↔
     cell_suids a `prefix_of` cell_suids b ∨ cell_suids b `prefix_of` cell_suids a)
  ∧ (Cell_overlaps a b = true ↔
       ∀ i x y, cell_suids a !! i = Some x → cell_suids b !! i = Some y → x = y)
  ∧ Cell_overlaps a b = Cell_overlaps b a.
Proof.
  unfold Cell_overlaps. split; [apply zip_all_equal_prefix|].
  split; [apply zip_all_equal_lookup|].
  apply eq_true_iff_eq. rewrite !zip_all_equal_prefix. tauto.
Qed.

(** ** Strings of suids *)

Lemma pretty_digit n : (n < 9)%nat → pretty n = String (digit_char n) "".
Proof. intros H. digit_cases H; reflexivity. Qed.

Lemma int_of_digit_char n : (n < 9)%nat → int_of_char (digit_char n) = Ok n.
Proof. intros H. digit_cases H; reflexivity. Qed.

Lemma join_digits ds :
  Forall (λ n, n < 9)%nat ds → join (str_elem <$> (Dig <$> ds)) = digits_str ds.
Proof.
  induction 1 as [|n ds Hn _ IH]; [done|].
  rewrite !fmap_cons. unfold join in *. cbn [foldr str_elem]. rewrite IH.
  by rewrite pretty_digit.
Qed.

Lemma str_digits_eq ds :
  Forall (λ n, n < 9)%nat ds → str_digits ds = digits_str ds.
Proof.
  induction 1 as [|n ds Hn _ IH]; [done|].
  unfold str_digits, join in *. rewrite fmap_cons. cbn [foldr]. rewrite IH.
  by rewrite pretty_digit.
Qed.

Lemma Cell_repr_valid f ds :
  Forall (λ n, n < 9)%nat ds →
  Cell_repr (mkCell (Lbl f :: (Dig <$> ds))) = String f (digits_str ds).
Proof.
  intros H. unfold Cell_repr. cbn [cell_suids]. rewrite fmap_cons.
  change (join (?x :: ?l)) with (x +:+ join l). by rewrite join_digits.
Qed.

Lemma rmap_int_of_char ds :
  Forall (λ n, n < 9)%nat ds →
  rmap int_of_char (list_ascii_of_string (digits_str ds)) = Ok ds.
Proof.
  induction 1 as [|n ds Hn _ IH]; [done|].
  cbn [digits_str list_ascii_of_string rmap].
  by rewrite int_of_digit_char, rbind_Ok, IH.
Qed.

(** Reading back the string of a valid cell gives the cell. *)
Lemma Cell_of_str_repr t :
  valid_suid t → Cell_of_str (Cell_repr (mkCell t)) = Ok (mkCell t).
Proof.
  intros Hv. pose proof Hv as (f & ds & -> & Hf & Hds)%valid_suid_inv.
  rewrite Cell_repr_valid by done.
  unfold Cell_of_str, Cell_init. cbn [known_crs bool_decide decide_rel].
  change (known_crs "auspix") with true. cbn [suid_from_str].
  rewrite rmap_int_of_char, !rbind_Ok by done.
  unfold Cell_validate. change (bool_decide ("rHEALPix" = "rHEALPix")) with true.
  cbv iota. unfold valid_suid in Hv. by rewrite Hv.
Qed.

(** ** Ordering *)

Lemma zero_cell_index_valid f :
  f ∈ zero_cells →
  ∃ i, zero_cell_index (Lbl f) = Ok i ∧ zero_cells !! i = Some f
       ∧ pretty i = String (digit_char i) "" ∧ (i < 9)%nat.
Proof.
  intros H. unfold zero_cells in H.
  enum_cases H; eexists; (split; [vm_compute; reflexivity|]);
    (split; [reflexivity|]); (split; [reflexivity|]); lia.
Qed.

Lemma num_of_suid_valid f ds :
  f ∈ zero_cells → Forall (λ n, n < 9)%nat ds →
  ∃ i, zero_cells !! i = Some f ∧ (i < 9)%nat ∧
       num_of_suid (Lbl f :: (Dig <$> ds))
       = Ok (String (digit_char i) (digits_str ds)).
Proof.
  intros Hf Hds. destruct (zero_cell_index_valid f Hf) as (i & Hi & Hz & Hp & Hlt).
  exists i. split; [done|]. split; [done|].
  unfold num_of_suid. cbn [head_elem tail]. rewrite rbind_Ok, Hi, rbind_Ok, Hp.
  by rewrite join_digits.
Qed.

Lemma num_of_suid_num_str t : valid_suid t → num_of_suid t = Ok (num_str t).
Proof.
  intros (f & ds & -> & Hf & Hds)%valid_suid_inv.
  destruct (num_of_suid_valid f ds Hf Hds) as (i & _ & _ & H).
  unfold num_str. by rewrite H.
Qed.

Lemma suid_of_num_str t : valid_suid t → suid_of_num (num_str t) = Ok (repr_suid t).
Proof.
  intros (f & ds & -> & Hf & Hds)%valid_suid_inv.
  destruct (num_of_suid_valid f ds Hf Hds) as (i & Hz & Hi & H).
  unfold num_str, repr_suid. rewrite H, Cell_repr_valid by done.
  cbn [suid_of_num]. by rewrite int_of_digit_char, rbind_Ok, Hz.
Qed.

Lemma int_digits_ok acc ds :
  Forall (λ n, n < 9)%nat ds → ∃ k, int_digits acc (digits_str ds) = Ok k.
Proof.
  intros H. revert acc. induction H as [|n ds Hn _ IH]; intros acc.
  - by exists acc.
  - cbn [digits_str int_digits]. rewrite int_of_digit_char, rbind_Ok by done.
    apply IH.
Qed.

Lemma py_int_num_str t : valid_suid t → py_int (num_str t) = Ok (suid_key t).
Proof.
  intros (f & ds & -> & Hf & Hds)%valid_suid_inv.
  destruct (num_of_suid_valid f ds Hf Hds) as (i & Hz & Hi & H).
  unfold suid_key, int_key, num_str. rewrite H.
  unfold py_int. cbn [int_digits]. rewrite int_of_digit_char, rbind_Ok by done.
  destruct (int_digits_ok (0 * 10 + N.of_nat i) ds Hds) as (k & ->). done.
Qed.

Lemma rmap_ok {A B} (f : A → result B) (g : A → B) (l : list A) :
  Forall (λ x, f x = Ok (g x)) l → rmap f l = Ok (g <$> l).
Proof.
  induction 1 as [|x l Hx _ IH]; [done|].
  cbn [rmap]. by rewrite Hx, rbind_Ok, IH.
Qed.

Lemma rmap_fmap {A B C} (f : B → result C) (h : A → B) (l : list A) :
  rmap f (h <$> l) = rmap (f ∘ h) l.
Proof.
  induction l as [|x l IH]; [done|]. rewrite fmap_cons. cbn [rmap]. by rewrite IH.
Qed.

Lemma insert_by_fmap {A B} (key : B → N) (f : A → B) x l :
  insert_by key (f x) (f <$> l) = f <$> insert_by (key ∘ f) x l.
Proof.
  induction l as [|y l IH]; [done|].
  rewrite fmap_cons. cbn [insert_by]. unfold compose at 1 2.
  destruct (key (f x) <=? key (f y))%N; [done|].
  by rewrite IH.
Qed.

Lemma sorted_by_fmap {A B} (key : B → N) (f : A → B) l :
  sorted_by key (f <$> l) = f <$> sorted_by (key ∘ f) l.
Proof.
  induction l as [|x l IH]; [done|].
  rewrite fmap_cons. unfold sorted_by in *. cbn [foldr].
  by rewrite IH, insert_by_fmap.
Qed.

Lemma insert_by_perm {A} (key : A → N) x l : insert_by key x l ≡ₚ x :: l.
Proof.
  induction l as [|y l IH]; [done|]. cbn [insert_by].
  destruct (key x <=? key y)%N; [done|]. rewrite IH. apply Permutation_swap.
Qed.

Lemma sorted_by_perm {A} (key : A → N) l : sorted_by key l ≡ₚ l.
Proof.
  induction l as [|x l IH]; [done|]. unfold sorted_by in *. cbn [foldr].
  by rewrite insert_by_perm, IH.
Qed.

Lemma rhealpix_order_valid l :
  Forall valid_suid l →
  rhealpix_order l = Ok (repr_suid <$> sorted_by suid_key l).
Proof.
  intros Hl. unfold rhealpix_order.
  rewrite (rmap_ok num_of_suid num_str), rbind_Ok.
  2:{ eapply Forall_impl; [done|]. apply num_of_suid_num_str. }
  unfold sorted_key_int.
  rewrite (rmap_ok py_int int_key).
  2:{ apply Forall_fmap. eapply Forall_impl; [done|].
      intros t Ht. simpl. by rewrite py_int_num_str. }
  rewrite !rbind_Ok.
  rewrite sorted_by_fmap.
  change (int_key ∘ num_str) with suid_key.
  rewrite rmap_fmap. apply rmap_ok.
  rewrite sorted_by_perm. eapply Forall_impl; [done|].
  intros t Ht. by apply suid_of_num_str.
Qed.

(** ** The constructor on valid cells *)

Lemma CellCollection_validate_ok cs :
  CellCollection_validate cs "auspix" "rHEALPix" = Ok tt.
Proof.
  unfold CellCollection_validate. induction cs as [|c cs IH]; [done|].
  cbn [rfold]. unfold cell_crs, cell_kind.
  rewrite !bool_decide_eq_true_2 by done. cbn [negb]. by rewrite rbind_Ok.
Qed.

Section pipeline.
Context `{SO : SetOrder}.

Lemma CellCollection_init_cells cs b :
  cs ≠ [] →
  Forall valid_suid (canonical b (cell_suids <$> cs)) →
  canonical b (cell_suids <$> cs) ≠ [] →
  CellCollection_init (ArgCells cs) None None b
  = Ok (collection_of (canonical b (cell_suids <$> cs))).
Proof.
  intros Hne HL HLne. unfold CellCollection_init.
  destruct cs as [|c0 cs]; [done|].
  cbn [arg_false standardise_input truthy default].
  rewrite !rbind_Ok. cbv iota.
  change (cell_crs c0) with "auspix". change (cell_kind c0) with "rHEALPix".
  rewrite CellCollection_validate_ok.
  change (tt ;; ?k) with k.
  set (s0 := cell_suids <$> c0 :: cs) in *.
  assert (∀ X, (s1 ← (if b then compress "rHEALPix" s0 else Ok s0); X s1)
               = X (if b then rhealpix_compress s0 else s0)) as ->.
  { intros X. by destruct b. }
  unfold order. change (bool_decide ("rHEALPix" = "rHEALPix")) with true.
  cbv iota. unfold canonical in *.
  set (A := absorb _) in *.
  rewrite rhealpix_order_valid, rbind_Ok.
  2:{ by rewrite sorted_by_perm in HL. }
  set (L := sorted_by suid_key A) in *.
  rewrite rbind_Ok, rmap_fmap, (rmap_ok _ mkCell), rbind_Ok.
  2:{ eapply Forall_impl; [done|]. intros t Ht. by apply Cell_of_str_repr. }
  unfold collection_of.
  destruct L as [|x L]; [done|]. done.
Qed.
End pipeline.

(** ** Deduplication and absorption *)

Lemma has_ancestor_alt x l :
  has_ancestor x l ↔ ∃ i, (i < length x - 1)%nat ∧ take (S i) x ∈ l.
Proof.
  unfold has_ancestor. rewrite Exists_exists. split.
  - intros (i & Hi%elem_of_seq & H). exists i. split; [lia|done].
  - intros (i & Hi & H). exists i. split; [apply elem_of_seq; lia|done].
Qed.

Lemma has_ancestor_root x l :
  has_ancestor x l →
  ∃ i, (i < length x - 1)%nat ∧ take (S i) x ∈ l ∧ ¬ has_ancestor (take (S i) x) l.
Proof.
  remember (length x) as n eqn:Hn. revert x Hn.
  induction (lt_wf n) as [n _ IH]. intros x -> (i & Hi & Hin)%has_ancestor_alt.
  destruct (decide (has_ancestor (take (S i) x) l)) as [Ha|Ha]; [|by exists i].
  destruct (IH (length (take (S i) x))) with (x := take (S i) x)
    as (j & Hj & Hjin & Hroot); [rewrite length_take; lia|done|done|].
  rewrite length_take in Hj. rewrite take_take in Hjin, Hroot.
  replace (S j `min` S i)%nat with (S j) in * by lia.
  exists j. split; [lia|done].
Qed.

Section absorb.
Context `{SO : SetOrder}.

Lemma set_to_list_elem {A} `{Countable A} (l : list A) x :
  x ∈ set_to_list l ↔ x ∈ l.
Proof. by rewrite set_to_list_perm, elem_of_remove_dups. Qed.

Lemma set_to_list_NoDup {A} `{Countable A} (l : list A) :
  NoDup (set_to_list l).
Proof. rewrite set_to_list_perm. apply NoDup_remove_dups. Qed.

Lemma absorb_eq l : absorb l = foldl absorb_one l l.
Proof. done. Qed.

Lemma absorb_inner (s : suid) (idx : list nat) (cur : list suid) :
  NoDup cur →
  let r := foldl (λ cur i,
                    let ancestor := take (i + 1) s in
                    if bool_decide (ancestor ∈ cur)
                    then set_to_list (list_difference cur [s])
                    else cur) cur idx in
  NoDup r ∧
  ∀ x, x ∈ r ↔ x ∈ cur ∧ ¬ (x = s ∧ Exists (λ i, take (S i) s ∈ cur) idx).
Proof.
  revert cur. induction idx as [|i idx IH]; intros cur Hnd; cbn [foldl].
  - split; [done|]. intros x. rewrite Exists_nil. tauto.
  - cbv zeta. rewrite Nat.add_1_r. case_bool_decide as Hanc.
    + destruct (IH (set_to_list (list_difference cur [s]))) as [IH1 IH2].
      { apply set_to_list_NoDup. }
      split; [done|]. intros x. rewrite IH2, set_to_list_elem.
      rewrite list_elem_of_difference, list_elem_of_singleton, Exists_cons. tauto.
    + destruct (IH cur Hnd) as [IH1 IH2].
      split; [done|]. intros x. rewrite IH2, Exists_cons. tauto.
Qed.

Lemma absorb_one_spec l cur s :
  NoDup cur →
  (∀ x, x ∈ cur → x ∈ l) →
  (∀ x, x ∈ l → ¬ has_ancestor x l → x ∈ cur) →
  NoDup (absorb_one cur s) ∧
  ∀ x, x ∈ absorb_one cur s ↔ x ∈ cur ∧ ¬ (x = s ∧ has_ancestor s l).
Proof.
  intros Hnd Hsub Hroots.
  destruct (absorb_inner s (seq 0 (length s - 1)) cur Hnd) as [H1 H2].
  split; [done|]. intros x. unfold absorb_one. rewrite H2.
  fold (has_ancestor s cur).
  assert (has_ancestor s cur ↔ has_ancestor s l) as ->; [|done].
  split.
  - unfold has_ancestor. intros H. eapply Exists_impl; [exact H|].
    intros i. apply Hsub.
  - intros (i & Hi & Hin & Hroot)%has_ancestor_root.
    apply has_ancestor_alt. exists i. split; [done|]. by apply Hroots.
Qed.

Lemma absorb_fold l rest cur :
  NoDup cur →
  (∀ x, x ∈ cur → x ∈ l) →
  (∀ x, x ∈ l → ¬ has_ancestor x l → x ∈ cur) →
  NoDup (foldl absorb_one cur rest) ∧
  ∀ x, x ∈ foldl absorb_one cur rest
       ↔ x ∈ cur ∧ ¬ (x ∈ rest ∧ has_ancestor x l).
Proof.
  revert cur. induction rest as [|s rest IH]; intros cur Hnd Hsub Hroots.
  - split; [done|]. intros x. rewrite elem_of_nil. tauto.
  - cbn [foldl].
    destruct (absorb_one_spec l cur s Hnd Hsub Hroots) as [H1 H2].
    destruct (IH (absorb_one cur s)) as [IH1 IH2]; [done| | |].
    + intros x [Hx _]%H2. by apply Hsub.
    + intros x Hx Hr. apply H2. split; [by apply Hroots|].
      intros [-> Ha]. done.
    + split; [done|]. intros x. rewrite IH2, H2, elem_of_cons.
      split.
      * intros [[Hx Hn1] Hn2]. split; [done|].
        intros [[->|Hin] Ha]; tauto.
      * intros [Hx Hn]. split; [split; [done|]|].
        -- intros [-> Ha]. apply Hn. split; [by left|done].
        -- intros [Hin Ha]. apply Hn. split; [by right|done].
Qed.

(** [absorb] keeps exactly the suids that have no proper ancestor in the
    list. *)
Lemma absorb_spec l :
  NoDup l →
  NoDup (absorb l) ∧ ∀ x, x ∈ absorb l ↔ x ∈ l ∧ ¬ has_ancestor x l.
Proof.
  intros Hnd. rewrite absorb_eq.
  destruct (absorb_fold l l l Hnd) as [H1 H2]; [done|done|].
  split; [done|]. intros x. rewrite H2. tauto.
Qed.

Lemma deduplicate_spec l :
  NoDup (deduplicate l) ∧ ∀ x, x ∈ deduplicate l ↔ x ∈ l.
Proof.
  split; [apply set_to_list_NoDup|]. intros x. apply set_to_list_elem.
Qed.
End absorb.

(** ** Compression *)

Lemma siblings_snoc k l c :
  siblings k (l ++ [c])
  = siblings k l ++ (if decide (removelast c = k) then [c] else []).
Proof. unfold siblings. by rewrite filter_app. Qed.

Lemma setdefault_append_keys {K V} `{EqDecision K} (k : K) (v : V) d :
  (setdefault_append k v d).*1
  = if decide (k ∈ d.*1) then d.*1 else d.*1 ++ [k].
Proof.
  induction d as [|[k' vs] d IH]; [done|]. cbn [setdefault_append].
  destruct (decide (k' = k)) as [->|Hne].
  - rewrite !fmap_cons. cbn [fst]. rewrite decide_True by left. done.
  - rewrite !fmap_cons, IH. cbn [fst].
    destruct (decide (k ∈ d.*1)) as [Hin|Hnin].
    + by rewrite decide_True by (by right).
    + rewrite decide_False; [done|]. rewrite elem_of_cons. naive_solver.
Qed.

Lemma setdefault_append_elem {K V} `{EqDecision K} (k : K) (v : V) d k' v' :
  NoDup d.*1 →
  (k', v') ∈ setdefault_append k v d ↔
    (k' ≠ k ∧ (k', v') ∈ d)
    ∨ (k' = k ∧ ∃ vs, v' = vs ++ [v] ∧ ((k, vs) ∈ d ∨ (vs = [] ∧ k ∉ d.*1))).
Proof.
  induction d as [|[k0 vs0] d IH]; intros Hnd.
  - cbn [setdefault_append]. rewrite list_elem_of_singleton, fmap_nil. split.
    + intros [= -> ->]. right. split; [done|]. exists []. split; [done|].
      right. split; [done|]. apply not_elem_of_nil.
    + intros [[_ Hin]|[-> (vs & -> & [Hin|[-> _]])]];
        [by apply elem_of_nil in Hin..|done].
  - rewrite fmap_cons in *. apply NoDup_cons in Hnd as [Hk0 Hnd].
    cbn [setdefault_append fst] in *.
    assert (∀ a b, (a, b) ∈ d → a ∈ d.*1) as Hkey.
    { intros a b Hab. apply list_elem_of_fmap. by exists (a, b). }
    destruct (decide (k0 = k)) as [->|Hne].
    + rewrite !elem_of_cons. split.
      * intros [E|Hin].
        -- injection E as -> ->. right. split; [done|]. exists vs0.
           split; [done|]. left. by left.
        -- left. split; [|by right]. intros ->. by apply Hk0, (Hkey _ v').
      * intros [[Hne [E|Hin]]|[-> (vs & -> & [[E|Hin]%elem_of_cons|[_ Hn]])]].
        -- by injection E as -> ->.
        -- by right.
        -- injection E as ->. by left.
        -- destruct Hk0. by apply (Hkey _ vs).
        -- destruct Hn. by left.
    + rewrite !elem_of_cons, (IH Hnd). split.
      * intros [E|[[Hne' Hin]|[-> (vs & -> & [Hin|[-> Hnin]])]]].
        -- injection E as -> ->. left. auto.
        -- left. auto.
        -- right. split; [done|]. exists vs. split; [done|]. left. by right.
        -- right. split; [done|]. exists []. split; [done|]. right.
           split; [done|]. apply not_elem_of_cons. auto.
      * intros [[Hne' [E|Hin]]|[-> (vs & -> & [[E|Hin]%elem_of_cons|[-> [_ Hnin]%not_elem_of_cons]])]].
        -- by left.
        -- right. left. done.
        -- by injection E as ->.
        -- right. right. split; [done|]. exists vs. auto.
        -- right. right. split; [done|]. exists []. auto.
Qed.

Lemma upper_cells_of_snoc l c :
  upper_cells_of (l ++ [c])
  = setdefault_append (removelast c) c (upper_cells_of l).
Proof. unfold upper_cells_of. by rewrite foldl_snoc. Qed.

(** What the dictionary [upper_cells] holds after the first loop. *)
Lemma upper_cells_of_spec l :
  NoDup (upper_cells_of l).*1 ∧
  ∀ k v, (k, v) ∈ upper_cells_of l ↔ v ≠ [] ∧ v = siblings k l.
Proof.
  induction l as [|c l [IHnd IH]] using rev_ind.
  - split; [constructor|]. intros k v. cbn. rewrite elem_of_nil.
    split; [done|]. by intros [? ->].
  - rewrite upper_cells_of_snoc.
    set (d := upper_cells_of l) in *. split.
    + rewrite setdefault_append_keys. case_decide as Hin; [done|].
      apply NoDup_app. split; [done|]. split; [|apply NoDup_singleton].
      intros x Hx ->%list_elem_of_singleton. done.
    + intros k v. rewrite (setdefault_append_elem _ _ _ _ _ IHnd), siblings_snoc.
      split.
      * intros [[Hne [Hv ->]%IH]|[-> (vs & -> & [[Hv ->]%IH|[-> Hnin]])]].
        -- rewrite decide_False by done. by rewrite app_nil_r.
        -- rewrite decide_True by done. split; [by destruct (siblings _ l)|done].
        -- rewrite decide_True by done. split; [done|].
           destruct (siblings (removelast c) l) as [|y ys] eqn:Hs; [done|].
           destruct Hnin. apply list_elem_of_fmap.
           exists (removelast c, y :: ys). split; [done|]. apply IH. by rewrite Hs.
      * intros [Hv ->]. destruct (decide (removelast c = k)) as [<-|Hne].
        -- right. split; [done|]. exists (siblings (removelast c) l).
           split; [done|].
           destruct (siblings (removelast c) l) as [|y ys] eqn:Hs.
           ++ right. split; [done|]. intros ([k' v'] & Hk & Hin)%list_elem_of_fmap.
              cbn [fst] in Hk. subst k'. apply IH in Hin as [Hv' Heq].
              rewrite Hs in Heq. done.
           ++ left. apply IH. by rewrite Hs.
        -- left. split; [done|]. rewrite app_nil_r in *. by apply IH.
Qed.

(** The members of the compressed list: a cell of [l] whose group is not
    full, or the parent of a group that is. *)
Lemma rhealpix_compress_elem l x :
  x ∈ rhealpix_compress l ↔
    (x ∈ l ∧ length (siblings (removelast x) l) ≠ 9%nat)
    ∨ length (siblings x l) = 9%nat.
Proof.
  unfold rhealpix_compress. rewrite list_elem_of_In, in_flat_map.
  destruct (upper_cells_of_spec l) as [_ Hd]. split.
  - intros ([k v] & Hin%list_elem_of_In & Hx%list_elem_of_In).
    apply Hd in Hin as [Hv ->]. cbn [fst snd] in Hx. case_decide as Hlen.
    + apply list_elem_of_singleton in Hx as ->. by right.
    + left. apply list_elem_of_filter in Hx as [<- Hx]. done.
  - intros [[Hx Hlen]|Hlen].
    + exists (removelast x, siblings (removelast x) l). split.
      * apply list_elem_of_In, Hd. split; [|done].
        intros Hnil. eapply (filter_nil_not_elem_of _ _ x); [exact Hnil|done|done].
      * cbn [fst snd]. rewrite decide_False by done.
        apply list_elem_of_In, list_elem_of_filter. done.
    + exists (x, siblings x l). split.
      * apply list_elem_of_In, Hd. split; [|done]. intros Hnil.
        rewrite Hnil in Hlen. done.
      * cbn [fst snd]. rewrite decide_True by done. by left.
Qed.

Lemma rhealpix_compress_perm l1 l2 x :
  l1 ≡ₚ l2 → x ∈ rhealpix_compress l1 ↔ x ∈ rhealpix_compress l2.
Proof.
  intros Hp. rewrite !rhealpix_compress_elem. unfold siblings.
  by rewrite !Hp.
Qed.

Lemma removelast_valid t :
  valid_suid t → removelast t = [] ∨ valid_suid (removelast t).
Proof.
  intros (f & ds & -> & Hf & Hds)%valid_suid_inv.
  destruct ds as [|d ds _] using rev_ind; [by left|]. right.
  rewrite fmap_app, app_comm_cons. cbn [fmap list_fmap].
  rewrite removelast_last. apply valid_suid_inv. exists f, ds.
  split; [done|]. split; [done|]. by apply Forall_app in Hds as [? _].
Qed.

Lemma rhealpix_compress_valid l :
  Forall valid_suid l → length (siblings [] l) ≠ 9%nat →
  Forall valid_suid (rhealpix_compress l).
Proof.
  intros Hl Htop. apply Forall_forall. intros x [[Hx _]|Hlen]%rhealpix_compress_elem.
  - by eapply Forall_forall in Hl.
  - destruct (siblings x l) as [|c cs] eqn:Hs; [done|].
    assert (c ∈ siblings x l) as [Hc Hin]%list_elem_of_filter by (rewrite Hs; by left).
    eapply Forall_forall in Hl; [|exact Hin].
    destruct (removelast_valid c Hl) as [Hnil|Hv]; [|by rewrite <-Hc].
    rewrite Hnil in Hc. subst x. by rewrite Hs in Htop.
Qed.

Lemma rhealpix_compress_nonempty l : l ≠ [] → rhealpix_compress l ≠ [].
Proof.
  destruct l as [|c l]; [done|]. intros _ Hnil.
  destruct (decide (length (siblings (removelast c) (c :: l)) = 9%nat)) as [Hlen|Hlen].
  - assert (removelast c ∈ rhealpix_compress (c :: l)) as Hin
      by (apply rhealpix_compress_elem; by right).
    rewrite Hnil in Hin. by apply elem_of_nil in Hin.
  - assert (c ∈ rhealpix_compress (c :: l)) as Hin.
    { apply rhealpix_compress_elem. left. split; [by left|done]. }
    rewrite Hnil in Hin. by apply elem_of_nil in Hin.
Qed.

(** A list without duplicates holds at most six face cells. *)
Lemma siblings_top_NoDup l :
  Forall valid_suid l → NoDup l → length (siblings [] l) ≠ 9%nat.
Proof.
  intros Hl Hnd.
  assert (siblings [] l ⊆ (λ f, [Lbl f]) <$> zero_cells) as Hsub.
  { intros x [Hx Hin]%list_elem_of_filter.
    eapply Forall_forall in Hl; [|exact Hin].
    apply valid_suid_inv in Hl as (f & ds & -> & Hf & _).
    destruct ds as [|d ds _] using rev_ind.
    - apply list_elem_of_fmap. by exists f.
    - rewrite fmap_app, app_comm_cons in Hx. cbn [fmap list_fmap] in Hx.
      by rewrite removelast_last in Hx. }
  assert (NoDup (siblings [] l)) as Hnd' by by apply NoDup_filter.
  pose proof (submseteq_length _ _ (NoDup_submseteq _ _ Hnd' Hsub)) as Hlen.
  rewrite length_fmap in Hlen. cbn in Hlen. lia.
Qed.

(** ** [sorted] *)

Lemma insert_by_sorted {A} (key : A → N) x l :
  StronglySorted (key_le key) l → StronglySorted (key_le key) (insert_by key x l).
Proof.
  induction 1 as [|y l Hl IH Hy]; cbn [insert_by].
  - repeat constructor.
  - destruct (N.leb_spec (key x) (key y)) as [Hle|Hlt].
    + constructor; [by constructor|]. constructor; [done|].
      eapply Forall_impl; [exact Hy|]. intros z Hz. unfold key_le in *. lia.
    + constructor; [done|]. rewrite insert_by_perm. constructor; [|done].
      unfold key_le. lia.
Qed.

Lemma sorted_by_sorted {A} (key : A → N) l :
  StronglySorted (key_le key) (sorted_by key l).
Proof.
  induction l as [|x l IH]; [constructor|]. by apply insert_by_sorted.
Qed.

(** A sorted arrangement of cells with distinct keys is the only one. *)
Lemma sorted_by_unique {A} (key : A → N) l T :
  l ≡ₚ T → StronglySorted (key_le key) T →
  (∀ x y, x ∈ T → y ∈ T → key x = key y → x = y) →
  sorted_by key l = T.
Proof.
  intros Hp HT Hinj.
  apply (StronglySorted_unique_strong (key_le key)); [|apply sorted_by_sorted|done|].
  - intros x y Hx Hy H1 H2. apply Hinj; [|done|unfold key_le in *; lia].
    by rewrite sorted_by_perm, Hp in Hx.
  - by rewrite sorted_by_perm.
Qed.

(** ** The canonical sequence *)

Lemma has_ancestor_ext x l1 l2 :
  (∀ y, y ∈ l1 ↔ y ∈ l2) → has_ancestor x l1 ↔ has_ancestor x l2.
Proof.
  intros H. unfold has_ancestor. rewrite !Exists_exists.
  by setoid_rewrite H.
Qed.

Section canonical.
Context `{SO : SetOrder}.

Lemma canonical_elem b s0 :
  NoDup (canonical b s0) ∧
  StronglySorted (key_le suid_key) (canonical b s0) ∧
  ∀ x, x ∈ canonical b s0
       ↔ x ∈ pre_absorb b s0 ∧ ¬ has_ancestor x (pre_absorb b s0).
Proof.
  unfold canonical. fold (pre_absorb b s0).
  destruct (deduplicate_spec (pre_absorb b s0)) as [Hnd Hd].
  destruct (absorb_spec _ Hnd) as [Hnd' Ha].
  split; [by rewrite sorted_by_perm|]. split; [apply sorted_by_sorted|].
  intros x. rewrite sorted_by_perm, Ha, Hd.
  by rewrite (has_ancestor_ext x _ _ Hd).
Qed.

Lemma canonical_valid b s0 :
  Forall valid_suid s0 → (b = true → length (siblings [] s0) ≠ 9%nat) →
  Forall valid_suid (canonical b s0).
Proof.
  intros Hv Htop. apply Forall_forall. intros x [Hx _]%canonical_elem.
  assert (Forall valid_suid (pre_absorb b s0)) as Hpre.
  { destruct b; [|done]. apply rhealpix_compress_valid; auto. }
  by eapply Forall_forall in Hpre.
Qed.

Lemma canonical_nonempty b s0 : s0 ≠ [] → canonical b s0 ≠ [].
Proof.
  intros Hne.
  assert (pre_absorb b s0 ≠ []) as Hpre.
  { destruct b; [|done]. by apply rhealpix_compress_nonempty. }
  destruct (pre_absorb b s0) as [|x pre] eqn:Hs; [done|].
  assert (x ∈ pre_absorb b s0) as Hx by (rewrite Hs; by left).
  intros Hnil.
  destruct (decide (has_ancestor x (pre_absorb b s0))) as [Ha|Ha].
  - apply has_ancestor_root in Ha as (i & _ & Hin & Hroot).
    assert (take (S i) x ∈ canonical b s0) as Hc by by apply canonical_elem.
    rewrite Hnil in Hc. by apply elem_of_nil in Hc.
  - assert (x ∈ canonical b s0) as Hc by by apply canonical_elem.
    rewrite Hnil in Hc. by apply elem_of_nil in Hc.
Qed.

(** The canonical sequence is determined as soon as the keys of its
    members are distinct. *)
Lemma canonical_unique b s0 T :
  NoDup T →
  (∀ x, x ∈ T ↔ x ∈ pre_absorb b s0 ∧ ¬ has_ancestor x (pre_absorb b s0)) →
  StronglySorted (key_le suid_key) T →
  (∀ x y, x ∈ T → y ∈ T → suid_key x = suid_key y → x = y) →
  canonical b s0 = T.
Proof.
  intros Hnd Hmem Hsort Hinj.
  destruct (canonical_elem b s0) as (Hnd' & Hsort' & Hmem').
  apply (StronglySorted_unique_strong (key_le suid_key)); [|done|done|].
  - intros x y Hx Hy H1 H2. apply Hinj; [|done|unfold key_le in *; lia].
    apply Hmem. by apply Hmem'.
  - apply NoDup_Permutation; [done|done|]. intros x. by rewrite Hmem, Hmem'.
Qed.
End canonical.

(** ** Keys *)

Lemma int_digits_val acc ds :
  Forall (λ n, n < 9)%nat ds →
  int_digits acc (digits_str ds) = Ok (digits_val acc ds).
Proof.
  intros H. revert acc. induction H as [|n ds Hn _ IH]; intros acc; [done|].
  cbn [digits_str int_digits]. rewrite int_of_digit_char, rbind_Ok by done.
  apply IH.
Qed.

Lemma suid_key_valid f ds :
  f ∈ zero_cells → Forall (λ n, n < 9)%nat ds →
  ∃ i, zero_cells !! i = Some f ∧
       suid_key (Lbl f :: (Dig <$> ds)) = digits_val (N.of_nat i) ds.
Proof.
  intros Hf Hds. destruct (num_of_suid_valid f ds Hf Hds) as (i & Hz & Hi & H).
  exists i. split; [done|]. unfold suid_key, int_key, num_str. rewrite H.
  unfold py_int. cbn [int_digits]. rewrite int_of_digit_char, rbind_Ok by done.
  by rewrite int_digits_val.
Qed.

Lemma valid_suid_snoc t k :
  valid_suid t → (k < 9)%nat → valid_suid (t ++ [Dig k]).
Proof.
  intros (f & ds & -> & Hf & Hds)%valid_suid_inv Hk.
  apply valid_suid_inv. exists f, (ds ++ [k]).
  rewrite fmap_app. split; [done|]. split; [done|].
  apply Forall_app. split; [done|]. by constructor.
Qed.

Lemma suid_key_snoc t k :
  valid_suid t → (k < 9)%nat →
  suid_key (t ++ [Dig k]) = (suid_key t * 10 + N.of_nat k)%N.
Proof.
  intros (f & ds & -> & Hf & Hds)%valid_suid_inv Hk.
  destruct (suid_key_valid f ds Hf Hds) as (i & Hi & ->).
  destruct (suid_key_valid f (ds ++ [k]) Hf) as (j & Hj & Hkey).
  { apply Forall_app. split; [done|]. by constructor. }
  rewrite fmap_app in Hkey. cbn [fmap list_fmap] in Hkey.
  rewrite <-app_comm_cons, Hkey.
  assert (i = j) as <-.
  { eapply NoDup_lookup; [|exact Hi|exact Hj]. by compute_done. }
  unfold digits_val. by rewrite foldl_snoc.
Qed.

(** ** When keys are distinct *)

Lemma digits_val_snoc a ds d :
  digits_val a (ds ++ [d]) = (digits_val a ds * 10 + N.of_nat d)%N.
Proof. unfold digits_val. by rewrite foldl_snoc. Qed.

Lemma digits_val_pos a ds : (1 ≤ a)%N → (1 ≤ digits_val a ds)%N.
Proof.
  intros Ha. induction ds as [|d ds IH] using rev_ind; [done|].
  rewrite digits_val_snoc. lia.
Qed.

Lemma digits_val_inj a a' ds ds' :
  (1 ≤ a ≤ 9)%N → (1 ≤ a' ≤ 9)%N →
  Forall (λ n, n < 9)%nat ds → Forall (λ n, n < 9)%nat ds' →
  digits_val a ds = digits_val a' ds' → a = a' ∧ ds = ds'.
Proof.
  intros Ha Ha' Hds. revert ds'.
  induction ds as [|d ds IH] using rev_ind; intros ds' Hds' Heq.
  - destruct ds' as [|d' ds' _] using rev_ind; [by split|].
    rewrite digits_val_snoc in Heq. cbn in Heq.
    pose proof (digits_val_pos a' ds'). lia.
  - apply Forall_app in Hds as [Hds Hd]. rewrite Forall_singleton in Hd.
    destruct ds' as [|d' ds' _] using rev_ind.
    + rewrite digits_val_snoc in Heq. cbn in Heq.
      pose proof (digits_val_pos a ds). lia.
    + apply Forall_app in Hds' as [Hds' Hd']. rewrite Forall_singleton in Hd'.
      rewrite !digits_val_snoc in Heq.
      destruct (IH Hds ds' Hds') as [-> ->]; [lia|].
      split; [done|]. f_equal. f_equal. lia.
Qed.

(** Off the face [N], whose index is 0, no two valid suids are sorted by the
    same integer. *)
Lemma suid_key_inj x y :
  valid_suid x → valid_suid y →
  head x ≠ Some (Lbl "N") → head y ≠ Some (Lbl "N") →
  suid_key x = suid_key y → x = y.
Proof.
  intros (f & ds & -> & Hf & Hds)%valid_suid_inv
         (f' & ds' & -> & Hf' & Hds')%valid_suid_inv Hn Hn' Heq.
  destruct (suid_key_valid f ds Hf Hds) as (i & Hi & Hk).
  destruct (suid_key_valid f' ds' Hf' Hds') as (i' & Hi' & Hk').
  rewrite Hk, Hk' in Heq.
  assert (1 ≤ i ≤ 5 ∧ 1 ≤ i' ≤ 5)%nat as [Hr Hr'].
  { pose proof (lookup_lt_Some _ _ _ Hi) as Hlt.
    pose proof (lookup_lt_Some _ _ _ Hi') as Hlt'. cbn in Hlt, Hlt'.
    split; (split; [|lia]).
    - destruct i; [|lia]. cbn in Hi. by injection Hi as <-.
    - destruct i'; [|lia]. cbn in Hi'. by injection Hi' as <-. }
  apply digits_val_inj in Heq as [Hii ->]; [|lia|lia|done|done].
  apply Nat2N.inj in Hii as ->. rewrite Hi in Hi'. by injection Hi' as ->.
Qed.

(** A collection of valid suids none of which lies on the face [N] has
    distinct keys. *)
Lemma distinct_keys_off_N L :
  Forall valid_suid L →
  (∀ x, x ∈ L → head x ≠ Some (Lbl "N")) →
  distinct_keys (collection_of L).
Proof.
  intros Hv Hn cs c c' [= <-] (x & -> & Hx)%list_elem_of_fmap
    (y & -> & Hy)%list_elem_of_fmap Hk.
  f_equal. cbn [cell_suids] in Hk.
  apply suid_key_inj; [by eapply Forall_forall in Hv..|by apply Hn|by apply Hn|done].
Qed.


Lemma repr_suid_snoc t k :
  valid_suid t → (k < 9)%nat →
  repr_suid (t ++ [Dig k]) = Cell_repr (mkCell t) +:+ str_digits [k].
Proof.
  intros (f & ds & -> & Hf & Hds)%valid_suid_inv Hk.
  unfold repr_suid. rewrite <-app_comm_cons.
  change [Dig k] with (Dig <$> [k]). rewrite <-fmap_app.
  assert (Forall (λ n, n < 9)%nat [k]) as Hk1 by (constructor; [done|constructor]).
  assert (Forall (λ n, n < 9)%nat (ds ++ [k])) as Hk2 by by apply Forall_app.
  rewrite !Cell_repr_valid, str_digits_eq by done.
  change (String f ?a +:+ ?b) with (String f (a +:+ b)). f_equal.
  clear. induction ds as [|d ds IH]; [done|].
  cbn [app digits_str]. rewrite IH. done.
Qed.

(** ** The constructor, continued *)

Lemma fmap_cell_suids (ts : list suid) : cell_suids <$> (mkCell <$> ts) = ts.
Proof. rewrite <-list_fmap_compose. apply list_fmap_id. Qed.

Lemma Forall_valid_cell (ts : list suid) :
  Forall valid_cell (mkCell <$> ts) ↔ Forall valid_suid ts.
Proof. by rewrite Forall_fmap. Qed.

Lemma child_suids_elem t x :
  x ∈ child_suids t ↔ ∃ k, (k < 9)%nat ∧ x = t ++ [Dig k].
Proof.
  unfold child_suids. rewrite list_elem_of_fmap. split.
  - intros (k & -> & Hk%elem_of_seq). exists k. split; [lia|done].
  - intros (k & Hk & ->). exists k. split; [done|]. apply elem_of_seq. lia.
Qed.

Lemma child_suids_valid t : valid_suid t → Forall valid_suid (child_suids t).
Proof.
  intros Hv. apply Forall_forall. intros x (k & Hk & ->)%child_suids_elem.
  by apply valid_suid_snoc.
Qed.

Lemma child_suids_NoDup t : NoDup (child_suids t).
Proof.
  unfold child_suids. apply NoDup_fmap_2_strong; [|apply NoDup_seq].
  intros k1 k2 _ _ H. apply app_inv_head in H. by injection H.
Qed.

Lemma child_suids_no_ancestor t x :
  x ∈ child_suids t → ¬ has_ancestor x (child_suids t).
Proof.
  intros (k & Hk & ->)%child_suids_elem (i & Hi & Hin)%has_ancestor_alt.
  apply child_suids_elem in Hin as (k' & _ & Heq).
  apply (f_equal length) in Heq. rewrite length_take, !length_app in Heq.
  rewrite length_app in Hi. cbn [length] in *. lia.
Qed.

Lemma child_suids_sorted t :
  valid_suid t → StronglySorted (key_le suid_key) (child_suids t).
Proof.
  intros Hv. unfold child_suids. cbn [seq fmap list_fmap].
  repeat (constructor; [|repeat (constructor; [unfold key_le;
    rewrite !suid_key_snoc by (done || lia); lia|]); constructor]).
  constructor.
Qed.

Lemma child_suids_key_inj t x y :
  valid_suid t → x ∈ child_suids t → y ∈ child_suids t →
  suid_key x = suid_key y → x = y.
Proof.
  intros Hv (k & Hk & ->)%child_suids_elem (k' & Hk' & ->)%child_suids_elem.
  rewrite !suid_key_snoc by done. intros H. do 3 f_equal. lia.
Qed.

Lemma setdefault_append_head {K V} `{EqDecision K} (k : K) (v : V) vs d :
  setdefault_append k v ((k, vs) :: d) = (k, vs ++ [v]) :: d.
Proof. cbn [setdefault_append]. by rewrite decide_True. Qed.

Lemma rhealpix_compress_children t :
  rhealpix_compress (child_suids t) = [t].
Proof.
  unfold rhealpix_compress, upper_cells_of, child_suids.
  cbn [seq fmap list_fmap foldl]. rewrite !removelast_last.
  change (setdefault_append t (t ++ [Dig 0]) [])
    with [(t, [t ++ [Dig 0]])].
  rewrite !setdefault_append_head.
  cbn [flat_map app fst snd length]. by rewrite decide_True by done.
Qed.

Lemma no_ancestor_self t : ¬ has_ancestor t [t].
Proof.
  intros (i & Hi & Hin%list_elem_of_singleton)%has_ancestor_alt.
  apply (f_equal length) in Hin. rewrite length_take in Hin. lia.
Qed.

Section constructor.
Context `{SO : SetOrder}.

Lemma CellCollection_init_valid cs b :
  cs ≠ [] → Forall valid_cell cs →
  (b = true → length (siblings [] (cell_suids <$> cs)) ≠ 9%nat) →
  CellCollection_init (ArgCells cs) None None b
  = Ok (collection_of (canonical b (cell_suids <$> cs))).
Proof.
  intros Hne Hv Htop. apply CellCollection_init_cells; [done| |].
  - apply canonical_valid; [|done]. by apply Forall_fmap.
  - apply canonical_nonempty. by destruct cs.
Qed.

Lemma CellCollection_init_strs ts b :
  ts ≠ [] → Forall valid_suid ts →
  CellCollection_init (ArgStrs (repr_suid <$> ts)) None None b
  = CellCollection_init (ArgCells (mkCell <$> ts)) None None b.
Proof.
  intros Hne Hv. unfold CellCollection_init.
  assert (rmap Cell_of_str (repr_suid <$> ts) = Ok (mkCell <$> ts)) as Hr.
  { rewrite rmap_fmap. apply rmap_ok. eapply Forall_impl; [done|].
    intros t Ht. by apply Cell_of_str_repr. }
  destruct ts as [|t ts]; [done|].
  rewrite !fmap_cons in *. cbn [arg_false standardise_input].
  by rewrite Hr.
Qed.

Lemma canonical_children t :
  valid_suid t → canonical false (child_suids t) = child_suids t.
Proof.
  intros Hv. apply canonical_unique.
  - apply child_suids_NoDup.
  - intros x. cbn [pre_absorb]. split; [|tauto].
    intros Hx. split; [done|]. by apply child_suids_no_ancestor.
  - by apply child_suids_sorted.
  - intros x y. by apply child_suids_key_inj.
Qed.

Lemma canonical_compress_children t :
  valid_suid t → canonical true (child_suids t) = [t].
Proof.
  intros Hv. apply canonical_unique.
  - apply NoDup_singleton.
  - intros x. cbn [pre_absorb]. rewrite rhealpix_compress_children.
    split.
    + intros Hx. split; [done|]. apply list_elem_of_singleton in Hx as ->.
      apply no_ancestor_self.
    + tauto.
  - repeat constructor.
  - by intros x y ->%list_elem_of_singleton ->%list_elem_of_singleton.
Qed.

(** [children()] of a valid cell: its nine children, in order. *)
Lemma Cell_children_default c :
  valid_cell c →
  Cell_children c None
  = Ok (OpColl (collection_of (child_suids (cell_suids c)))).
Proof.
  destruct c as [t]. unfold valid_cell. cbn [cell_suids]. intros Hv.
  unfold Cell_children. cbn [Z.eqb Z.ltb Z.compare].
  change (Z.to_nat 1) with 1%nat. change (N_sides ^ 2)%nat with 9%nat.
  cbn [product_repeat flat_map seq fmap list_fmap app].
  assert (∀ k, (k < 9)%nat →
            Cell_repr (mkCell t) +:+ str_digits [k] = repr_suid (t ++ [Dig k])) as Hs.
  { intros k Hk. by rewrite repr_suid_snoc. }
  rewrite !Hs by lia.
  change ([repr_suid (t ++ [Dig 0]); _; _; _; _; _; _; _; _])
    with (repr_suid <$> child_suids t).
  rewrite CellCollection_init_strs; [|done|by apply child_suids_valid].
  rewrite CellCollection_init_valid; [| |by apply Forall_valid_cell, child_suids_valid|done].
  2:{ done. }
  by rewrite fmap_cell_suids, canonical_children.
Qed.
End constructor.

(** ** Children and compression *)

(** C2: [children()] of a valid cell lists exactly its nine immediate
    children, and a collection built with compression from these nine suids
    is the single parent cell. *)
Theorem children_recombine `{SO : SetOrder} (c : Cell) :
  valid_cell c →
  ∃ ch p,
    Cell_children c None = Ok (OpColl ch)
    ∧ suids ch = (λ k, Cell_repr c +:+ pretty k) <$> seq 0 9
    ∧ cells ch = Some ((λ k, mkCell (cell_suids c ++ [Dig k])) <$> seq 0 9)
    ∧ CellCollection_init (ArgStrs (suids ch)) None None true = Ok p
    ∧ CellCollection_repr p = Cell_repr c
    ∧ suids p = [Cell_repr c]
    ∧ cells p = Some [c].
Proof.
  intros Hv. destruct c as [t]. unfold valid_cell in Hv. cbn [cell_suids] in *.
  exists (collection_of (child_suids t)), (collection_of [t]).
  split; [by apply Cell_children_default|].
  split.
  { cbn [collection_of suids]. unfold child_suids. rewrite <-list_fmap_compose.
    apply Forall_fmap_ext_1, Forall_forall. intros k Hk%elem_of_seq.
    cbn [compose]. rewrite repr_suid_snoc by (done || lia).
    unfold str_digits, join. cbn [fmap list_fmap foldr].
    by rewrite (pretty_digit k) by lia. }
  split.
  { cbn [collection_of cells]. unfold child_suids. by rewrite <-list_fmap_compose. }
  split.
  { cbn [collection_of suids].
    rewrite CellCollection_init_strs; [|done|by apply child_suids_valid].
    rewrite CellCollection_init_valid.
    - by rewrite fmap_cell_suids, canonical_compress_children.
    - done.
    - by apply Forall_valid_cell, child_suids_valid.
    - intros _. rewrite fmap_cell_suids. apply siblings_top_NoDup.
      + by apply child_suids_valid.
      + apply child_suids_NoDup. }
  cbn [collection_of suids cells fmap list_fmap]. unfold CellCollection_repr.
  cbn [suids fmap list_fmap String.concat]. done.
Qed.

Lemma children_recombine_witness :
  ∃ ch p,
    @Cell_children first_seen (mkCell [Lbl "P"]) None = Ok (OpColl ch)
    ∧ suids ch = ["P0"; "P1"; "P2"; "P3"; "P4"; "P5"; "P6"; "P7"; "P8"]
    ∧ cells ch = Some ((λ k, mkCell ([Lbl "P"] ++ [Dig k])) <$> seq 0 9)
    ∧ @CellCollection_init first_seen (ArgStrs (suids ch)) None None true = Ok p
    ∧ CellCollection_repr p = "P"
    ∧ suids p = ["P"]
    ∧ cells p = Some [mkCell [Lbl "P"]].
Proof.
  apply (@children_recombine first_seen (mkCell [Lbl "P"])). reflexivity.
Defined.

(** ** Difference *)

Lemma rfold_inv {A S} (f : S → A → result S) (I : S → Prop) l s :
  I s →
  (∀ s x, x ∈ l → I s → ∃ s', f s x = Ok s' ∧ I s') →
  ∃ s', rfold f l s = Ok s' ∧ I s'.
Proof.
  revert s. induction l as [|x l IH]; intros s Hs Hf; [by exists s|].
  cbn [rfold]. destruct (Hf s x) as (s1 & -> & Hs1); [by left|done|].
  rewrite rbind_Ok. apply IH; [done|].
  intros s2 y Hy. apply Hf. by right.
Qed.

Lemma rfold_ext {A S} (f g : S → A → result S) l s :
  (∀ s x, x ∈ l → f s x = g s x) → rfold f l s = rfold g l s.
Proof.
  revert s. induction l as [|x l IH]; intros s Hfg; [done|].
  cbn [rfold]. rewrite Hfg by by left. destruct (g s x); [|done].
  rewrite !rbind_Ok. apply IH. intros s2 y Hy. apply Hfg. by right.
Qed.

Lemma progressively_intersect_unfold `{SO : SetOrder} fuel ones twos st :
  progressively_intersect (S fuel) (Some ones) (Some twos) st
  = rfold (λ st cell_one,
      rfold (λ st cell_two,
        if Cell_overlaps cell_one cell_two then
          if (resolution cell_one >=? resolution cell_two)%Z then
            Ok (mkAccum (cells_to_retain st)
                        (cells_to_remove st ++ [cell_suids cell_one]))
          else
            ch ← Cell_children cell_one None;
            children ← operand_cells ch;
            progressively_intersect fuel children (Some [cell_two]) st
        else
          Ok (mkAccum (cells_to_retain st ++ [cell_suids cell_one])
                      (cells_to_remove st)))
        twos st)
      ones st.
Proof. done. Qed.

(** With enough fuel for the levels between the two operands the recursion
    returns, and what it returns holds valid suids only. *)
Lemma progressively_intersect_total `{SO : SetOrder} fuel ones twos st :
  Forall valid_cell ones → Forall valid_cell twos →
  (∀ one two, one ∈ ones → two ∈ twos →
     (length (cell_suids two) ≤ length (cell_suids one) + fuel)%nat) →
  accum_valid st →
  ∃ st', progressively_intersect (S fuel) (Some ones) (Some twos) st = Ok st'
         ∧ accum_valid st'.
Proof.
  revert ones twos st. induction fuel as [|fuel IH];
    intros ones twos st Hones Htwos Hlen Hst;
    rewrite progressively_intersect_unfold.
  - apply rfold_inv; [done|]. intros st1 one Hone Hst1.
    apply rfold_inv; [done|]. intros st2 two Htwo [Hr Hm].
    eapply Forall_forall in Hones; [|exact Hone].
    destruct (Cell_overlaps one two).
    + destruct (Z.geb_spec (resolution one) (resolution two)) as [Hge|Hlt].
      * eexists. split; [done|]. split; [done|]. apply Forall_app. split; [done|].
        by constructor.
      * specialize (Hlen one two Hone Htwo). unfold resolution in Hlt. lia.
    + eexists. split; [done|]. split; [|done]. apply Forall_app. split; [done|].
      by constructor.
  - apply rfold_inv; [done|]. intros st1 one Hone Hst1.
    apply rfold_inv; [done|]. intros st2 two Htwo [Hr Hm].
    pose proof Hones as Hv. eapply Forall_forall in Hv; [|exact Hone].
    pose proof Htwos as Hv2. eapply Forall_forall in Hv2; [|exact Htwo].
    destruct (Cell_overlaps one two).
    + destruct (Z.geb_spec (resolution one) (resolution two)) as [Hge|Hlt].
      * eexists. split; [done|]. split; [done|]. apply Forall_app. split; [done|].
        by constructor.
      * rewrite Cell_children_default, rbind_Ok by done.
        cbn [operand_cells collection_of cells]. rewrite rbind_Ok.
        apply IH.
        -- apply Forall_valid_cell. by apply child_suids_valid.
        -- by constructor.
        -- intros ch two' (x & -> & (k & Hk & ->)%child_suids_elem)%list_elem_of_fmap
             ->%list_elem_of_singleton.
           specialize (Hlen one two Hone Htwo). cbn [cell_suids].
           rewrite length_app. cbn [length]. lia.
        -- done.
    + eexists. split; [done|]. split; [|done]. apply Forall_app. split; [done|].
      by constructor.
Qed.

(** The recursion does not depend on the order in which sets are iterated. *)
Lemma progressively_intersect_order (SO1 SO2 : SetOrder) fuel ones twos st :
  Forall valid_cell ones →
  @progressively_intersect SO1 fuel (Some ones) (Some twos) st
  = @progressively_intersect SO2 fuel (Some ones) (Some twos) st.
Proof.
  revert ones twos st. induction fuel as [|fuel IH]; intros ones twos st Hones; [done|].
  rewrite !progressively_intersect_unfold.
  apply rfold_ext. intros st1 one Hone. apply rfold_ext. intros st2 two Htwo.
  eapply Forall_forall in Hones; [|exact Hone].
  destruct (Cell_overlaps one two); [|done].
  destruct (resolution one >=? resolution two)%Z; [done|].
  rewrite !Cell_children_default, !rbind_Ok by done.
  cbn [operand_cells collection_of cells]. rewrite !rbind_Ok.
  apply IH. apply Forall_valid_cell. by apply child_suids_valid.
Qed.

Lemma depth_bound_le T ct two :
  cells T = Some ct → two ∈ ct →
  (S (length (cell_suids two)) ≤ depth_bound T)%nat.
Proof.
  intros HT Hin. unfold depth_bound. rewrite HT.
  change (default [] (Some ct)) with ct. clear HT.
  apply le_n_S. induction Hin as [c l|c c' l Hin IH]; cbn [foldr]; lia.
Qed.

Lemma CellCollection_init_built `{SO : SetOrder} b U :
  Forall valid_suid U → NoDup U →
  CellCollection_init (ArgCells (mkCell <$> U)) None None b = Ok (built b U).
Proof.
  intros Hv Hnd. destruct U as [|t U]; [done|].
  rewrite CellCollection_init_valid.
  - by rewrite fmap_cell_suids.
  - done.
  - by apply Forall_valid_cell.
  - intros _. rewrite fmap_cell_suids. by apply siblings_top_NoDup.
Qed.

Lemma pre_absorb_perm b l1 l2 x :
  l1 ≡ₚ l2 → x ∈ pre_absorb b l1 ↔ x ∈ pre_absorb b l2.
Proof.
  intros Hp. destruct b; cbn [pre_absorb].
  - by apply rhealpix_compress_perm.
  - by rewrite Hp.
Qed.

(** Two iteration orders give the same canonical members. *)
Lemma canonical_perm (SO1 SO2 : SetOrder) b l1 l2 :
  l1 ≡ₚ l2 → @canonical SO1 b l1 ≡ₚ @canonical SO2 b l2.
Proof.
  intros Hp.
  destruct (@canonical_elem SO1 b l1) as (Hnd1 & _ & Hm1).
  destruct (@canonical_elem SO2 b l2) as (Hnd2 & _ & Hm2).
  apply NoDup_Permutation; [done|done|]. intros x. rewrite Hm1, Hm2.
  rewrite (pre_absorb_perm b l1 l2 x Hp).
  by rewrite (has_ancestor_ext x _ _ (λ y, pre_absorb_perm b l1 l2 y Hp)).
Qed.

(** They give the same sequence when no two members share a key. *)
Lemma canonical_order_eq (SO1 SO2 : SetOrder) b l1 l2 :
  l1 ≡ₚ l2 →
  (∀ x y, x ∈ @canonical SO1 b l1 → y ∈ @canonical SO1 b l1 →
          suid_key x = suid_key y → x = y) →
  @canonical SO1 b l1 = @canonical SO2 b l2.
Proof.
  intros Hp Hinj.
  destruct (@canonical_elem SO1 b l1) as (_ & Hs1 & _).
  destruct (@canonical_elem SO2 b l2) as (_ & Hs2 & _).
  pose proof (canonical_perm SO1 SO2 b l1 l2 Hp) as Hperm.
  apply (StronglySorted_unique_strong (key_le suid_key)); [|done..].
  intros x y Hx Hy H1 H2. apply Hinj; [done| |unfold key_le in *; lia].
  by rewrite Hperm.
Qed.

Lemma built_perm (SO1 SO2 : SetOrder) b U1 U2 :
  U1 ≡ₚ U2 → suids (@built SO1 b U1) ≡ₚ suids (@built SO2 b U2).
Proof.
  intros Hp. destruct U1 as [|t1 U1], U2 as [|t2 U2].
  - done.
  - by apply Permutation_nil_cons in Hp.
  - symmetry in Hp. by apply Permutation_nil_cons in Hp.
  - cbn [built collection_of suids]. apply fmap_Permutation.
    by apply canonical_perm.
Qed.

Lemma built_order_eq (SO1 SO2 : SetOrder) b U1 U2 cs1 :
  U1 ≡ₚ U2 →
  cells (@built SO1 b U1) = Some cs1 →
  (∀ c c', c ∈ cs1 → c' ∈ cs1 →
           suid_key (cell_suids c) = suid_key (cell_suids c') → c = c') →
  @built SO1 b U1 = @built SO2 b U2.
Proof.
  intros Hp Hcs Hinj. destruct U1 as [|t1 U1], U2 as [|t2 U2].
  - done.
  - by apply Permutation_nil_cons in Hp.
  - symmetry in Hp. by apply Permutation_nil_cons in Hp.
  - cbn [built collection_of cells] in *. injection Hcs as <-.
    rewrite (canonical_order_eq SO1 SO2 b _ _ Hp); [done|].
    intros x y Hx Hy Hk.
    assert (mkCell x = mkCell y) as [= ->]; [|done].
    apply Hinj; [by apply list_elem_of_fmap_2..|done].
Qed.

Section difference.
Context `{SO : SetOrder}.

Lemma CellCollection_sub_eq S T cs ct b :
  cells S = Some cs → cells T = Some ct →
  Forall valid_cell cs → Forall valid_cell ct →
  ∃ st,
    (∀ SO' : SetOrder,
       @progressively_intersect SO' (depth_bound T) (Some cs) (Some ct)
         (mkAccum [] []) = Ok st)
    ∧ accum_valid st
    ∧ CellCollection_sub S (OpColl T) b = Ok (built b (kept st)).
Proof.
  intros HS HT Hcs Hct.
  assert (∃ fuel, depth_bound T = Datatypes.S fuel ∧
            ∀ two, two ∈ ct → (length (cell_suids two) ≤ fuel)%nat)
    as (fuel & Hfuel & Hle).
  { unfold depth_bound. eexists. split; [done|]. intros two Hin.
    pose proof (depth_bound_le T ct two HT Hin) as H.
    unfold depth_bound in H. lia. }
  destruct (progressively_intersect_total fuel cs ct (mkAccum [] []))
    as (st & Hst & Hvalid); [done|done| | |].
  { intros one two _ Hin. specialize (Hle two Hin). lia. }
  { split; constructor. }
  exists st. split; [|split; [done|]].
  - intros SO'. rewrite Hfuel.
    by rewrite (progressively_intersect_order SO' SO).
  - unfold CellCollection_sub. cbn [validate_other]. rewrite rbind_Ok.
    rewrite HS, HT, Hfuel, Hst, rbind_Ok. fold (kept st).
    assert (Forall valid_suid (kept st)) as Hk.
    { apply Forall_forall. intros x [Hx _]%set_to_list_elem%list_elem_of_difference.
      destruct Hvalid as [Hr _]. by eapply Forall_forall in Hr. }
    rewrite (rmap_ok _ mkCell), rbind_Ok.
    2:{ eapply Forall_impl; [exact Hk|]. intros t Ht. by apply Cell_of_tuple_valid. }
    apply CellCollection_init_built; [done|]. apply set_to_list_NoDup.
Qed.
End difference.

Lemma kept_perm (SO1 SO2 : SetOrder) st : @kept SO1 st ≡ₚ @kept SO2 st.
Proof. unfold kept. by rewrite !set_to_list_perm. Qed.

(** Whatever the iteration orders of the sets used inside two evaluations
    of a difference of collections of valid cells, both evaluations return,
    their results hold the same suids up to order, and they are the same
    collection when no two cells of the result share a sort key. *)
Theorem difference_up_to_order (SO1 SO2 : SetOrder) (S T : CellCollection)
    (cs ct : list Cell) (b : bool) :
  cells S = Some cs → cells T = Some ct →
  Forall valid_cell cs → Forall valid_cell ct →
  ∃ R1 R2,
    @CellCollection_sub SO1 S (OpColl T) b = Ok R1
    ∧ @CellCollection_sub SO2 S (OpColl T) b = Ok R2
    ∧ suids R1 ≡ₚ suids R2
    ∧ (distinct_keys R1 → R1 = R2).
Proof.
  intros HS HT Hcs Hct.
  destruct (@CellCollection_sub_eq SO1 S T cs ct b) as (st1 & Hst1 & _ & H1); [done..|].
  destruct (@CellCollection_sub_eq SO2 S T cs ct b) as (st2 & Hst2 & _ & H2); [done..|].
  assert (st1 = st2) as <-.
  { specialize (Hst1 SO1). specialize (Hst2 SO1). congruence. }
  eexists _, _. split; [exact H1|]. split; [exact H2|]. split.
  - apply built_perm, kept_perm.
  - intros Hk.
    destruct (cells (@built SO1 b (@kept SO1 st1))) as [cs1|] eqn:Hcells.
    + eapply built_order_eq; [apply kept_perm|exact Hcells|].
      intros c c'. by apply Hk.
    + destruct (@kept SO1 st1); discriminate Hcells.
Qed.

Lemma difference_up_to_order_witness :
  ∃ R1 R2,
    @CellCollection_sub hash_rising (collection_of [[Lbl "P"]])
       (OpColl (collection_of [[Lbl "P"; Dig 0; Dig 0]])) true = Ok R1
    ∧ @CellCollection_sub hash_falling (collection_of [[Lbl "P"]])
        (OpColl (collection_of [[Lbl "P"; Dig 0; Dig 0]])) true = Ok R2
    ∧ suids R1 ≡ₚ suids R2
    ∧ R1 = R2.
Proof.
  destruct (difference_up_to_order hash_rising hash_falling
              (collection_of [[Lbl "P"]]) (collection_of [[Lbl "P"; Dig 0; Dig 0]])
              [mkCell [Lbl "P"]] [mkCell [Lbl "P"; Dig 0; Dig 0]] true)
    as (R1 & R2 & H1 & H2 & Hp & He);
    [reflexivity | reflexivity | repeat constructor | repeat constructor |].
  exists R1, R2. split; [exact H1|]. split; [exact H2|]. split; [exact Hp|].
  apply He.
  assert (distinct_keys (collection_of
            (((λ k, [Lbl "P"; Dig k]) <$> seq 1 8)
             ++ ((λ k, [Lbl "P"; Dig 0; Dig k]) <$> seq 1 8)))) as Hd.
  { apply distinct_keys_off_N; [by repeat constructor|].
    intros x Hx. apply elem_of_app in Hx as [(k & -> & _)%list_elem_of_fmap
                                            |(k & -> & _)%list_elem_of_fmap]; done. }
  vm_compute in H1. injection H1 as <-. exact Hd.
Defined.

(** On face [N], whose index is 0, a leading digit 0 does not change the
    integer a suid is sorted by. *)
Lemma suid_key_face_N_zero ds :
  Forall (λ n, n < 9)%nat ds →
  suid_key (Lbl "N" :: Dig 0 :: (Dig <$> ds)) = suid_key (Lbl "N" :: (Dig <$> ds)).
Proof.
  intros Hds.
  assert ("N"%char ∈ zero_cells) as HN by by left.
  destruct (suid_key_valid "N" ds HN Hds) as (i & Hi & ->).
  destruct (suid_key_valid "N" (0%nat :: ds) HN) as (j & Hj & Hk);
    [constructor; [lia|done]|].
  rewrite fmap_cons in Hk. rewrite Hk.
  assert (i = 0%nat ∧ j = 0%nat) as [-> ->].
  { destruct i as [|[|[|[|[|[|?]]]]]], j as [|[|[|[|[|[|?]]]]]]; done. }
  done.
Qed.

(** C10: the result of a difference depends on the order in which the sets
    used inside are iterated.  The ordering step sorts by an integer that
    cells of face [N] share ([N01] and [N1] are both sorted by 1), and the
    stable sort leaves tied cells in the order of the set: the difference
    of the collections of [N] and of [N00] holds the same sixteen cells
    under the two iteration orders, in two different sequences, and the
    two results are not [==]. *)
Theorem difference_order_dependent :
  (∀ ds, Forall (λ n, n < 9)%nat ds →
     suid_key (Lbl "N" :: Dig 0 :: (Dig <$> ds))
     = suid_key (Lbl "N" :: (Dig <$> ds)))
  ∧ ∃ S T R1 R2,
      @CellCollection_init hash_rising (ArgStr "N") None None true = Ok S
      ∧ @CellCollection_init hash_falling (ArgStr "N") None None true = Ok S
      ∧ @CellCollection_init hash_rising (ArgStr "N00") None None true = Ok T
      ∧ @CellCollection_init hash_falling (ArgStr "N00") None None true = Ok T
      ∧ @CellCollection_sub hash_rising S (OpColl T) true = Ok R1
      ∧ @CellCollection_sub hash_falling S (OpColl T) true = Ok R2
      ∧ suids R1 ≡ₚ suids R2
      ∧ CellCollection_eq R1 R2 = false
      ∧ CellCollection_repr R1
        = "N1 N01 N2 N02 N3 N03 N4 N04 N5 N05 N6 N06 N7 N07 N8 N08"
      ∧ CellCollection_repr R2
        = "N01 N1 N02 N2 N03 N3 N04 N4 N05 N5 N06 N6 N07 N7 N08 N8".
Proof.
  split; [apply suid_key_face_N_zero|].
  destruct (difference_up_to_order hash_rising hash_falling
              (collection_of [[Lbl "N"]]) (collection_of [[Lbl "N"; Dig 0; Dig 0]])
              [mkCell [Lbl "N"]] [mkCell [Lbl "N"; Dig 0; Dig 0]] true)
    as (R1 & R2 & H1 & H2 & Hp & _);
    [reflexivity | reflexivity | repeat constructor | repeat constructor |].
  exists (collection_of [[Lbl "N"]]), (collection_of [[Lbl "N"; Dig 0; Dig 0]]), R1, R2.
  split; [by vm_compute|]. split; [by vm_compute|].
  split; [by vm_compute|]. split; [by vm_compute|].
  split; [exact H1|]. split; [exact H2|]. split; [exact Hp|].
  vm_compute in H1. injection H1 as <-. vm_compute in H2. injection H2 as <-.
  split; [by vm_compute|]. split; by vm_compute.
Qed.

(** ** Empty collections *)

(** C8, as amended: an empty sequence of suids or of cells given to the
    constructor yields the empty sentinel, of length 0 and string form
    "Empty CellCollection"; no error is raised, whatever the other
    arguments. *)
Theorem empty_sequence_is_sentinel `{SO : SetOrder}
    (crs kind : option string) (b : bool) :
  CellCollection_init (ArgStrs []) crs kind b = Ok (empty_collection (ArgStrs []))
  ∧ CellCollection_init (ArgCells []) crs kind b = Ok (empty_collection (ArgCells []))
  ∧ (∀ a, CellCollection_len (empty_collection a) = 0%nat
          ∧ CellCollection_repr (empty_collection a) = "Empty CellCollection").
Proof. done. Qed.

(** The constructor on an explicitly given empty list: the sentinel, not a
    value error. *)
Lemma empty_sequence_counterexample :
  ∃ c, @CellCollection_init first_seen (ArgStrs []) None None true = Ok c
       ∧ @CellCollection_init first_seen (ArgStrs []) None None true
         ≠ Raise ValueError
       ∧ CellCollection_repr c = "Empty CellCollection".
Proof. eexists. split; [reflexivity|]. split; [discriminate|reflexivity]. Qed.

(** C1: the difference of the collection built with no argument and
    itself raises a type error, since its [cells] is [None]. *)
Theorem difference_of_default_empty `{SO : SetOrder} :
  ∃ e, CellCollection_init ArgNone None None true = Ok e
       ∧ CellCollection_repr e = "Empty CellCollection"
       ∧ CellCollection_sub e (OpColl e) true = Raise TypeError.
Proof. eexists. split; [reflexivity|]. split; reflexivity. Qed.

(** ** Neighbours of a collection *)

(** A requested resolution of 0 is taken for no resolution at all. *)
Lemma neighbours_zero_is_default `{SO : SetOrder} (self : CellCollection) :
  CellCollection_neighbours self (Some 0%Z) = CellCollection_neighbours self None.
Proof. done. Qed.

(** X3: any other resolution below the maximum is refused. *)
Lemma neighbours_below_max `{SO : SetOrder} (self : CellCollection) (r m : Z) :
  max_resolution self = Some m → r ≠ 0%Z → (r < m)%Z →
  CellCollection_neighbours self (Some r) = Raise ValueError.
Proof.
  intros Hm Hr Hlt. unfold CellCollection_neighbours.
  cbn [CellCollection_neighbours_rec]. rewrite Hm.
  destruct r; [done|..]; by rewrite (proj2 (Z.ltb_lt _ _) Hlt).
Qed.

Lemma neighbours_below_max_witness :
  @CellCollection_neighbours first_seen
    (collection_of [[Lbl "P"; Dig 1; Dig 2]]) (Some 1%Z)
  = Raise ValueError.
Proof.
  apply (@neighbours_below_max first_seen
           (collection_of [[Lbl "P"; Dig 1; Dig 2]]) 1 2);
    [reflexivity|discriminate|lia].
Defined.

(** C7: [neighbours(0)] on the collection of the cell [P1], whose maximum
    resolution is 1, raises nothing: it returns the neighbours at
    resolution 1. *)
Theorem neighbours_resolution_zero :
  ∃ S n,
    @CellCollection_init first_seen (ArgStr "P1") None None true = Ok S
    ∧ max_resolution S = Some 1%Z
    ∧ @CellCollection_neighbours first_seen S (Some 0%Z) = Ok n
    ∧ CellCollection_repr n = "N2 N5 N8 P0 P2 P3 P4 P5".
Proof.
  eexists _, _. split; [by vm_compute|]. split; [done|].
  split; by vm_compute.
Qed.

(** ** Compression is a single pass *)

(** C3: built with compression from the 81 cells two levels below [P], the
    collection is [P0 .. P8]: the nine children of [P], all present and not
    replaced by [P]. *)
Theorem compress_single_pass `{SO : SetOrder} :
  ∃ c,
    CellCollection_init (ArgStrs (repr_suid <$> grandchildren_P)) None None true
    = Ok c
    ∧ suids c = ["P0"; "P1"; "P2"; "P3"; "P4"; "P5"; "P6"; "P7"; "P8"]
    ∧ cells c = Some (mkCell <$> child_suids [Lbl "P"])
    ∧ CellCollection_len c = 9%nat.
Proof.
  exists (collection_of (child_suids [Lbl "P"])).
  split; [|split; [by vm_compute|split; by vm_compute]].
  assert (Forall valid_suid grandchildren_P) as Hv.
  { apply Forall_forall. intros x Hx.
    apply list_elem_of_In, in_flat_map in Hx as (t & Ht%list_elem_of_In & Hx%list_elem_of_In).
    eapply Forall_forall; [|exact Hx]. apply child_suids_valid.
    eapply Forall_forall; [|exact Ht]. by apply child_suids_valid. }
  rewrite CellCollection_init_strs; [|done|done].
  rewrite CellCollection_init_valid; [|done|by apply Forall_valid_cell|].
  2:{ intros _. rewrite fmap_cell_suids. by vm_compute. }
  rewrite fmap_cell_suids. f_equal. f_equal.
  assert (valid_suid [Lbl "P"]) as HP by done.
  apply canonical_unique.
  - apply child_suids_NoDup.
  - intros x. cbn [pre_absorb].
    replace (rhealpix_compress grandchildren_P) with (child_suids [Lbl "P"])
      by by vm_compute.
    split; [|tauto]. intros Hx. split; [done|]. by apply child_suids_no_ancestor.
  - by apply child_suids_sorted.
  - intros x y. by apply child_suids_key_inj.
Qed.

(** The compression runs before the removal of duplicates: a repeated suid
    hides a full group of nine children from it. *)
Lemma compress_before_deduplicate :
  CellCollection_repr <$>
    @CellCollection_init first_seen
      (ArgStrs ["P0"; "P1"; "P2"; "P3"; "P4"; "P5"; "P6"; "P7"; "P8"; "P0"])
      None None true
  = Ok "P0 P1 P2 P3 P4 P5 P6 P7 P8".
Proof. by vm_compute. Qed.

(** ** A cell and its neighbours *)

Lemma rhealpix_compress_short l x :
  (length l < 9)%nat → x ∈ rhealpix_compress l → x ∈ l.
Proof.
  intros Hlen [[Hx _]|H9]%rhealpix_compress_elem; [done|].
  assert (length (siblings x l) ≤ length l)%nat as Hf by apply length_filter.
  exfalso. lia.
Qed.

(** The neighbour of a valid cell in any of the four directions is a cell
    other than the cell itself, and the collection of its four cardinal
    neighbours does not hold the cell. *)
Theorem neighbour_never_self `{SO : SetOrder} (c : Cell) :
  valid_cell c →
  (∀ d, ∃ b, Cell_neighbour c d = Ok b ∧ valid_cell b ∧ b ≠ c)
  ∧ ∃ cc cs,
      Cell_neighbours c false = Ok cc
      ∧ cells cc = Some cs
      ∧ (c ∉ cs)
      ∧ ((resolution c = 0)%Z → Cell_neighbours c true = Ok cc).
Proof.
  intros Hv. split; [intros d; by apply Cell_neighbour_valid|].
  destruct (Cell_neighbour_valid c up Hv) as (u & Hu & Hvu & Hnu).
  destruct (Cell_neighbour_valid c down Hv) as (d & Hd & Hvd & Hnd).
  destruct (Cell_neighbour_valid c left Hv) as (l & Hl & Hvl & Hnl).
  destruct (Cell_neighbour_valid c right Hv) as (r & Hr & Hvr & Hnr).
  assert (Cell_neighbours c false
          = Ok (collection_of (canonical true (cell_suids <$> [u; d; l; r])))) as Hn.
  { unfold Cell_neighbours. cbn [rmap andb]. rewrite Hu, Hd, Hl, Hr, !rbind_Ok.
    cbn [app]. apply CellCollection_init_valid; [done|by repeat constructor|].
    intros _.
    assert (length (siblings [] (cell_suids <$> [u; d; l; r]))
            ≤ length (cell_suids <$> [u; d; l; r]))%nat as Hf by apply length_filter.
    rewrite length_fmap in Hf. cbn [length] in Hf. lia. }
  eexists _, _. split; [exact Hn|]. split; [done|]. split.
  - intros (x & -> & [Hx _]%canonical_elem)%list_elem_of_fmap.
    cbn [pre_absorb] in Hx. apply rhealpix_compress_short in Hx; [|cbn; lia].
    apply list_elem_of_fmap in Hx as (y & Hy & Hin).
    destruct y as [y]. cbn [cell_suids] in Hy. subst y.
    rewrite !elem_of_cons, elem_of_nil in Hin.
    destruct Hin as [<-|[<-|[<-|[<-|[]]]]]; done.
  - intros Hres. rewrite <-Hn. unfold Cell_neighbours. rewrite Hres. done.
Qed.

Lemma neighbour_never_self_witness :
  (∀ d, ∃ b, Cell_neighbour (mkCell [Lbl "P"]) d = Ok b
             ∧ valid_cell b ∧ b ≠ mkCell [Lbl "P"])
  ∧ ∃ cc cs,
      @Cell_neighbours first_seen (mkCell [Lbl "P"]) false = Ok cc
      ∧ cells cc = Some cs
      ∧ (mkCell [Lbl "P"] ∉ cs)
      ∧ @Cell_neighbours first_seen (mkCell [Lbl "P"]) true = Ok cc.
Proof.
  destruct (@neighbour_never_self first_seen (mkCell [Lbl "P"]))
    as [Hd (cc & cs & Hn & Hc & Hni & Hr)]; [reflexivity|].
  split; [exact Hd|]. exists cc, cs.
  split; [exact Hn|]. split; [exact Hc|]. split; [exact Hni|].
  apply Hr. reflexivity.
Defined.

(** The cell [N0] lies at a corner of the cube: its left neighbour is [R0],
    whose upper neighbour is [N0] again, so [neighbours()] holds the cell
    itself. *)
Lemma neighbours_contains_self :
  ∃ cc cs,
    @Cell_neighbours first_seen (mkCell [Lbl "N"; Dig 0]) true = Ok cc
    ∧ (l ← Cell_neighbour (mkCell [Lbl "N"; Dig 0]) left; Cell_neighbour l up)
      = Ok (mkCell [Lbl "N"; Dig 0])
    ∧ cells cc = Some cs
    ∧ mkCell [Lbl "N"; Dig 0] ∈ cs
    ∧ CellCollection_repr cc = "N0 N1 N3 N4 Q1 Q2 R0 R3".
Proof.
  eexists _, _. split; [by vm_compute|]. split; [by vm_compute|].
  split; [done|]. split; [|by vm_compute]. by left.
Qed.

(** ** Union *)

Lemma suid_of_string_repr t : valid_suid t → suid_of_string (repr_suid t) = t.
Proof.
  intros Hv. unfold suid_of_string, repr_suid. by rewrite Cell_of_str_repr.
Qed.

Lemma holds_suids S L : holds S L → suids S = repr_suid <$> L.
Proof. by intros [_ [[-> [a ->]]|[_ ->]]]. Qed.

Lemma holds_matches `{SO : SetOrder} S T LS LT :
  holds S LS → holds T LT → matches S (OpColl T) = Ok tt.
Proof.
  intros [_ [[_ [a ->]]|[_ ->]]] [_ [[_ [a' ->]]|[_ ->]]]; done.
Qed.

Lemma canonical_canonical_form `{SO : SetOrder} b s0 :
  canonical_form (canonical b s0).
Proof.
  destruct (canonical_elem b s0) as (Hnd & Hs & Hm).
  split; [done|]. split; [|done].
  intros x [Hx Ha]%Hm Hanc. apply Ha.
  unfold has_ancestor in *. eapply Exists_impl; [exact Hanc|].
  intros i Hi. by apply Hm in Hi as [Hi _].
Qed.

Section union.
Context `{SO : SetOrder}.

Lemma union_of_spec S T LS LT :
  holds S LS → holds T LT →
  repr_suid <$> union_of S T = set_to_list (suids S ++ suids T)
  ∧ Forall valid_suid (union_of S T)
  ∧ NoDup (union_of S T)
  ∧ ∀ x, x ∈ union_of S T ↔ x ∈ LS ∨ x ∈ LT.
Proof.
  intros HS HT. unfold union_of.
  rewrite (holds_suids S LS HS), (holds_suids T LT HT), <-fmap_app.
  destruct HS as [HvS _], HT as [HvT _].
  assert (Forall valid_suid (LS ++ LT)) as Hv by by apply Forall_app.
  set (strs := set_to_list (repr_suid <$> LS ++ LT)).
  assert (∀ s, s ∈ strs → ∃ t, valid_suid t ∧ t ∈ LS ++ LT ∧ s = repr_suid t) as Hstrs.
  { intros s (t & -> & Ht)%set_to_list_elem%list_elem_of_fmap.
    exists t. split; [|done]. by eapply Forall_forall in Hv. }
  split; [|split; [|split]].
  - rewrite <-list_fmap_compose. rewrite <-(list_fmap_id strs) at 2.
    apply Forall_fmap_ext_1, Forall_forall. intros s (t & Ht & _ & ->)%Hstrs.
    cbn [compose]. by rewrite suid_of_string_repr.
  - apply Forall_fmap, Forall_forall. intros s (t & Ht & _ & ->)%Hstrs.
    cbn [compose]. by rewrite suid_of_string_repr.
  - apply NoDup_fmap_2_strong; [|apply set_to_list_NoDup].
    intros s1 s2 (t1 & Ht1 & _ & ->)%Hstrs (t2 & Ht2 & _ & ->)%Hstrs.
    rewrite !suid_of_string_repr by done. by intros ->.
  - intros x. rewrite <-elem_of_app, list_elem_of_fmap. split.
    + intros (s & -> & (t & Ht & Hin & ->)%Hstrs).
      by rewrite suid_of_string_repr.
    + intros Hx. exists (repr_suid x). split.
      * rewrite suid_of_string_repr; [done|]. by eapply Forall_forall in Hv.
      * apply set_to_list_elem. by apply list_elem_of_fmap_2.
Qed.

Lemma CellCollection_add_eq S T LS LT b :
  holds S LS → holds T LT →
  CellCollection_add S (OpColl T) b = Ok (built b (union_of S T)).
Proof.
  intros HS HT. unfold CellCollection_add.
  rewrite (holds_matches S T LS LT HS HT). cbn [validate_other].
  rewrite !rbind_Ok.
  destruct (union_of_spec S T LS LT HS HT) as (Hstr & Hv & Hnd & _).
  rewrite <-Hstr. destruct (union_of S T) as [|u U] eqn:HU; [done|].
  rewrite CellCollection_init_strs by done.
  by apply CellCollection_init_built.
Qed.
End union.

Lemma rhealpix_compress_no_full_group l x :
  no_full_group l → x ∈ rhealpix_compress l ↔ x ∈ l.
Proof.
  intros Hg. rewrite rhealpix_compress_elem. split.
  - intros [[Hx _]|H9]; [done|]. by apply Hg in H9.
  - intros Hx. left. split; [done|]. apply Hg.
Qed.

Lemma no_full_group_perm l1 l2 : l1 ≡ₚ l2 → no_full_group l1 → no_full_group l2.
Proof. intros Hp Hg k. unfold siblings. rewrite <-Hp. apply Hg. Qed.

Lemma distinct_keys_collection_of L x y :
  distinct_keys (collection_of L) → x ∈ L → y ∈ L →
  suid_key x = suid_key y → x = y.
Proof.
  intros Hk Hx Hy Heq.
  assert (mkCell x = mkCell y) as [= ->]; [|done].
  apply (Hk (mkCell <$> L)); [done|by apply list_elem_of_fmap_2..|done].
Qed.

(** C6, as amended: the unions [S + T] and [T + S] both return and hold the
    same suids up to order, and are equal when no two cells of the union
    share a sort key; [S + empty] holds the suids of [S], and equals [S]
    when no two cells of [S] share a key, provided [S] is in canonical form
    and no parent has all of its nine children in [S]. *)
Theorem union_up_to_order `{SO : SetOrder} (S T : CellCollection)
    (LS LT : list suid) :
  holds S LS → holds T LT →
  ∃ R1 R2,
    CellCollection_add S (OpColl T) true = Ok R1
    ∧ CellCollection_add T (OpColl S) true = Ok R2
    ∧ suids R1 ≡ₚ suids R2
    ∧ (distinct_keys R1 → CellCollection_eq R1 R2 = true)
    ∧ (LT = [] → canonical_form LS → no_full_group LS →
       suids R1 ≡ₚ suids S
       ∧ (distinct_keys S → CellCollection_eq R1 S = true)).
Proof.
  intros HS HT.
  destruct (union_of_spec S T LS LT HS HT) as (_ & Hv1 & Hnd1 & Hm1).
  destruct (union_of_spec T S LT LS HT HS) as (_ & Hv2 & Hnd2 & Hm2).
  assert (union_of S T ≡ₚ union_of T S) as Hp.
  { apply NoDup_Permutation; [done..|]. intros x. rewrite Hm1, Hm2. tauto. }
  exists (built true (union_of S T)), (built true (union_of T S)).
  split; [by eapply CellCollection_add_eq|].
  split; [by eapply CellCollection_add_eq|].
  split; [by apply built_perm|]. split.
  { intros Hk. unfold CellCollection_eq. apply bool_decide_eq_true. f_equal.
    destruct (cells (built true (union_of S T))) as [cs1|] eqn:Hcells.
    - eapply built_order_eq; [exact Hp|exact Hcells|]. intros c c'. by apply Hk.
    - destruct (union_of S T); discriminate Hcells. }
  intros -> (HndS & HancS & HsortS) Hg.
  assert (union_of S T ≡ₚ LS) as HpS.
  { apply NoDup_Permutation; [done..|]. intros x. rewrite Hm1, elem_of_nil. tauto. }
  set (U := union_of S T) in *. clearbody U.
  destruct HS as [HvS [[-> [a ->]]|[HneS ->]]].
  { apply Permutation_nil_r in HpS. rewrite HpS. by split. }
  destruct U as [|u U'] eqn:HU.
  { symmetry in HpS. by apply Permutation_nil_r in HpS. }
  cbn [built]. rewrite <-HU in *. clear HU u U'.
  assert (∀ x, x ∈ LS ↔ x ∈ pre_absorb true U
                       ∧ ¬ has_ancestor x (pre_absorb true U)) as Hmem.
  { assert (∀ y, y ∈ pre_absorb true U ↔ y ∈ LS) as Hpre.
    { intros y. cbn [pre_absorb]. rewrite rhealpix_compress_no_full_group.
      - by rewrite HpS.
      - eapply no_full_group_perm; [|exact Hg]. by symmetry. }
    intros x. rewrite Hpre, (has_ancestor_ext x _ _ Hpre). split; [|tauto].
    intros Hx. split; [done|]. by apply HancS. }
  split.
  - cbn [collection_of suids]. apply fmap_Permutation.
    destruct (canonical_elem true U) as (Hndc & _ & Hmc).
    apply NoDup_Permutation; [done..|]. intros x. by rewrite Hmc, Hmem.
  - intros Hk. unfold CellCollection_eq. apply bool_decide_eq_true. f_equal.
    f_equal. apply canonical_unique; [done|done|done|].
    intros x y. by apply distinct_keys_collection_of.
Qed.

Lemma union_up_to_order_witness :
  ∃ R1 R2,
    @CellCollection_add first_seen (collection_of [[Lbl "Q"]; [Lbl "P"; Dig 1]])
       (OpColl (empty_collection ArgNone)) true = Ok R1
    ∧ @CellCollection_add first_seen (empty_collection ArgNone)
        (OpColl (collection_of [[Lbl "Q"]; [Lbl "P"; Dig 1]])) true = Ok R2
    ∧ suids R1 ≡ₚ suids R2
    ∧ CellCollection_eq R1 R2 = true
    ∧ suids R1 ≡ₚ suids (collection_of [[Lbl "Q"]; [Lbl "P"; Dig 1]])
    ∧ CellCollection_eq R1 (collection_of [[Lbl "Q"]; [Lbl "P"; Dig 1]]) = true.
Proof.
  destruct (@union_up_to_order first_seen
              (collection_of [[Lbl "Q"]; [Lbl "P"; Dig 1]])
              (empty_collection ArgNone) [[Lbl "Q"]; [Lbl "P"; Dig 1]] [])
    as (R1 & R2 & H1 & H2 & Hp & He & Hi).
  - split; [by repeat constructor|]. right. by split.
  - split; [constructor|]. left. split; [reflexivity|]. by exists ArgNone.
  - assert (distinct_keys (collection_of [[Lbl "Q"]; [Lbl "P"; Dig 1]])) as Hd.
    { apply distinct_keys_off_N; [by repeat constructor|].
      intros x [->|[->|[]%elem_of_nil]%elem_of_cons]%elem_of_cons; done. }
    destruct Hi as [Hq Hs].
    + reflexivity.
    + split; [|split].
      * apply (bool_decide_unpack _). by vm_compute.
      * intros x [->|[->|[]%elem_of_nil]%elem_of_cons]%elem_of_cons;
          apply (bool_decide_unpack _); by vm_compute.
      * repeat constructor. by vm_compute.
    + intros k.
      assert (length (siblings k [[Lbl "Q"]; [Lbl "P"; Dig 1]])
              ≤ length [[Lbl "Q"]; [Lbl "P"; Dig 1]])%nat as Hf
        by apply length_filter.
      cbn [length] in Hf. lia.
    + exists R1, R2. split; [exact H1|]. split; [exact H2|]. split; [exact Hp|].
      split; [|split; [exact Hq|by apply Hs]].
      apply He. vm_compute in H1. injection H1 as <-. exact Hd.
Defined.

(** [Cell("P").children()] is the uncompressed collection [P0 .. P8]; its
    union with the empty collection is compressed, and is [P]. *)
Lemma union_identity_counterexample :
  ∃ S e R,
    @Cell_children first_seen (mkCell [Lbl "P"]) None = Ok (OpColl S)
    ∧ @CellCollection_init first_seen ArgNone None None true = Ok e
    ∧ @CellCollection_add first_seen S (OpColl e) true = Ok R
    ∧ CellCollection_repr S = "P0 P1 P2 P3 P4 P5 P6 P7 P8"
    ∧ CellCollection_repr R = "P"
    ∧ CellCollection_eq R S = false.
Proof.
  eexists _, _, _. split; [by vm_compute|]. split; [done|].
  split; [by vm_compute|]. split; [by vm_compute|]. split; by vm_compute.
Qed.

(** So is the union of the empty collection with the collection built,
    with compression, from the 81 cells two levels below [P]. *)
Lemma union_identity_descendants :
  ∃ S e R,
    @CellCollection_init first_seen (ArgStrs (repr_suid <$> grandchildren_P))
       None None true = Ok S
    ∧ @CellCollection_init first_seen ArgNone None None true = Ok e
    ∧ @CellCollection_add first_seen S (OpColl e) true = Ok R
    ∧ CellCollection_repr S = "P0 P1 P2 P3 P4 P5 P6 P7 P8"
    ∧ CellCollection_repr R = "P"
    ∧ CellCollection_eq R S = false.
Proof.
  eexists _, _, _. split; [by vm_compute|]. split; [done|].
  split; [by vm_compute|]. split; [by vm_compute|]. split; by vm_compute.
Qed.

(** With the sets iterated in insertion order, the unions of [N1] and [O]
    taken both ways differ: the two cells are sorted by the same integer. *)
Lemma union_order_example :
  CellCollection_repr <$>
    @CellCollection_add first_seen (collection_of [[Lbl "N"; Dig 1]])
      (OpColl (collection_of [[Lbl "O"]])) true = Ok "N1 O"
  ∧ CellCollection_repr <$>
      @CellCollection_add first_seen (collection_of [[Lbl "O"]])
        (OpColl (collection_of [[Lbl "N"; Dig 1]])) true = Ok "O N1".
Proof. split; by vm_compute. Qed.

(** ** The difference of a collection and itself *)

Lemma rfold_preserves {A S} (f : S → A → result S) (I : S → Prop) l s s' :
  (∀ s x s1, x ∈ l → f s x = Ok s1 → I s → I s1) →
  I s → rfold f l s = Ok s' → I s'.
Proof.
  revert s. induction l as [|y l IH]; intros s Hstep Hs Hr.
  { by injection Hr as <-. }
  cbn [rfold] in Hr. apply rbind_ok in Hr as (s1 & Hy & Hr).
  eapply (IH s1); [| |exact Hr].
  - intros s2 x s3 Hx. apply Hstep. by right.
  - eapply Hstep; [by left|exact Hy|exact Hs].
Qed.

Lemma rfold_all {A S} (f : S → A → result S) (Q : A → S → Prop) l s s' :
  (∀ s x s1, x ∈ l → f s x = Ok s1 → Q x s1) →
  (∀ s y s1 x, y ∈ l → f s y = Ok s1 → Q x s → Q x s1) →
  rfold f l s = Ok s' → ∀ x, x ∈ l → Q x s'.
Proof.
  revert s. induction l as [|y l IH]; intros s Hnew Hkeep Hr x Hx.
  { by apply elem_of_nil in Hx. }
  cbn [rfold] in Hr. apply rbind_ok in Hr as (s1 & Hy & Hr).
  apply elem_of_cons in Hx as [->|Hx].
  - eapply (rfold_preserves f (Q y)); [| |exact Hr].
    + intros s2 z s3 Hz. apply Hkeep. by right.
    + eapply Hnew; [by left|exact Hy].
  - eapply (IH s1); [| |exact Hr|exact Hx].
    + intros s2 z s3 Hz. apply Hnew. by right.
    + intros s2 z s3 w Hz. apply Hkeep. by right.
Qed.

(** Two cells of a list in canonical form overlap only when they are the
    same cell. *)
Lemma canonical_form_overlaps L x y :
  Forall valid_suid L → canonical_form L → x ∈ L → y ∈ L →
  zip_all_equal x y = true → x = y.
Proof.
  intros Hv (_ & Hanc & _) Hx Hy Ho.
  assert (∀ a b, a ∈ L → b ∈ L → a `prefix_of` b → a = b) as Hpre.
  { intros a b Ha Hb [k ->]. destruct k as [|e k]; [by rewrite app_nil_r|].
    destruct (Hanc _ Hb). apply has_ancestor_alt.
    eapply Forall_forall in Hv; [|exact Ha].
    apply valid_suid_inv in Hv as (f & ds & -> & _).
    exists (length (Dig <$> ds)). rewrite !length_app. cbn [length]. split; [lia|].
    replace (S (length (Dig <$> ds))) with (length (Lbl f :: (Dig <$> ds))) by done.
    by rewrite take_app_length. }
  apply zip_all_equal_prefix in Ho as [Ho|Ho]; [by apply Hpre|].
  symmetry. by apply Hpre.
Qed.

Section self_difference.
Context `{SO : SetOrder}.

(** For every collection in canonical form, as the constructor leaves
    it, other than the one built with no argument: [S - S] is the empty
    sentinel. *)
Lemma difference_self_empty S L cs b :
  holds S L → canonical_form L → cells S = Some cs →
  ∃ e, CellCollection_sub S (OpColl S) b = Ok e
       ∧ CellCollection_len e = 0%nat
       ∧ CellCollection_repr e = "Empty CellCollection".
Proof.
  intros HS Hcf Hcells.
  assert (cs = mkCell <$> L) as ->.
  { destruct HS as [_ [[-> [a ->]]|[_ ->]]].
    - destruct a; cbn in Hcells; by simplify_eq.
    - cbn in Hcells. by simplify_eq. }
  pose proof HS as [Hv _].
  destruct (CellCollection_sub_eq S S _ _ b Hcells Hcells) as (st & Hst & _ & ->);
    [by apply Forall_valid_cell..|].
  specialize (Hst SO). exists (built b (kept st)).
  assert (kept st = []) as ->; [|done].
  unfold depth_bound in Hst. rewrite progressively_intersect_unfold in Hst.
  set (step := λ (st : accum) (cell_one : Cell), _) in Hst.
  assert (∀ st0 one st1, one ∈ mkCell <$> L → step st0 one = Ok st1 →
            cell_suids one ∈ cells_to_remove st1
            ∧ (∀ x, x ∈ cells_to_remove st0 → x ∈ cells_to_remove st1)
            ∧ (∀ x, x ∈ cells_to_retain st1 →
                    x ∈ cells_to_retain st0 ∨ x = cell_suids one)) as Hstep.
  { intros st0 one st1 (x & -> & Hx)%list_elem_of_fmap Hs. unfold step in Hs.
    set (inner := λ (st : accum) (cell_two : Cell), _) in Hs.
    assert (∀ s two s1, two ∈ mkCell <$> L → inner s two = Ok s1 →
              (two = mkCell x → x ∈ cells_to_remove s1)
              ∧ (∀ z, z ∈ cells_to_remove s → z ∈ cells_to_remove s1)
              ∧ (∀ z, z ∈ cells_to_retain s1 → z ∈ cells_to_retain s ∨ z = x))
      as Hinner.
    { intros s two s1 (y & -> & Hy)%list_elem_of_fmap Hi. unfold inner in Hi.
      unfold Cell_overlaps in Hi. cbn [cell_suids] in Hi.
      destruct (zip_all_equal x y) eqn:Ho.
      - apply (canonical_form_overlaps L) in Ho as <-; [|done..].
        rewrite Z.geb_leb, Z.leb_refl in Hi. injection Hi as <-.
        cbn [cells_to_remove cells_to_retain]. split; [|split].
        + intros _. apply elem_of_app. right. by left.
        + intros z Hz. apply elem_of_app. by left.
        + intros z Hz. by left.
      - injection Hi as <-. cbn [cells_to_remove cells_to_retain].
        split; [|split].
        + intros [= ->]. by rewrite (proj2 (zip_all_equal_prefix x x)) in Ho by by left.
        + done.
        + intros z [Hz|Hz]%elem_of_app; [by left|right].
          by apply list_elem_of_singleton in Hz. }
    split; [|split].
    - eapply (rfold_all inner (λ two s, two = mkCell x → x ∈ cells_to_remove s));
        [| |exact Hs|by apply list_elem_of_fmap_2|done].
      + intros s two s1 Htwo Hi. by apply (Hinner s two s1).
      + intros s y s1 two Hy Hi Hq Heq. eapply Hinner; [exact Hy|exact Hi|]. by apply Hq.
    - intros z Hz.
      eapply (rfold_preserves inner (λ s, z ∈ cells_to_remove s)); [|exact Hz|exact Hs].
      intros s two s1 Htwo Hi. by apply (Hinner s two s1).
    - intros z.
      eapply (rfold_preserves inner
                (λ s, z ∈ cells_to_retain s → z ∈ cells_to_retain st0 ∨ z = x));
        [|by left|exact Hs].
      intros s two s1 Htwo Hi Hq Hz.
      destruct (Hinner s two s1 Htwo Hi) as (_ & _ & H3).
      destruct (H3 z Hz) as [Hz'|Hz']; [by apply Hq|by right]. }
  assert (∀ x, x ∈ L → x ∈ cells_to_remove st) as Hrem.
  { intros x Hx.
    apply (rfold_all step (λ one s, cell_suids one ∈ cells_to_remove s)
             (mkCell <$> L) (mkAccum [] []) st) with (x := mkCell x).
    - intros s one s1 Hone Hs.
      by destruct (Hstep s one s1 Hone Hs) as (H1 & _ & _).
    - intros s y s1 one Hy Hs Hq.
      destruct (Hstep s y s1 Hy Hs) as (_ & H2 & _). by apply H2.
    - exact Hst.
    - by apply list_elem_of_fmap_2. }
  assert (∀ x, x ∈ cells_to_retain st → x ∈ L) as Hret.
  { intros x.
    eapply (rfold_preserves step (λ s, x ∈ cells_to_retain s → x ∈ L));
      [| |exact Hst].
    - intros s one s1 Hone Hs Hq Hx.
      destruct (Hstep s one s1 Hone Hs) as (_ & _ & H3).
      destruct (H3 x Hx) as [Hx'|Hx']; [by apply Hq|]. subst x.
      apply list_elem_of_fmap in Hone as (y & Hy' & Hy). by subst one.
    - cbn. by intros ?%elem_of_nil. }
  unfold kept.
  assert (list_difference (cells_to_retain st) (cells_to_remove st) = []) as ->.
  { apply elem_of_nil_inv. intros x [Hx Hn]%list_elem_of_difference.
    apply Hn, Hrem, Hret, Hx. }
  apply Permutation_nil_r. by rewrite set_to_list_perm.
Qed.
End self_difference.

(** ** What the constructor returns *)

Lemma rmap_raises {A B} (f : A → result B) l x e :
  x ∈ l → f x = Raise e → ∃ e', rmap f l = Raise e'.
Proof.
  intros Hx Hf. induction Hx as [x l|x y l Hx IH]; cbn [rmap].
  - rewrite Hf. by exists e.
  - destruct (f y) as [b|e1]; [|by exists e1]. rewrite rbind_Ok.
    destruct (IH Hf) as (e' & ->). by exists e'.
Qed.

Lemma rmap_ok_inv {A B} (f : A → result B) l l' :
  rmap f l = Ok l' → Forall2 (λ x y, f x = Ok y) l l'.
Proof.
  revert l'. induction l as [|x l IH]; intros l'; cbn [rmap].
  - intros [= <-]. constructor.
  - intros (y & Hy & (ys & Hys & [= <-])%rbind_ok)%rbind_ok.
    constructor; [done|]. by apply IH.
Qed.

Lemma Cell_of_str_ok s c : Cell_of_str s = Ok c → valid_cell c.
Proof.
  unfold Cell_of_str, Cell_init. cbn [known_crs].
  change (known_crs "auspix") with true. cbv iota.
  intros (t & _ & (u & Hu & [= <-])%rbind_ok)%rbind_ok.
  unfold Cell_validate in Hu. change (bool_decide ("rHEALPix" = "rHEALPix")) with true in Hu.
  unfold valid_cell, valid_suid. cbn [cell_suids]. by destruct u.
Qed.

Lemma standardise_input_valid a cs :
  arg_valid a → standardise_input a = Ok cs → Forall valid_cell cs.
Proof.
  intros Ha Hs.
  assert (∀ l, rmap Cell_of_str l = Ok cs → Forall valid_cell cs) as Hstr.
  { intros l Hl%rmap_ok_inv. clear -Hl.
    induction Hl as [|s c l cs Hc _ IH]; constructor; [|done].
    by eapply Cell_of_str_ok. }
  destruct a as [|s|l|c|l|]; cbn in Hs; try done.
  - by eapply Hstr.
  - destruct l; [done|]. by eapply Hstr.
  - injection Hs as <-. by constructor.
  - destruct l; [done|]. by injection Hs as <-.
Qed.

Section constructor_results.
Context `{SO : SetOrder}.

Lemma CellCollection_init_reduce a crs0 kind0 b S cs :
  arg_false a = false → standardise_input a = Ok cs →
  CellCollection_init a crs0 kind0 b = Ok S →
  cs ≠ [] ∧ CellCollection_init (ArgCells cs) None None b = Ok S.
Proof.
  intros Hf Hs. unfold CellCollection_init. rewrite Hf, Hs, rbind_Ok.
  destruct cs as [|c0 cs]; [done|]. intros H. split; [done|].
  cbn [arg_false standardise_input truthy]. rewrite !rbind_Ok in *.
  cbv iota in *.
  set (crs' := if truthy crs0 then default "" crs0 else cell_crs c0) in *.
  set (kind' := if truthy kind0 then default "" kind0 else cell_kind c0) in *.
  apply rbind_ok in H as ([] & Hval & H).
  assert (crs' = "auspix" ∧ kind' = "rHEALPix") as [Hc Hk].
  { unfold CellCollection_validate in Hval. cbn [rfold] in Hval.
    unfold cell_crs, cell_kind in Hval.
    destruct (bool_decide ("auspix" = crs')) eqn:H1; [|done].
    destruct (bool_decide ("rHEALPix" = kind')) eqn:H2; [|done].
    apply bool_decide_eq_true in H1, H2. done. }
  rewrite Hc, Hk in *. change (cell_crs c0) with "auspix".
  change (cell_kind c0) with "rHEALPix". by rewrite Hval, rbind_Ok.
Qed.

Lemma CellCollection_init_cells_inv cs b S :
  cs ≠ [] → Forall valid_cell cs →
  CellCollection_init (ArgCells cs) None None b = Ok S →
  S = collection_of (canonical b (cell_suids <$> cs))
  ∧ Forall valid_suid (canonical b (cell_suids <$> cs))
  ∧ canonical b (cell_suids <$> cs) ≠ [].
Proof.
  intros Hne Hv HS.
  assert (Forall valid_suid (cell_suids <$> cs)) as Hv' by by apply Forall_fmap.
  assert (canonical b (cell_suids <$> cs) ≠ []) as Hnil.
  { apply canonical_nonempty. by destruct cs. }
  destruct (decide (b = true ∧ length (siblings [] (cell_suids <$> cs)) = 9%nat))
    as [[-> H9]|Hok].
  - exfalso.
    assert ([] ∈ absorb (deduplicate (rhealpix_compress (cell_suids <$> cs)))) as Hin.
    { destruct (deduplicate_spec (rhealpix_compress (cell_suids <$> cs))) as [Hnd Hd].
      apply (absorb_spec _ Hnd). split.
      - apply Hd, rhealpix_compress_elem. by right.
      - intros (i & Hi & _)%has_ancestor_alt. cbn in Hi. lia. }
    revert HS. unfold CellCollection_init.
    destruct cs as [|c0 cs]; [done|].
    cbn [arg_false standardise_input truthy]. rewrite !rbind_Ok. cbv iota.
    change (cell_crs c0) with "auspix". change (cell_kind c0) with "rHEALPix".
    rewrite CellCollection_validate_ok, !rbind_Ok.
    unfold compress, order.
    change (bool_decide ("rHEALPix" = "rHEALPix")) with true. cbv iota.
    rewrite rbind_Ok. unfold rhealpix_order.
    destruct (rmap_raises num_of_suid _ [] IndexError Hin eq_refl) as (e' & ->).
    done.
  - assert (b = true → length (siblings [] (cell_suids <$> cs)) ≠ 9%nat) as Htop.
    { intros -> H9. by apply Hok. }
    rewrite CellCollection_init_valid in HS by done.
    injection HS as <-. split; [done|]. split; [|done].
    by apply canonical_valid.
Qed.

(** Every collection the constructor returns is the empty sentinel or a
    collection of valid suids in canonical form. *)
Lemma CellCollection_init_holds a crs0 kind0 b S :
  arg_valid a → CellCollection_init a crs0 kind0 b = Ok S →
  (arg_false a = true ∧ S = empty_collection a)
  ∨ ∃ L, holds S L ∧ L ≠ [] ∧ canonical_form L.
Proof.
  intros Ha HS. destruct (arg_false a) eqn:Hf.
  { left. unfold CellCollection_init in HS. rewrite Hf in HS. by injection HS as <-. }
  right.
  assert (∃ cs, standardise_input a = Ok cs) as (cs & Hs).
  { unfold CellCollection_init in HS. rewrite Hf in HS.
    destruct (standardise_input a) as [cs|e]; [by exists cs|done]. }
  destruct (CellCollection_init_reduce a crs0 kind0 b S cs Hf Hs HS) as [Hne HS'].
  apply CellCollection_init_cells_inv in HS' as (-> & Hv & Hnil);
    [|done|by eapply standardise_input_valid].
  eexists. split; [|split; [exact Hnil|apply canonical_canonical_form]].
  split; [done|]. right. by split.
Qed.
End constructor_results.

(** X1: every collection the constructor returns, the one built with no
    argument apart: its difference with itself is the empty sentinel. *)
Theorem difference_self_is_empty `{SO : SetOrder} (a : cells_arg)
    (crs0 kind0 : option string) (b b' : bool) (S : CellCollection) :
  arg_valid a → a ≠ ArgNone →
  CellCollection_init a crs0 kind0 b = Ok S →
  ∃ e, CellCollection_sub S (OpColl S) b' = Ok e
       ∧ CellCollection_len e = 0%nat
       ∧ CellCollection_repr e = "Empty CellCollection".
Proof.
  intros Ha Hnone HS.
  destruct (CellCollection_init_holds a crs0 kind0 b S Ha HS)
    as [[Hf ->]|(L & HL & Hne & Hcf)].
  - apply (difference_self_empty _ [] []).
    + split; [constructor|]. left. split; [done|]. by exists a.
    + split; [constructor|]. split; [|constructor]. by intros x ?%elem_of_nil.
    + by destruct a.
  - apply (difference_self_empty _ L (mkCell <$> L)); [done..|].
    destruct HL as [_ [[? _]|[_ ->]]]; done.
Qed.

Lemma difference_self_is_empty_witness :
  ∃ e, @CellCollection_sub first_seen (collection_of [[Lbl "P"; Dig 1]])
         (OpColl (collection_of [[Lbl "P"; Dig 1]])) true = Ok e
       ∧ CellCollection_len e = 0%nat
       ∧ CellCollection_repr e = "Empty CellCollection".
Proof.
  apply (@difference_self_is_empty first_seen (ArgStr "P1") None None true true
           (collection_of [[Lbl "P"; Dig 1]])); [exact I|discriminate|].
  vm_compute. reflexivity.
Defined.

(** X2: invariants 1, 2 and 4 hold of every collection the constructor
    returns: its suids are distinct, none lies below another, and they are
    sorted by key. *)
Theorem constructor_canonical_form `{SO : SetOrder} (a : cells_arg)
    (crs0 kind0 : option string) (b : bool) (S : CellCollection) :
  arg_valid a →
  CellCollection_init a crs0 kind0 b = Ok S →
  ∃ L, holds S L ∧ canonical_form L.
Proof.
  intros Ha HS.
  destruct (CellCollection_init_holds a crs0 kind0 b S Ha HS)
    as [[Hf ->]|(L & HL & Hne & Hcf)].
  - exists []. split.
    + split; [constructor|]. left. split; [done|]. by exists a.
    + split; [constructor|]. split; [|constructor]. by intros x ?%elem_of_nil.
  - by exists L.
Qed.

Lemma constructor_canonical_form_witness :
  ∃ L, holds (collection_of [[Lbl "P"]; [Lbl "Q"; Dig 3]]) L ∧ canonical_form L.
Proof.
  apply (@constructor_canonical_form first_seen (ArgStr "Q3 P P4 Q3") None None true
           (collection_of [[Lbl "P"]; [Lbl "Q"; Dig 3]])); [exact I|].
  vm_compute. reflexivity.
Defined.

(** * Cells *)

(** ** The string of a cell *)

Lemma int_of_char_inv c k : int_of_char c = Ok k → c = digit_char k ∧ (k ≤ 9)%nat.
Proof.
  unfold int_of_char. case_bool_decide as Hc; [|done]. intros [= <-].
  split; [|lia]. unfold digit_char.
  replace (48 + (nat_of_ascii c - 48))%nat with (nat_of_ascii c) by lia.
  by rewrite ascii_nat_embedding.
Qed.

Lemma rmap_int_of_char_inv r ds :
  rmap int_of_char (list_ascii_of_string r) = Ok ds → digits_str ds = r.
Proof.
  revert ds. induction r as [|c r IH]; intros ds; cbn [list_ascii_of_string rmap].
  - by intros [= <-].
  - intros (k & [-> _]%int_of_char_inv & (ks & Hks & [= <-])%rbind_ok)%rbind_ok.
    cbn [digits_str]. f_equal. by apply IH.
Qed.

Lemma Cell_of_str_inv s c :
  Cell_of_str s = Ok c →
  ∃ f ds, s = String f (digits_str ds) ∧ c = mkCell (Lbl f :: (Dig <$> ds))
          ∧ f ∈ zero_cells ∧ Forall (λ n, n < 9)%nat ds.
Proof.
  intros Hc. pose proof (Cell_of_str_ok _ _ Hc) as Hv.
  unfold Cell_of_str, Cell_init in Hc. change (known_crs "auspix") with true in Hc.
  cbv iota in Hc. apply rbind_ok in Hc as (t & Ht & (u & _ & [= <-])%rbind_ok).
  unfold valid_cell in Hv. cbn [cell_suids] in Hv.
  destruct s as [|f r]; [done|]. cbn [suid_from_str] in Ht.
  apply rbind_ok in Ht as (ds & Hds & [= <-]).
  apply valid_suid_inv in Hv as (f' & ds' & [= <- E%(inj (fmap Dig))] & Hf & Hlt).
  subst ds'. exists f, ds. by rewrite (rmap_int_of_char_inv _ _ Hds).
Qed.

(** X4: the string of a valid cell builds the cell again, and a cell built
    from a string of 8-bit characters has that string. *)
Theorem cell_string_round_trip :
  (∀ c, valid_cell c → Cell_of_str (Cell_repr c) = Ok c)
  ∧ (∀ s c, Cell_of_str s = Ok c → valid_cell c ∧ Cell_repr c = s).
Proof.
  split.
  - intros [t] Hv. by apply Cell_of_str_repr.
  - intros s c Hc. split; [by eapply Cell_of_str_ok|].
    apply Cell_of_str_inv in Hc as (f & ds & -> & -> & _ & Hds).
    by apply Cell_repr_valid.
Qed.

Lemma Cell_repr_inj a b :
  valid_cell a → valid_cell b → Cell_repr a = Cell_repr b → a = b.
Proof.
  destruct a as [t], b as [u]. intros Ha Hb Heq.
  pose proof (Cell_of_str_repr t Ha) as H1.
  pose proof (Cell_of_str_repr u Hb) as H2.
  rewrite Heq, H2 in H1. by injection H1 as ->.
Qed.

(** X5: on valid cells, [==] holds exactly of equal suids. *)
Theorem Cell_eq_sound (a b : Cell) :
  valid_cell a → valid_cell b → Cell_eq a b = true ↔ a = b.
Proof.
  intros Ha Hb. unfold Cell_eq. rewrite bool_decide_eq_true. split.
  - by apply Cell_repr_inj.
  - by intros ->.
Qed.

Lemma Cell_eq_sound_witness :
  Cell_eq (mkCell [Lbl "P"; Dig 1; Dig 2]) (mkCell [Lbl "P"; Dig 1; Dig 2]) = true
  ↔ mkCell [Lbl "P"; Dig 1; Dig 2] = mkCell [Lbl "P"; Dig 1; Dig 2].
Proof.
  apply (Cell_eq_sound (mkCell [Lbl "P"; Dig 1; Dig 2])
           (mkCell [Lbl "P"; Dig 1; Dig 2])); reflexivity.
Defined.

(** X6: a string is accepted as a cell exactly when it is a face letter
    followed by digits from 0 to 8; the empty string raises an index error,
    and every other refused string a value error. *)
Theorem Cell_of_str_accepts (s : string) :
  (is_ok (Cell_of_str s) = true ↔
     ∃ f ds, s = String f (digits_str ds) ∧ f ∈ zero_cells
             ∧ Forall (λ n, n < 9)%nat ds)
  ∧ (∀ e, Cell_of_str s = Raise e →
       (s = "" ∧ e = IndexError) ∨ (s ≠ "" ∧ e = ValueError)).
Proof.
  split; [split|].
  - destruct (Cell_of_str s) as [c|e] eqn:Hc; [|done]. intros _.
    apply Cell_of_str_inv in Hc as (f & ds & -> & _ & Hf & Hds). by exists f, ds.
  - intros (f & ds & -> & Hf & Hds).
    rewrite <-(Cell_repr_valid f ds Hds), Cell_of_str_repr; [done|].
    apply valid_suid_inv. by exists f, ds.
  - intros e. destruct s as [|f r]; [intros [= <-]; by left|]. intros He. right.
    split; [done|]. unfold Cell_of_str, Cell_init in He.
    change (known_crs "auspix") with true in He. cbv iota in He.
    cbn [suid_from_str] in He.
    destruct (rmap int_of_char (list_ascii_of_string r)) as [ds|e'] eqn:Hr.
    + rewrite !rbind_Ok in He. unfold Cell_validate in He.
      change (bool_decide ("rHEALPix" = "rHEALPix")) with true in He. cbv iota in He.
      cbn [rhealpix_validator] in He.
      destruct (is_zero_cell (Lbl f)); [|by injection He as <-].
      destruct (forallb digit_in_range (Dig <$> ds)); [done|by injection He as <-].
    + injection He as <-. clear -Hr. revert e' Hr.
      generalize (list_ascii_of_string r). intros l.
      induction l as [|c l IH]; intros e' Hr; [done|]. cbn [rmap] in Hr.
      destruct (int_of_char c) as [k|e1] eqn:Hc.
      * rewrite rbind_Ok in Hr. destruct (rmap int_of_char l) as [ks|e2]; [done|].
        injection Hr as <-. by apply IH.
      * injection Hr as <-. unfold int_of_char in Hc.
        case_bool_decide; [done|]. by injection Hc as <-.
Qed.

(** ** Rotation *)

Lemma rotate_entry_mod x q : rotate_entry x q = rotate_entry x (q mod 4).
Proof. unfold rotate_entry. by rewrite Nat.Div0.mod_mod. Qed.

Lemma rotate_entry_add x q1 q2 :
  rotate_entry x (q1 + q2) = rotate_entry x (q1 mod 4 + q2 mod 4).
Proof.
  rewrite (rotate_entry_mod x (q1 + q2)), (rotate_entry_mod x (_ mod 4 + _)).
  by rewrite Nat.Div0.add_mod.
Qed.

Lemma rotate_entry_face_any f q :
  f ∈ zero_cells → rotate_entry (Lbl f) q = Ok (Lbl f).
Proof.
  intros H. rewrite rotate_entry_mod.
  pose proof (Nat.mod_upper_bound q 4 ltac:(done)) as Hq.
  destruct (q mod 4) as [|[|[|[|?]]]]; [..|lia];
    unfold zero_cells in H; enum_cases H; by vm_compute.
Qed.

Lemma rotate_entry_digit_compose n q1 q2 :
  (n < 9)%nat →
  ∃ m, rotate_entry (Dig n) q1 = Ok (Dig m) ∧ (m < 9)%nat
       ∧ rotate_entry (Dig m) q2 = rotate_entry (Dig n) (q1 + q2).
Proof.
  intros H. rewrite rotate_entry_add, (rotate_entry_mod _ q1).
  setoid_rewrite (rotate_entry_mod _ q2).
  pose proof (Nat.mod_upper_bound q1 4 ltac:(done)) as Hq1.
  pose proof (Nat.mod_upper_bound q2 4 ltac:(done)) as Hq2.
  destruct (q1 mod 4) as [|[|[|[|?]]]]; [..|lia];
    (destruct (q2 mod 4) as [|[|[|[|?]]]]; [..|lia]);
    digit_cases H; vm_compute; eexists; (split; [reflexivity|split; [lia|reflexivity]]).
Qed.

Lemma rotate_entry_zero x q : (q mod 4 = 0)%nat → rotate_entry x q = Ok x.
Proof. intros H. unfold rotate_entry. by rewrite H. Qed.

Lemma rmap_Ok_id {A} (f : A → result A) (l : list A) :
  (∀ x, f x = Ok x) → rmap f l = Ok l.
Proof.
  intros Hf. induction l as [|x l IH]; [done|]. cbn [rmap].
  by rewrite Hf, IH.
Qed.

Lemma rotate_digits_compose ds q1 q2 :
  Forall (λ n, n < 9)%nat ds →
  ∃ ds', rmap (λ x, rotate_entry x q1) (Dig <$> ds) = Ok (Dig <$> ds')
         ∧ Forall (λ n, n < 9)%nat ds' ∧ length ds' = length ds
         ∧ rmap (λ x, rotate_entry x q2) (Dig <$> ds')
           = rmap (λ x, rotate_entry x (q1 + q2)) (Dig <$> ds).
Proof.
  induction 1 as [|n ds Hn _ (ds' & IH & Hv & Hl & Hc)]; [by exists []|].
  destruct (rotate_entry_digit_compose n q1 q2 Hn) as (m & Hm & Hlt & Hmc).
  exists (m :: ds'). rewrite !fmap_cons. cbn [rmap length].
  rewrite Hm, IH, Hmc, Hc, Hl. split; [done|]. split; [by constructor|done].
Qed.

(** X7: rotating a valid suid gives a valid suid on the same face and of
    the same length; rotations compose by adding their quarter turns, and
    quarter turns that add up to a multiple of four give the suid back. *)
Theorem rotate_compose (t : suid) (q1 q2 : nat) :
  valid_suid t →
  ∃ t', rotate t q1 = Ok t'
        ∧ valid_suid t' ∧ head t' = head t ∧ length t' = length t
        ∧ rotate t' q2 = rotate t (q1 + q2)
        ∧ (((q1 + q2) mod 4 = 0)%nat → rotate t' q2 = Ok t).
Proof.
  intros (f & ds & -> & Hf & Hds)%valid_suid_inv.
  destruct (rotate_digits_compose ds q1 q2 Hds) as (ds' & Hr & Hv & Hl & Hc).
  exists (Lbl f :: (Dig <$> ds')). unfold rotate. cbn [rmap].
  rewrite !rotate_entry_face_any, !rbind_Ok, Hr, Hc by done.
  split; [done|]. split; [apply valid_suid_inv; by exists f, ds'|].
  split; [done|]. split; [cbn; by rewrite !length_fmap, Hl|].
  split; [done|]. intros Hq.
  rewrite rmap_Ok_id; [done|]. intros x. by apply rotate_entry_zero.
Qed.

Lemma rotate_compose_witness :
  ∃ t', rotate [Lbl "N"; Dig 1; Dig 5] 1 = Ok t'
        ∧ valid_suid t' ∧ head t' = Some (Lbl "N") ∧ length t' = 3%nat
        ∧ rotate t' 3 = rotate [Lbl "N"; Dig 1; Dig 5] 4
        ∧ rotate t' 3 = Ok [Lbl "N"; Dig 1; Dig 5].
Proof.
  destruct (rotate_compose [Lbl "N"; Dig 1; Dig 5] 1 3)
    as (t' & H1 & H2 & H3 & H4 & H5 & H6); [reflexivity|].
  exists t'. split; [exact H1|]. split; [exact H2|]. split; [exact H3|].
  split; [exact H4|]. split; [exact H5|]. apply H6. reflexivity.
Defined.

(** ** A neighbour lies at the resolution of the cell *)

Lemma neighbour_scan_length d l b out :
  neighbour_scan d l b = Ok out → length out = length l.
Proof.
  revert b out. induction l as [|n l IH]; intros b out; cbn [neighbour_scan].
  - by intros [= <-].
  - destruct b.
    + intros (tl & Htl & [= <-])%rbind_ok. cbn. f_equal. by eapply IH.
    + intros (m & _ & (tl & Htl & [= <-])%rbind_ok)%rbind_ok.
      cbn. f_equal. by eapply IH.
Qed.

Lemma rmap_length {A B} (f : A → result B) l l' :
  rmap f l = Ok l' → length l' = length l.
Proof. intros H%rmap_ok_inv. symmetry. by eapply Forall2_length. Qed.

Lemma Cell_neighbour_length c d b :
  Cell_neighbour c d = Ok b → length (cell_suids b) = length (cell_suids c).
Proof.
  unfold Cell_neighbour.
  intros (scanned & Hs & (s0 & _ & (n0 & _ & (nb & Hnb & Hb)%rbind_ok)%rbind_ok)%rbind_ok)%rbind_ok.
  apply Cell_of_tuple_ok in Hb as [-> _]. cbn [cell_suids].
  apply neighbour_scan_length in Hs. rewrite length_reverse in Hs.
  destruct (quarter_turns s0 n0).
  - apply rmap_length in Hnb. by rewrite Hnb, length_reverse.
  - injection Hnb as <-. by rewrite length_reverse.
Qed.

(** X8: the neighbour of a valid cell in any direction is a valid cell of
    the same resolution that does not overlap the cell. *)
Theorem neighbour_same_resolution (c : Cell) (d : direction) :
  valid_cell c →
  ∃ b, Cell_neighbour c d = Ok b
       ∧ valid_cell b
       ∧ resolution b = resolution c
       ∧ Cell_overlaps c b = false ∧ Cell_overlaps b c = false.
Proof.
  intros Hv. destruct (Cell_neighbour_valid c d Hv) as (b & Hb & Hvb & Hne).
  pose proof (Cell_neighbour_length _ _ _ Hb) as Hl.
  exists b. split; [done|]. split; [done|].
  split; [unfold resolution; by rewrite Hl|].
  assert (∀ x y : Cell, length (cell_suids x) = length (cell_suids y) → x ≠ y →
            Cell_overlaps x y = false) as Hno.
  { intros [x] [y] Hxy Hd. unfold Cell_overlaps. cbn [cell_suids] in *.
    apply not_true_is_false. intros [Hp|Hp]%zip_all_equal_prefix;
      apply prefix_length_eq in Hp; [congruence|lia|congruence|lia]. }
  split; apply Hno; done.
Qed.

Lemma neighbour_same_resolution_witness :
  ∃ b, Cell_neighbour (mkCell [Lbl "P"; Dig 1]) up = Ok b
       ∧ valid_cell b
       ∧ resolution b = resolution (mkCell [Lbl "P"; Dig 1])
       ∧ Cell_overlaps (mkCell [Lbl "P"; Dig 1]) b = false
       ∧ Cell_overlaps b (mkCell [Lbl "P"; Dig 1]) = false.
Proof. apply (neighbour_same_resolution (mkCell [Lbl "P"; Dig 1]) up). reflexivity. Defined.

(** * Collections *)

(** ** What a collection holds *)

Section collection_contents.
Context `{SO : SetOrder}.

(** X9: two different cells of a collection the constructor returns never
    overlap. *)
Theorem constructor_cells_disjoint (a : cells_arg) (crs0 kind0 : option string)
    (b : bool) (S : CellCollection) (cs : list Cell) (x y : Cell) :
  arg_valid a → CellCollection_init a crs0 kind0 b = Ok S →
  cells S = Some cs → x ∈ cs → y ∈ cs → x ≠ y →
  Cell_overlaps x y = false.
Proof.
  intros Ha HS Hcs Hx Hy Hne.
  destruct (CellCollection_init_holds a crs0 kind0 b S Ha HS)
    as [[Hf ->]|(L & [Hv [[-> _]|[_ ->]]] & Hnil & Hcan)]; [| done |].
  - destruct a; try done; injection Hcs as <-; by apply elem_of_nil in Hx.
  - injection Hcs as <-.
    apply list_elem_of_fmap in Hx as (tx & -> & Hx).
    apply list_elem_of_fmap in Hy as (ty & -> & Hy).
    apply not_true_is_false. intros Ho. apply Hne. f_equal.
    by apply (canonical_form_overlaps L).
Qed.

Lemma removelast_prefix {A} (l : list A) : removelast l `prefix_of` l.
Proof.
  induction l as [|x l IH]; [done|]. destruct l as [|y l]; [by exists [x]|].
  change (removelast (x :: y :: l)) with (x :: removelast (y :: l)).
  by apply prefix_cons.
Qed.

Lemma take_prefix_of {A} n (l : list A) : take n l `prefix_of` l.
Proof. exists (drop n l). by rewrite take_drop. Qed.

(** Every suid given to the constructor has a prefix in the canonical
    sequence. *)
Lemma canonical_covers b s0 x :
  x ∈ s0 → ∃ y, y ∈ canonical b s0 ∧ y `prefix_of` x.
Proof.
  intros Hx.
  assert (∃ p, p ∈ pre_absorb b s0 ∧ p `prefix_of` x) as (p & Hp & Hpx).
  { destruct b; cbn [pre_absorb]; [|by exists x].
    destruct (decide (length (siblings (removelast x) s0) = 9%nat)) as [H9|H9].
    - exists (removelast x). split; [|apply removelast_prefix].
      apply rhealpix_compress_elem. by right.
    - exists x. split; [|done]. apply rhealpix_compress_elem. by left. }
  destruct (canonical_elem b s0) as (_ & _ & Hc).
  destruct (decide (has_ancestor p (pre_absorb b s0))) as [Ha|Ha].
  - apply has_ancestor_root in Ha as (i & _ & Hin & Hno).
    exists (take (S i) p). split; [by apply Hc|].
    etrans; [apply take_prefix_of|done].
  - exists p. split; [by apply Hc|done].
Qed.

(** X10: the constructor loses no cell and invents none: every cell it is
    given is in the collection or has an ancestor there, and every cell of
    the collection is one of the cells given or, with compression, the
    parent of nine of them. *)
Theorem constructor_covers (cs0 : list Cell) (b : bool) (S : CellCollection) :
  cs0 ≠ [] → Forall valid_cell cs0 →
  CellCollection_init (ArgCells cs0) None None b = Ok S →
  ∃ cs, cells S = Some cs
        ∧ (∀ c, c ∈ cs0 →
             ∃ y, y ∈ cs ∧ cell_suids y `prefix_of` cell_suids c)
        ∧ (∀ y, y ∈ cs →
             y ∈ cs0
             ∨ (b = true
                ∧ length (siblings (cell_suids y) (cell_suids <$> cs0)) = 9%nat)).
Proof.
  intros Hne Hv HS.
  apply CellCollection_init_cells_inv in HS as (-> & Hvc & Hnil); [|done..].
  eexists. split; [reflexivity|]. split.
  - intros c Hc.
    destruct (canonical_covers b (cell_suids <$> cs0) (cell_suids c))
      as (y & Hy & Hpre); [by apply list_elem_of_fmap_2|].
    exists (mkCell y). split; [by apply list_elem_of_fmap_2|done].
  - intros y (t & -> & Ht)%list_elem_of_fmap. cbn [cell_suids].
    destruct (canonical_elem b (cell_suids <$> cs0)) as (_ & _ & Hc).
    apply Hc in Ht as [Ht _]. destruct b; cbn [pre_absorb] in Ht.
    + apply rhealpix_compress_elem in Ht as [[Ht _]|H9]; [|by right].
      left. apply list_elem_of_fmap in Ht as ([u] & -> & Hu). done.
    + left. apply list_elem_of_fmap in Ht as ([u] & -> & Hu). done.
Qed.

End collection_contents.

Lemma constructor_cells_disjoint_witness :
  Cell_overlaps (mkCell [Lbl "P"; Dig 1]) (mkCell [Lbl "P"; Dig 2]) = false.
Proof.
  apply (@constructor_cells_disjoint first_seen (ArgStr "P1 P12 P2") None None true
           (collection_of [[Lbl "P"; Dig 1]; [Lbl "P"; Dig 2]])
           [mkCell [Lbl "P"; Dig 1]; mkCell [Lbl "P"; Dig 2]]).
  - exact I.
  - vm_compute. reflexivity.
  - reflexivity.
  - by left.
  - right. by left.
  - discriminate.
Defined.

Lemma constructor_covers_witness :
  ∃ cs, cells (collection_of [[Lbl "P"]; [Lbl "Q"; Dig 3]]) = Some cs
        ∧ (∀ c, c ∈ (mkCell <$> ([Lbl "Q"; Dig 3] :: child_suids [Lbl "P"])) →
             ∃ y, y ∈ cs ∧ cell_suids y `prefix_of` cell_suids c)
        ∧ (∀ y, y ∈ cs →
             y ∈ (mkCell <$> ([Lbl "Q"; Dig 3] :: child_suids [Lbl "P"]))
             ∨ (true = true
                ∧ length (siblings (cell_suids y)
                            (cell_suids <$>
                               (mkCell <$> ([Lbl "Q"; Dig 3] :: child_suids [Lbl "P"]))))
                  = 9%nat)).
Proof.
  apply (@constructor_covers first_seen
           (mkCell <$> ([Lbl "Q"; Dig 3] :: child_suids [Lbl "P"])) true
           (collection_of [[Lbl "P"]; [Lbl "Q"; Dig 3]])).
  - discriminate.
  - by repeat constructor.
  - vm_compute. reflexivity.
Defined.

(** ** What the constructor refuses *)

Lemma rmap_raises_same {A B} (f : A → result B) l x e :
  (∀ y, y ∈ l → f y = Raise e ∨ ∃ z, f y = Ok z) →
  x ∈ l → f x = Raise e → rmap f l = Raise e.
Proof.
  intros Hall Hx Hfx. induction l as [|y l IH]; [by apply elem_of_nil in Hx|].
  cbn [rmap]. destruct (Hall y ltac:(by left)) as [Hy|[z Hy]]; rewrite Hy; [done|].
  rewrite rbind_Ok. rewrite IH; [done| |].
  - intros y' Hy'. apply Hall. by right.
  - apply elem_of_cons in Hx as [->|Hx]; [congruence|done].
Qed.

Lemma split_space_nonempty cur s : split_space cur s ≠ [].
Proof.
  revert cur. induction s as [|c s IH]; intros cur; cbn [split_space]; [done|].
  destruct (decide _); [done|apply IH].
Qed.

Lemma rmap_nonempty {A B} (f : A → result B) l l' :
  l ≠ [] → rmap f l = Ok l' → l' ≠ [].
Proof. intros Hl H%rmap_length. destruct l, l'; done. Qed.

Lemma standardise_input_nonempty a cs :
  arg_false a = false → standardise_input a = Ok cs → cs ≠ [].
Proof.
  destruct a as [|s|l|c|l|]; cbn [arg_false standardise_input]; try done.
  - intros _. apply rmap_nonempty, split_space_nonempty.
  - destruct l; [done|]. intros _. by apply rmap_nonempty.
  - by intros _ [= <-].
  - destruct l; [done|]. by intros _ [= <-].
Qed.

Lemma siblings_cons k c l :
  siblings k (c :: l)
  = if decide (removelast c = k) then c :: siblings k l else siblings k l.
Proof. unfold siblings. by rewrite filter_cons. Qed.

Lemma resolution_zero_siblings (cs : list Cell) :
  Forall valid_cell cs →
  siblings [] (cell_suids <$> cs)
  = cell_suids <$> filter (λ c, resolution c = 0%Z) cs.
Proof.
  induction 1 as [|[t] cs Ht _ IH]; [done|].
  rewrite fmap_cons, siblings_cons, filter_cons, IH.
  unfold valid_cell in Ht. cbn [cell_suids] in Ht.
  apply valid_suid_inv in Ht as (f & ds & -> & _). cbn [cell_suids].
  unfold resolution. cbn [cell_suids length].
  destruct ds as [|d ds]; [by rewrite !decide_True by done|].
  rewrite !decide_False; [done|rewrite fmap_cons; cbn [length]; lia|done].
Qed.

Section constructor_errors.
Context `{SO : SetOrder}.

(** X11: a collection that is not empty takes no crs but "auspix" and no
    kind but "rHEALPix": given another one, the constructor raises a value
    error. *)
Theorem constructor_rejects_crs_kind (a : cells_arg) (crs0 kind0 : option string)
    (b : bool) (cs : list Cell) :
  arg_false a = false → standardise_input a = Ok cs →
  (truthy crs0 = true ∧ crs0 ≠ Some "auspix")
  ∨ (truthy kind0 = true ∧ kind0 ≠ Some "rHEALPix") →
  CellCollection_init a crs0 kind0 b = Raise ValueError.
Proof.
  intros Hf Hs Hbad.
  pose proof (standardise_input_nonempty a cs Hf Hs) as Hne.
  unfold CellCollection_init. rewrite Hf, Hs, rbind_Ok.
  destruct cs as [|c0 cs]; [done|]. rewrite rbind_Ok.
  unfold CellCollection_validate. cbn [rfold].
  unfold cell_crs, cell_kind.
  destruct Hbad as [[Ht Hc]|[Ht Hk]]; rewrite Ht.
  - rewrite bool_decide_eq_false_2; [done|].
    destruct crs0 as [c|]; [|done]. cbn. congruence.
  - destruct (bool_decide ("auspix" = _)); [|done]. cbn [negb].
    rewrite bool_decide_eq_false_2; [done|].
    destruct kind0 as [k|]; [|done]. cbn. congruence.
Qed.

(** X12: when nine of the cells given are cells of resolution 0 (some face
    is then given more than once), the compression replaces them by the
    empty suid, and the constructor raises an index error. *)
Theorem nine_face_cells (cs : list Cell) :
  Forall valid_cell cs →
  length (filter (λ c, resolution c = 0%Z) cs) = 9%nat →
  CellCollection_init (ArgCells cs) None None true = Raise IndexError.
Proof.
  intros Hv H9.
  assert (length (siblings [] (cell_suids <$> cs)) = 9%nat) as Hs.
  { by rewrite resolution_zero_siblings, length_fmap. }
  assert (Forall valid_suid (cell_suids <$> cs)) as Hv' by by apply Forall_fmap.
  assert (rhealpix_order (absorb (deduplicate (rhealpix_compress (cell_suids <$> cs))))
          = Raise IndexError) as Hord.
  { set (s0 := cell_suids <$> cs) in *.
    destruct (deduplicate_spec (rhealpix_compress s0)) as [Hnd Hd].
    destruct (absorb_spec _ Hnd) as [_ Hab].
    assert ([] ∈ absorb (deduplicate (rhealpix_compress s0))) as Hin.
    { apply Hab. split.
      - apply Hd, rhealpix_compress_elem. by right.
      - intros (i & Hi & _)%has_ancestor_alt. cbn in Hi. lia. }
    unfold rhealpix_order.
    rewrite (rmap_raises_same num_of_suid _ [] IndexError); [done| |done|done].
    intros y [Hy _]%Hab. apply Hd, rhealpix_compress_elem in Hy as [[Hy _]|Hy].
    - right. eexists. apply num_of_suid_num_str.
      by eapply Forall_forall in Hv'.
    - destruct (siblings y s0) as [|c l] eqn:Hc; [done|].
      assert (c ∈ siblings y s0) as Hcin by (rewrite Hc; by left).
      apply list_elem_of_filter in Hcin as [<- Hcin].
      eapply Forall_forall in Hv'; [|exact Hcin].
      destruct (removelast_valid c Hv') as [->|Hr]; [by left|].
      right. eexists. by apply num_of_suid_num_str. }
  unfold CellCollection_init. destruct cs as [|c0 cs]; [done|].
  cbn [arg_false standardise_input truthy]. rewrite !rbind_Ok. cbv iota.
  change (cell_crs c0) with "auspix". change (cell_kind c0) with "rHEALPix".
  rewrite CellCollection_validate_ok, !rbind_Ok.
  unfold compress, order.
  change (bool_decide ("rHEALPix" = "rHEALPix")) with true. cbv iota.
  by rewrite rbind_Ok, Hord.
Qed.

End constructor_errors.

Lemma constructor_rejects_crs_kind_witness :
  @CellCollection_init first_seen (ArgStr "P1") (Some "wgs84") None true
  = Raise ValueError.
Proof.
  apply (@constructor_rejects_crs_kind first_seen (ArgStr "P1") (Some "wgs84") None
           true [mkCell [Lbl "P"; Dig 1]]); [reflexivity|reflexivity|].
  left. split; [reflexivity|discriminate].
Defined.

Lemma nine_face_cells_witness :
  @CellCollection_init first_seen
    (ArgCells (mkCell <$> [[Lbl "N"]; [Lbl "O"]; [Lbl "P"]; [Lbl "Q"]; [Lbl "R"];
                           [Lbl "S"]; [Lbl "N"]; [Lbl "O"]; [Lbl "P"]]))
    None None true
  = Raise IndexError.
Proof.
  apply (@nine_face_cells first_seen
           (mkCell <$> [[Lbl "N"]; [Lbl "O"]; [Lbl "P"]; [Lbl "Q"]; [Lbl "R"];
                        [Lbl "S"]; [Lbl "N"]; [Lbl "O"]; [Lbl "P"]]));
    [by repeat constructor|reflexivity].
Defined.

(** ** Union and difference at the edges *)

Section operators.
Context `{SO : SetOrder}.

Lemma set_to_list_nil {A} `{Countable A} : set_to_list (@nil A) = [].
Proof. apply Permutation_nil_r. by rewrite set_to_list_perm. Qed.

Lemma built_holds b U :
  Forall valid_suid U → NoDup U →
  ∃ L, holds (built b U) L ∧ canonical_form L ∧ (U ≠ [] → L = canonical b U)
       ∧ (U = [] → L = []).
Proof.
  intros Hv Hnd. destruct U as [|u U].
  - exists []. split; [|split; [|done]].
    + split; [done|]. left. split; [done|]. by eexists.
    + split; [constructor|]. split; [by intros x ?%elem_of_nil|constructor].
  - exists (canonical b (u :: U)). split; [|split; [apply canonical_canonical_form|done]].
    split.
    + apply canonical_valid; [done|]. intros _. by apply siblings_top_NoDup.
    + right. split; [by apply canonical_nonempty|done].
Qed.

(** What a union holds. *)
Lemma CellCollection_add_spec (S T : CellCollection) (LS LT : list suid) (b : bool) :
  holds S LS → holds T LT →
  ∃ R L, CellCollection_add S (OpColl T) b = Ok R
         ∧ holds R L ∧ canonical_form L
         ∧ (∀ x, x ∈ LS ∨ x ∈ LT → ∃ y, y ∈ L ∧ y `prefix_of` x)
         ∧ (b = false →
            ∀ x, x ∈ L ↔ (x ∈ LS ∨ x ∈ LT) ∧ ¬ has_ancestor x (LS ++ LT)).
Proof.
  intros HS HT.
  destruct (union_of_spec S T LS LT HS HT) as (_ & Hv & Hnd & Hm).
  destruct (built_holds b (union_of S T) Hv Hnd) as (L & HL & Hcan & Hne & Hnil).
  exists (built b (union_of S T)), L.
  split; [by eapply CellCollection_add_eq|]. split; [done|]. split; [done|].
  split.
  - intros x Hx%Hm. rewrite Hne by (intros E; rewrite E in Hx; by apply elem_of_nil in Hx).
    by apply canonical_covers.
  - intros -> x. destruct (decide (union_of S T = [])) as [E|E].
    + rewrite Hnil by done. split; [by intros ?%elem_of_nil|].
      intros [Hx%Hm _]. by rewrite E in Hx.
    + rewrite Hne by done. destruct (canonical_elem false (union_of S T)) as (_ & _ & Hc).
      rewrite Hc. cbn [pre_absorb]. rewrite Hm.
      rewrite (has_ancestor_ext x (union_of S T) (LS ++ LT)); [done|].
      intros y. by rewrite Hm, elem_of_app.
Qed.

(** X13: a union returns a collection in canonical form in which every cell
    of either operand is present or has an ancestor; without compression
    it holds exactly the cells of the operands that have no proper ancestor
    among them. *)
Theorem union_members (S T : CellCollection) (LS LT : list suid) (b : bool) :
  holds S LS → holds T LT →
  ∃ R L, CellCollection_add S (OpColl T) b = Ok R
         ∧ holds R L ∧ canonical_form L
         ∧ (∀ x, x ∈ LS ∨ x ∈ LT → ∃ y, y ∈ L ∧ y `prefix_of` x)
         ∧ (b = false →
            ∀ x, x ∈ L ↔ (x ∈ LS ∨ x ∈ LT) ∧ ¬ has_ancestor x (LS ++ LT)).
Proof. apply CellCollection_add_spec. Qed.

Lemma rfold_const {A St} (f : St → A → result St) l s :
  (∀ s x, f s x = Ok s) → rfold f l s = Ok s.
Proof.
  intros Hf. induction l as [|x l IH]; [done|]. cbn [rfold].
  by rewrite Hf, rbind_Ok.
Qed.

(** X14: subtracting an empty collection does not give the collection
    back. When the empty collection was built from an empty list, as the
    result of a difference is, the difference is the empty sentinel; when
    it was built with no argument and the left operand has cells, a type
    error is raised. *)
Theorem difference_by_empty (S : CellCollection) (cs : list Cell) (b : bool) :
  cells S = Some cs →
  CellCollection_sub S (OpColl (empty_collection (ArgCells []))) b
  = Ok (empty_collection (ArgCells []))
  ∧ (cs ≠ [] →
     CellCollection_sub S (OpColl (empty_collection ArgNone)) b = Raise TypeError).
Proof.
  intros Hcs. unfold CellCollection_sub. cbn [validate_other]. rewrite !rbind_Ok.
  change (depth_bound (empty_collection (ArgCells []))) with 1%nat.
  change (depth_bound (empty_collection ArgNone)) with 1%nat.
  rewrite Hcs. cbn [progressively_intersect iter_cells empty_collection arg_cells cells].
  rewrite !rbind_Ok. split.
  - rewrite rfold_const by done. rewrite rbind_Ok.
    cbn [cells_to_retain cells_to_remove list_difference].
    by rewrite set_to_list_nil.
  - intros Hne. destruct cs as [|c cs]; [done|]. done.
Qed.

End operators.

Lemma union_members_witness :
  ∃ R L, @CellCollection_add first_seen
           (collection_of [[Lbl "P"; Dig 1]; [Lbl "Q"; Dig 3; Dig 3]])
           (OpColl (collection_of [[Lbl "Q"; Dig 3]])) false = Ok R
         ∧ holds R L ∧ canonical_form L
         ∧ (∀ x, x ∈ [[Lbl "P"; Dig 1]; [Lbl "Q"; Dig 3; Dig 3]] ∨ x ∈ [[Lbl "Q"; Dig 3]] →
              ∃ y, y ∈ L ∧ y `prefix_of` x)
         ∧ (∀ x, x ∈ L ↔
              (x ∈ [[Lbl "P"; Dig 1]; [Lbl "Q"; Dig 3; Dig 3]] ∨ x ∈ [[Lbl "Q"; Dig 3]])
              ∧ ¬ has_ancestor x
                    ([[Lbl "P"; Dig 1]; [Lbl "Q"; Dig 3; Dig 3]] ++ [[Lbl "Q"; Dig 3]])).
Proof.
  destruct (@union_members first_seen
              (collection_of [[Lbl "P"; Dig 1]; [Lbl "Q"; Dig 3; Dig 3]])
              (collection_of [[Lbl "Q"; Dig 3]])
              [[Lbl "P"; Dig 1]; [Lbl "Q"; Dig 3; Dig 3]] [[Lbl "Q"; Dig 3]] false)
    as (R & L & H1 & H2 & H3 & H4 & H5).
  - split; [by repeat constructor|]. right. by split.
  - split; [by repeat constructor|]. right. by split.
  - exists R, L. split; [exact H1|]. split; [exact H2|]. split; [exact H3|].
    split; [exact H4|]. apply H5. reflexivity.
Defined.

Lemma difference_by_empty_witness :
  @CellCollection_sub first_seen (collection_of [[Lbl "P"; Dig 1]])
    (OpColl (empty_collection (ArgCells []))) true
  = Ok (empty_collection (ArgCells []))
  ∧ @CellCollection_sub first_seen (collection_of [[Lbl "P"; Dig 1]])
      (OpColl (empty_collection ArgNone)) true = Raise TypeError.
Proof.
  destruct (@difference_by_empty first_seen (collection_of [[Lbl "P"; Dig 1]])
              [mkCell [Lbl "P"; Dig 1]] true) as [H1 H2]; [reflexivity|].
  split; [exact H1|]. apply H2. discriminate.
Defined.

(** * Children *)

(** ** The cells below a cell *)

Lemma flat_map_cons_elem {A} (l : list A) (P : list (list A)) x :
  x ∈ flat_map (λ a, cons a <$> P) l ↔ ∃ a i, x = a :: i ∧ a ∈ l ∧ i ∈ P.
Proof.
  rewrite list_elem_of_In, in_flat_map. split.
  - intros (a & Ha%list_elem_of_In & (i & -> & Hi)%list_elem_of_In%list_elem_of_fmap).
    by exists a, i.
  - intros (a & i & -> & Ha & Hi). exists a. split; [by apply list_elem_of_In|].
    by apply list_elem_of_In, list_elem_of_fmap_2.
Qed.

Lemma product_repeat_elem {A} (l : list A) n x :
  x ∈ product_repeat l n ↔ length x = n ∧ Forall (λ a, a ∈ l) x.
Proof.
  revert x. induction n as [|n IH]; intros x; cbn [product_repeat].
  - rewrite list_elem_of_singleton. split; [by intros ->|].
    intros [Hl _]. by destruct x.
  - rewrite flat_map_cons_elem. split.
    + intros (a & i & -> & Ha & [Hi Hf]%IH). cbn. split; [by f_equal|by constructor].
    + intros [Hl Hf]. destruct x as [|a i]; [done|].
      apply Forall_cons in Hf as [Ha Hf]. exists a, i.
      split; [done|]. split; [done|]. apply IH. split; [by injection Hl|done].
Qed.

Lemma flat_map_cons_NoDup {A} (l : list A) (P : list (list A)) :
  NoDup l → NoDup P → NoDup (flat_map (λ a, cons a <$> P) l).
Proof.
  intros Hl HP. induction Hl as [|a l Ha Hl IH]; [constructor|].
  cbn [flat_map]. apply NoDup_app. split; [|split; [|done]].
  - by apply (NoDup_fmap_2 _).
  - intros x (i & -> & _)%list_elem_of_fmap (a' & i' & [= <- <-] & Ha' & _)%flat_map_cons_elem.
    done.
Qed.

Lemma product_repeat_NoDup {A} (l : list A) n :
  NoDup l → NoDup (product_repeat l n).
Proof.
  intros Hl. induction n as [|n IH]; cbn [product_repeat].
  - apply NoDup_singleton.
  - by apply flat_map_cons_NoDup.
Qed.

Lemma product_repeat_length {A} (l : list A) n :
  length (product_repeat l n) = (length l ^ n)%nat.
Proof.
  induction n as [|n IH]; [done|]. cbn [product_repeat Nat.pow].
  rewrite <-IH. generalize (product_repeat l n). clear IH. intros P.
  induction l as [|a l IHl]; [done|]. cbn [flat_map length].
  rewrite length_app, length_fmap, IHl. lia.
Qed.

Lemma descendants_elem t n x :
  x ∈ descendants t n ↔
  ∃ i, x = t ++ (Dig <$> i) ∧ length i = n ∧ Forall (λ k, k < 9)%nat i.
Proof.
  unfold descendants. rewrite list_elem_of_fmap.
  split; intros (i & -> & Hi); exists i; (split; [done|]).
  - apply product_repeat_elem in Hi as [Hl Hf]. split; [done|].
    eapply Forall_impl; [done|]. intros k Hk%elem_of_seq. lia.
  - apply product_repeat_elem. destruct Hi as [Hl Hf]. split; [done|].
    eapply Forall_impl; [done|]. intros k Hk. apply elem_of_seq. cbn in Hk. lia.
Qed.

Lemma descendants_length t n : length (descendants t n) = (9 ^ n)%nat.
Proof. unfold descendants. by rewrite length_fmap, product_repeat_length. Qed.

Lemma descendants_NoDup t n : NoDup (descendants t n).
Proof.
  unfold descendants. apply NoDup_fmap_2_strong.
  - intros i j _ _ Hij. apply app_inv_head in Hij. by apply (inj (fmap Dig)) in Hij.
  - apply product_repeat_NoDup, NoDup_seq.
Qed.

Lemma valid_suid_app t i :
  valid_suid t → Forall (λ k, k < 9)%nat i → valid_suid (t ++ (Dig <$> i)).
Proof.
  intros (f & ds & -> & Hf & Hds)%valid_suid_inv Hi. apply valid_suid_inv.
  exists f, (ds ++ i). rewrite fmap_app. split; [done|]. split; [done|].
  by apply Forall_app.
Qed.

Lemma descendants_valid t n : valid_suid t → Forall valid_suid (descendants t n).
Proof.
  intros Hv. apply Forall_forall. intros x (i & -> & _ & Hi)%descendants_elem.
  by apply valid_suid_app.
Qed.

(** The cells [n] levels below a valid cell are the valid cells of that
    depth that the cell is a prefix of. *)
Lemma descendants_spec t n x :
  valid_suid t →
  x ∈ descendants t n ↔
  valid_suid x ∧ length x = (length t + n)%nat ∧ t `prefix_of` x.
Proof.
  intros Hv. rewrite descendants_elem. split.
  - intros (i & -> & Hl & Hi). split; [by apply valid_suid_app|].
    split; [by rewrite length_app, length_fmap, Hl|by eexists].
  - intros (Hx & Hl & [k ->]).
    apply valid_suid_inv in Hv as (f & ds & -> & Hf & Hds).
    apply valid_suid_inv in Hx as (f' & ds' & [= <- E] & _ & Hds').
    symmetry in E. apply fmap_app_inv in E as (l1 & i & _ & -> & ->).
    exists i. split; [done|]. rewrite length_app, length_fmap in Hl.
    split; [lia|]. by apply Forall_app in Hds' as [_ ?].
Qed.

Lemma descendants_no_ancestor t n x :
  x ∈ descendants t n → ¬ has_ancestor x (descendants t n).
Proof.
  intros (i & -> & Hl & _)%descendants_elem (j & Hj & (i' & E & Hl' & _)%descendants_elem)%has_ancestor_alt.
  apply (f_equal length) in E. rewrite length_take, !length_app, !length_fmap in E.
  rewrite length_app, length_fmap in Hj. lia.
Qed.

Lemma digits_str_app ds i :
  digits_str (ds ++ i) = digits_str ds +:+ digits_str i.
Proof. induction ds as [|d ds IH]; [done|]. cbn [app digits_str]. by rewrite IH. Qed.

Lemma repr_suid_app t i :
  valid_suid t → Forall (λ k, k < 9)%nat i →
  repr_suid (t ++ (Dig <$> i)) = Cell_repr (mkCell t) +:+ str_digits i.
Proof.
  intros (f & ds & -> & Hf & Hds)%valid_suid_inv Hi.
  unfold repr_suid. rewrite <-app_comm_cons, <-fmap_app.
  rewrite !Cell_repr_valid, str_digits_eq by (done || by apply Forall_app).
  by rewrite digits_str_app.
Qed.

(** ** [Cell.children] at a resolution *)

Global Instance mkCell_inj : Inj (=) (=) mkCell.
Proof. by intros ?? [= ->]. Qed.

Section children.
Context `{SO : SetOrder}.

(** A sequence without duplicates in which no suid lies below another is
    only sorted by the constructor. *)
Lemma canonical_flat D :
  NoDup D → (∀ x, x ∈ D → ¬ has_ancestor x D) →
  canonical false D ≡ₚ D ∧ ∀ x, x ∈ canonical false D ↔ x ∈ D.
Proof.
  intros Hnd Hna. destruct (canonical_elem false D) as (Hcn & _ & Hc).
  assert (∀ x, x ∈ canonical false D ↔ x ∈ D) as Hm.
  { intros x. rewrite Hc. cbn [pre_absorb]. split; [tauto|]. intros Hx.
    split; [done|by apply Hna]. }
  split; [|done]. by apply NoDup_Permutation.
Qed.

Lemma descendants_nonempty t n : descendants t n ≠ [].
Proof.
  intros E. apply (f_equal length) in E. rewrite descendants_length in E.
  cbn in E. pose proof (Nat.pow_nonzero 9 n). lia.
Qed.

Lemma Cell_children_some c r :
  valid_cell c → (resolution c < r)%Z →
  Cell_children c (Some r)
  = Ok (OpColl (collection_of
          (canonical false
             (descendants (cell_suids c) (Z.to_nat (r - resolution c)))))).
Proof.
  destruct c as [t]. unfold valid_cell. cbn [cell_suids]. intros Hv Hr.
  unfold Cell_children.
  rewrite (proj2 (Z.eqb_neq _ _)) by lia. rewrite (proj2 (Z.ltb_ge _ _)) by lia.
  change (N_sides ^ 2)%nat with 9%nat.
  set (n := Z.to_nat (r - resolution {| cell_suids := t |})).
  assert ((λ i, Cell_repr {| cell_suids := t |} +:+ str_digits i)
            <$> product_repeat (seq 0 9) n
          = repr_suid <$> descendants t n) as ->.
  { unfold descendants. rewrite <-list_fmap_compose.
    apply Forall_fmap_ext_1, Forall_forall. intros i [_ Hi]%product_repeat_elem.
    unfold compose. rewrite repr_suid_app; [done|done|].
    eapply Forall_impl; [done|]. intros k Hk%elem_of_seq. lia. }
  rewrite CellCollection_init_strs;
    [|apply descendants_nonempty|by apply descendants_valid].
  rewrite CellCollection_init_valid.
  - by rewrite fmap_cell_suids.
  - intros E%fmap_nil_inv. by apply descendants_nonempty in E.
  - by apply Forall_valid_cell, descendants_valid.
  - done.
Qed.

(** X15: [children(resolution)] of a valid cell raises a value error below
    the resolution of the cell, returns the cell itself at its resolution,
    and above it returns the collection of the valid cells of that
    resolution that the cell contains, nine to the power of the difference
    in number. *)
Theorem Cell_children_at (c : Cell) (r : Z) :
  valid_cell c →
  ((r < resolution c)%Z → Cell_children c (Some r) = Raise ValueError)
  ∧ (r = resolution c → Cell_children c (Some r) = Ok (OpCell c))
  ∧ ((resolution c < r)%Z →
     ∃ ch cs, Cell_children c (Some r) = Ok (OpColl ch)
              ∧ cells ch = Some cs
              ∧ length cs = (9 ^ Z.to_nat (r - resolution c))%nat
              ∧ ∀ x, x ∈ cs ↔
                  valid_cell x ∧ resolution x = r
                  ∧ cell_suids c `prefix_of` cell_suids x).
Proof.
  intros Hv. split; [|split].
  - intros Hr. unfold Cell_children.
    rewrite (proj2 (Z.eqb_neq _ _)) by lia. by rewrite (proj2 (Z.ltb_lt _ _)) by lia.
  - intros ->. unfold Cell_children. by rewrite Z.sub_diag.
  - intros Hr. eexists _, _. split; [by apply Cell_children_some|].
    split; [reflexivity|].
    set (n := Z.to_nat (r - resolution c)).
    destruct (canonical_flat (descendants (cell_suids c) n)) as [Hp Hm].
    { apply descendants_NoDup. }
    { intros x. apply descendants_no_ancestor. }
    split; [by rewrite length_fmap, Hp, descendants_length|].
    intros [x]. rewrite (list_elem_of_fmap_inj _), Hm, descendants_spec by done.
    unfold valid_cell, resolution. cbn [cell_suids].
    assert (length (cell_suids c) ≠ 0%nat).
    { apply valid_suid_inv in Hv as (f & ds & -> & _). done. }
    unfold resolution in Hr, n. split; intros (? & ? & ?); (split; [done|]);
      (split; [lia|done]).
Qed.

End children.

Lemma Cell_children_at_witness :
  @Cell_children first_seen (mkCell [Lbl "P"; Dig 4]) (Some 0%Z) = Raise ValueError
  ∧ @Cell_children first_seen (mkCell [Lbl "P"; Dig 4]) (Some 1%Z)
    = Ok (OpCell (mkCell [Lbl "P"; Dig 4]))
  ∧ ∃ ch cs, @Cell_children first_seen (mkCell [Lbl "P"; Dig 4]) (Some 3%Z)
             = Ok (OpColl ch)
             ∧ cells ch = Some cs
             ∧ length cs = 81%nat
             ∧ ∀ x, x ∈ cs ↔
                 valid_cell x ∧ resolution x = 3%Z
                 ∧ [Lbl "P"; Dig 4] `prefix_of` cell_suids x.
Proof.
  split; [|split].
  - apply (@Cell_children_at first_seen (mkCell [Lbl "P"; Dig 4]) 0); reflexivity.
  - apply (@Cell_children_at first_seen (mkCell [Lbl "P"; Dig 4]) 1); reflexivity.
  - apply (@Cell_children_at first_seen (mkCell [Lbl "P"; Dig 4]) 3); reflexivity.
Defined.

(** ** The children of a collection *)

Section collection_children.
Context `{SO : SetOrder}.

Lemma canonical_singleton b t : canonical b [t] = [t].
Proof.
  apply canonical_unique.
  - apply NoDup_singleton.
  - intros x. replace (pre_absorb b [t]) with [t] by by destruct b.
    rewrite list_elem_of_singleton. split; [|tauto].
    intros ->. split; [done|apply no_ancestor_self].
  - repeat constructor.
  - by intros x y ->%list_elem_of_singleton ->%list_elem_of_singleton.
Qed.

Lemma CellCollection_init_cell c :
  valid_cell c →
  CellCollection_init (ArgCell c) None None true = Ok (collection_of [cell_suids c]).
Proof.
  intros Hv.
  change (CellCollection_init (ArgCell c) None None true)
    with (CellCollection_init (ArgCells [c]) None None true).
  rewrite CellCollection_init_valid; [|done|by constructor|].
  2:{ intros _.
      assert (length (siblings [] (cell_suids <$> [c]))
              ≤ length (cell_suids <$> [c]))%nat as Hf by apply length_filter.
      cbn [fmap list_fmap length] in *. lia. }
  cbn [fmap list_fmap]. by rewrite canonical_singleton.
Qed.

Lemma CellCollection_add_cell acc c b :
  valid_cell c →
  CellCollection_add acc (OpCell c) b
  = CellCollection_add acc (OpColl (collection_of [cell_suids c])) b.
Proof.
  intros Hv. unfold CellCollection_add. cbn [validate_other].
  by rewrite CellCollection_init_cell.
Qed.

Lemma holds_collection_of L :
  Forall valid_suid L → L ≠ [] → holds (collection_of L) L.
Proof. intros Hv Hne. split; [done|]. right. by split. Qed.

Lemma Cell_children_level res t :
  valid_suid t →
  (∀ r, res = Some r → (resolution (mkCell t) ≤ r)%Z) →
  ∃ op LT,
    Cell_children (mkCell t) res = Ok op
    ∧ (∀ acc b, CellCollection_add acc op b
                = CellCollection_add acc (OpColl (collection_of LT)) b)
    ∧ holds (collection_of LT) LT
    ∧ ∀ x, x ∈ LT ↔ x ∈ level res t.
Proof.
  intros Hv Hr.
  assert (∀ r, (resolution (mkCell t) < r)%Z →
            ∃ op LT,
              Cell_children (mkCell t) (Some r) = Ok op
              ∧ (∀ acc b, CellCollection_add acc op b
                          = CellCollection_add acc (OpColl (collection_of LT)) b)
              ∧ holds (collection_of LT) LT
              ∧ ∀ x, x ∈ LT ↔ x ∈ level (Some r) t) as Hsome.
  { intros r Hlt. eexists _, _. split; [by apply Cell_children_some|].
    split; [done|]. cbn [cell_suids]. unfold level.
    destruct (canonical_flat (descendants t (Z.to_nat (r - resolution (mkCell t)))))
      as [Hp Hm].
    { apply descendants_NoDup. }
    { intros x. apply descendants_no_ancestor. }
    split; [|done]. apply holds_collection_of.
    - apply Forall_forall. intros x Hx%Hm.
      eapply Forall_forall in Hx; [done|]. by apply descendants_valid.
    - intros E. apply (f_equal length) in E. rewrite Hp, descendants_length in E.
      cbn in E. pose proof (Nat.pow_nonzero 9 (Z.to_nat (r - resolution (mkCell t)))).
      lia. }
  destruct res as [r|].
  - destruct (decide (r = resolution (mkCell t))) as [->|Hne].
    + exists (OpCell (mkCell t)), [t]. split.
      { unfold Cell_children. by rewrite Z.sub_diag. }
      split; [intros acc b; by apply CellCollection_add_cell|].
      split; [by apply holds_collection_of; [constructor|]|].
      intros x. unfold level. rewrite Z.sub_diag. change (Z.to_nat 0) with 0%nat.
      unfold descendants. cbn [product_repeat fmap list_fmap]. by rewrite app_nil_r.
    + apply Hsome. specialize (Hr r eq_refl). lia.
  - destruct (Hsome (resolution (mkCell t) + 1)%Z ltac:(lia))
      as (op & LT & Hop & Hadd & Hh & Hm).
    exists op, LT. split; [|split; [done|split; [done|]]].
    + rewrite <-Hop. unfold Cell_children.
      by replace (resolution (mkCell t) + 1 - resolution (mkCell t))%Z with 1%Z by lia.
    + intros x. rewrite Hm. unfold level.
      by replace (resolution (mkCell t) + 1 - resolution (mkCell t))%Z with 1%Z by lia.
Qed.

(** One iteration of the loop of [CellCollection.children]. *)
Lemma children_step res acc LA t :
  holds acc LA → valid_suid t →
  (∀ r, res = Some r → (resolution (mkCell t) ≤ r)%Z) →
  ∃ acc' LA',
    (ch ← Cell_children (mkCell t) res; CellCollection_add acc ch false) = Ok acc'
    ∧ holds acc' LA' ∧ canonical_form LA'
    ∧ ∀ x, x ∈ LA' ↔
        (x ∈ LA ∨ x ∈ level res t) ∧ ¬ has_ancestor x (LA ++ level res t).
Proof.
  intros Hacc Hv Hr.
  destruct (Cell_children_level res t Hv Hr) as (op & LT & Hop & Hadd & HT & Hm).
  destruct (CellCollection_add_spec acc (collection_of LT) LA LT false Hacc HT)
    as (R & L & HR & HL & Hcan & _ & Hex).
  exists R, L. rewrite Hop, rbind_Ok, Hadd. split; [done|]. split; [done|].
  split; [done|]. intros x. rewrite (Hex eq_refl), Hm.
  rewrite (has_ancestor_ext x (LA ++ LT) (LA ++ level res t)); [done|].
  intros y. by rewrite !elem_of_app, Hm.
Qed.

Lemma has_ancestor_mono x l1 l2 :
  (∀ y, y ∈ l1 → y ∈ l2) → has_ancestor x l1 → has_ancestor x l2.
Proof.
  intros Hsub (i & Hi & Hin)%has_ancestor_alt. apply has_ancestor_alt.
  exists i. split; [done|by apply Hsub].
Qed.

Lemma canonical_form_nil : canonical_form [].
Proof.
  split; [constructor|]. split; [by intros x ?%elem_of_nil|constructor].
Qed.

(** The loop of [CellCollection.children], when no cell it adds lies below
    another one. *)
Lemma children_fold res U ts acc LA :
  Forall valid_suid ts →
  (∀ r t, res = Some r → t ∈ ts → (resolution (mkCell t) ≤ r)%Z) →
  holds acc LA → canonical_form LA →
  (∀ x, x ∈ LA → x ∈ U) →
  (∀ t x, t ∈ ts → x ∈ level res t → x ∈ U) →
  (∀ x, x ∈ U → ¬ has_ancestor x U) →
  ∃ R LR,
    rfold (λ children cell,
             ch ← Cell_children cell res; CellCollection_add children ch false)
          (mkCell <$> ts) acc = Ok R
    ∧ holds R LR ∧ canonical_form LR
    ∧ ∀ x, x ∈ LR ↔ x ∈ LA ∨ ∃ t, t ∈ ts ∧ x ∈ level res t.
Proof.
  intros Hv. revert acc LA.
  induction Hv as [|t ts Ht Hv IH]; intros acc LA Hr Hacc Hcan HLA Hlev Hfree.
  { exists acc, LA. split; [done|]. split; [done|]. split; [done|].
    intros x. split; [by left|]. intros [?|(t & []%elem_of_nil & _)]. done. }
  destruct (children_step res acc LA t Hacc Ht) as (acc' & LA' & Hstep & Hacc' & Hcan' & Hm).
  { intros r Hres. apply (Hr r); [done|by left]. }
  assert (∀ x, x ∈ LA' ↔ x ∈ LA ∨ x ∈ level res t) as Hm'.
  { intros x. rewrite Hm. split; [tauto|]. intros Hx. split; [done|].
    intros Ha. apply (Hfree x).
    - destruct Hx as [Hx|Hx]; [by apply HLA|]. apply (Hlev t); [by left|done].
    - eapply has_ancestor_mono; [|done]. intros y [Hy|Hy]%elem_of_app; [by apply HLA|].
      apply (Hlev t); [by left|done]. }
  destruct (IH acc' LA') as (R & LR & HR & HhR & HcR & HmR); try done.
  - intros r t' Hres Ht'. apply (Hr r); [done|by right].
  - intros x [Hx|Hx]%Hm'; [by apply HLA|]. apply (Hlev t); [by left|done].
  - intros t' x Ht'. apply Hlev. by right.
  - exists R, LR. rewrite fmap_cons. cbn [rfold]. rewrite Hstep, rbind_Ok.
    split; [done|]. split; [done|]. split; [done|].
    intros x. rewrite HmR, Hm'. split.
    + intros [[Hx|Hx]|(t' & Ht' & Hx)]; [by left|right..].
      * exists t. split; [by left|done].
      * exists t'. split; [by right|done].
    + intros [Hx|(t' & [->|Ht']%elem_of_cons & Hx)]; [by left; left|by left; right|].
      right. by exists t'.
Qed.

Lemma level_length res t x :
  valid_suid t → x ∈ level res t →
  length x = (length t + match res with
                         | None => 1
                         | Some r => Z.to_nat (r - resolution (mkCell t))
                         end)%nat.
Proof.
  intros Hv Hx. unfold level in Hx. apply descendants_spec in Hx as (_ & Hl & _); done.
Qed.

(** What [CellCollection.children] returns. *)
Lemma CellCollection_children_spec S L res :
  holds S L → L ≠ [] →
  (res = None → ∀ x, x ∈ L → ¬ has_ancestor x L) →
  (∀ r t, res = Some r → t ∈ L → (resolution (mkCell t) ≤ r)%Z) →
  ∃ R LR, CellCollection_children S res = Ok R
          ∧ holds R LR ∧ canonical_form LR
          ∧ ∀ x, x ∈ LR ↔ ∃ t, t ∈ L ∧ x ∈ level res t.
Proof.
  intros [Hv [[-> _]|[_ ->]]] Hne Hnone Hsome; [done|].
  unfold CellCollection_children.
  change (CellCollection_init ArgNone None None true) with (Ok (empty_collection ArgNone)).
  rewrite rbind_Ok. cbn [cells collection_of iter_cells]. rewrite rbind_Ok.
  set (U := flat_map (level res) L).
  assert (∀ x, x ∈ U ↔ ∃ t, t ∈ L ∧ x ∈ level res t) as HU.
  { intros x. unfold U. rewrite list_elem_of_In, in_flat_map.
    by setoid_rewrite list_elem_of_In. }
  destruct (children_fold res U L (empty_collection ArgNone) []) as (R & LR & HR & Hh & Hc & Hm);
    try done.
  - split; [done|]. left. split; [done|]. by eexists.
  - apply canonical_form_nil.
  - by intros x ?%elem_of_nil.
  - intros t x Ht Hx. apply HU. by exists t.
  - intros x (t & Ht & Hx)%HU (i & Hi & (t' & Ht' & Hx')%HU)%has_ancestor_alt.
    eapply Forall_forall in Hv as Hvt; [|exact Ht].
    eapply Forall_forall in Hv as Hvt'; [|exact Ht'].
    pose proof (level_length res t x Hvt Hx) as Hl.
    pose proof (level_length res t' _ Hvt' Hx') as Hl'.
    rewrite length_take in Hl'.
    destruct res as [r|].
    + pose proof (Hsome r t eq_refl Ht). pose proof (Hsome r t' eq_refl Ht').
      unfold resolution in *. cbn [cell_suids] in *. lia.
    + apply (Hnone eq_refl t Ht). apply has_ancestor_alt.
      unfold level in Hx, Hx'.
      apply descendants_elem in Hx as (k & -> & Hk & _).
      apply descendants_elem in Hx' as (k' & E & Hk' & _).
      rewrite length_app, length_fmap in Hi, Hl'.
      assert (length t' ≠ 0%nat).
      { apply valid_suid_inv in Hvt' as (f & ds & -> & _). done. }
      exists (length t' - 1)%nat. split; [lia|].
      replace (S (length t' - 1)) with (length t') by lia.
      rewrite take_app_le in E by lia.
      apply (f_equal (take (length t'))) in E.
      rewrite take_take, take_app_length in E.
      replace (length t' `min` S i)%nat with (length t') in E by lia.
      by rewrite E.
  - exists R, LR. split; [done|]. split; [done|]. split; [done|].
    intros x. rewrite Hm. split; [by intros [?%elem_of_nil|?]|by right].
Qed.

End collection_children.

Lemma list_max_Z_spec (l : list Z) :
  l ≠ [] → ∃ m, list_max_Z l = Ok m ∧ m ∈ l ∧ ∀ x, x ∈ l → (x ≤ m)%Z.
Proof.
  destruct l as [|x0 l]; [done|]. intros _. cbn [list_max_Z]. eexists. split; [done|].
  revert x0. induction l as [|y l IH]; intros x0; cbn [foldl].
  - split; [by left|]. by intros x ->%list_elem_of_singleton.
  - destruct (IH (Z.max x0 y)) as [Hin Hle]. split.
    + apply elem_of_cons in Hin as [Hin|Hin]; [|by right; right].
      rewrite Hin. destruct (Z.max_spec x0 y) as [[_ ->]|[_ ->]]; [right|]; by left.
    + intros x [->|[->|Hx]%elem_of_cons]%elem_of_cons.
      * etrans; [apply (Z.le_max_l _ y)|]. apply Hle. by left.
      * etrans; [apply (Z.le_max_r x0)|]. apply Hle. by left.
      * apply Hle. by right.
Qed.

Lemma list_min_Z_spec (l : list Z) :
  l ≠ [] → ∃ m, list_min_Z l = Ok m ∧ m ∈ l ∧ ∀ x, x ∈ l → (m ≤ x)%Z.
Proof.
  destruct l as [|x0 l]; [done|]. intros _. cbn [list_min_Z]. eexists. split; [done|].
  revert x0. induction l as [|y l IH]; intros x0; cbn [foldl].
  - split; [by left|]. by intros x ->%list_elem_of_singleton.
  - destruct (IH (Z.min x0 y)) as [Hin Hle]. split.
    + apply elem_of_cons in Hin as [Hin|Hin]; [|by right; right].
      rewrite Hin. destruct (Z.min_spec x0 y) as [[_ ->]|[_ ->]]; [|right]; by left.
    + intros x [->|[->|Hx]%elem_of_cons]%elem_of_cons.
      * etrans; [|apply (Z.le_min_l _ y)]. apply Hle. by left.
      * etrans; [|apply (Z.le_min_r x0)]. apply Hle. by left.
      * apply Hle. by right.
Qed.

(** The extreme resolutions of a collection are those of two of its cells. *)
Lemma collection_of_resolutions L :
  L ≠ [] →
  ∃ mx mn, max_resolution (collection_of L) = Some mx
           ∧ min_resolution (collection_of L) = Some mn
           ∧ (∃ t, t ∈ L ∧ resolution (mkCell t) = mx)
           ∧ (∀ t, t ∈ L → (mn ≤ resolution (mkCell t) ≤ mx)%Z).
Proof.
  intros Hne.
  assert (resolution <$> (mkCell <$> L) ≠ []) as Hne' by by destruct L.
  destruct (list_max_Z_spec _ Hne') as (mx & Hmx & Hin & Hle).
  destruct (list_min_Z_spec _ Hne') as (mn & Hmn & _ & Hge).
  exists mx, mn. cbn [max_resolution min_resolution collection_of].
  rewrite Hmx, Hmn. split; [done|]. split; [done|]. split.
  - apply list_elem_of_fmap in Hin as (c & -> & (t & -> & Ht)%list_elem_of_fmap).
    by exists t.
  - intros t Ht. split; [apply Hge|apply Hle];
      by apply list_elem_of_fmap_2, list_elem_of_fmap_2.
Qed.

Lemma flat_map_NoDup {A B} (f : A → list B) (l : list A) :
  NoDup l → (∀ x, x ∈ l → NoDup (f x)) →
  (∀ x y z, x ∈ l → y ∈ l → z ∈ f x → z ∈ f y → x = y) →
  NoDup (flat_map f l).
Proof.
  intros Hl. induction Hl as [|a l Ha Hl IH]; intros Hf Hd; [constructor|].
  cbn [flat_map]. apply NoDup_app. split; [apply Hf; by left|]. split.
  - intros z Hz (y & Hy%list_elem_of_In & Hzy%list_elem_of_In)%list_elem_of_In%in_flat_map.
    apply Ha. rewrite (Hd a y z); [done|by left|by right|done|done].
  - apply IH.
    + intros x Hx. apply Hf. by right.
    + intros x y z Hx Hy. apply Hd; by right.
Qed.

Lemma flat_map_length_const {A B} (f : A → list B) (l : list A) k :
  (∀ x, x ∈ l → length (f x) = k) → length (flat_map f l) = (length l * k)%nat.
Proof.
  induction l as [|a l IH]; intros Hf; [done|]. cbn [flat_map length].
  rewrite length_app, Hf, IH; [lia| |by left]. intros x Hx. apply Hf. by right.
Qed.

Section children_of_collections.
Context `{SO : SetOrder}.

(** X16: the children of a collection of valid cells in canonical form, at
    a resolution that none of its cells exceeds (or at the next resolution
    of each cell, when none is given): the valid cells of that resolution
    that a cell of the collection contains, each one once; without a
    resolution, nine cells for each cell of the collection. *)
Theorem collection_children (S : CellCollection) (L : list suid) (res : option Z) :
  holds S L → L ≠ [] → canonical_form L →
  (∀ r t, res = Some r → t ∈ L → (resolution (mkCell t) ≤ r)%Z) →
  ∃ R cs, CellCollection_children S res = Ok R
          ∧ cells R = Some cs ∧ NoDup cs
          ∧ (∀ x, x ∈ cs ↔
               valid_cell x
               ∧ ∃ t, t ∈ L ∧ t `prefix_of` cell_suids x
                      ∧ resolution x = match res with
                                       | None => (resolution (mkCell t) + 1)%Z
                                       | Some r => r
                                       end)
          ∧ (res = None → length cs = (9 * length L)%nat).
Proof.
  intros HS Hne (Hnd & Hanc & _) Hres.
  pose proof HS as [Hv _].
  destruct (CellCollection_children_spec S L res HS Hne) as (R & LR & HR & Hh & Hc & Hm);
    [done|done|].
  assert (LR ≠ []) as HneR.
  { destruct L as [|t L']; [done|]. intros E.
    destruct (descendants_nonempty t
                match res with None => 1%nat
                | Some r => Z.to_nat (r - resolution (mkCell t)) end).
    fold (level res t). destruct (level res t) as [|x l] eqn:El; [done|].
    assert (x ∈ LR) as Hx; [|rewrite E in Hx; by apply elem_of_nil in Hx].
    apply Hm. exists t. split; [by left|]. rewrite El. by left. }
  destruct Hh as [HvR [[-> _]|[_ ->]]]; [done|].
  exists (collection_of LR), (mkCell <$> LR). split; [done|]. split; [done|].
  destruct Hc as (HndR & _ & _). split; [by apply (NoDup_fmap_2 _)|]. split.
  - intros [x]. rewrite (list_elem_of_fmap_inj _), Hm.
    unfold valid_cell. cbn [cell_suids]. split.
    + intros (t & Ht & Hx). eapply Forall_forall in Hv as Hvt; [|exact Ht].
      apply descendants_spec in Hx as (Hvx & Hl & Hp); [|done]. split; [done|].
      exists t. split; [done|]. split; [done|].
      unfold resolution in *. cbn [cell_suids] in *. destruct res as [r|]; [|lia].
      specialize (Hres r t eq_refl Ht). cbn [cell_suids] in Hres. lia.
    + intros (Hvx & t & Ht & Hp & Hr). exists t. split; [done|].
      eapply Forall_forall in Hv as Hvt; [|exact Ht].
      apply descendants_spec; [done|]. split; [done|]. split; [|done].
      unfold resolution in *. cbn [cell_suids] in *. destruct res as [r|]; [|lia].
      specialize (Hres r t eq_refl Ht). cbn [cell_suids] in Hres. lia.
  - intros ->. rewrite length_fmap.
    assert (LR ≡ₚ flat_map (level None) L) as ->.
    { apply NoDup_Permutation; [done| |].
      - apply flat_map_NoDup; [done|intros; apply descendants_NoDup|].
        intros x y z _ _ (i & -> & Hi & _)%descendants_elem (j & E & Hj & _)%descendants_elem.
        destruct i as [|a [|??]]; try done. destruct j as [|b [|??]]; try done.
        cbn in E. by apply app_inj_tail in E as [-> _].
      - intros x. rewrite Hm, list_elem_of_In, in_flat_map.
        by setoid_rewrite list_elem_of_In. }
    rewrite (flat_map_length_const _ _ 9); [lia|].
    intros t _. apply descendants_length.
Qed.

Lemma children_fold_fail r ts acc LA :
  Forall valid_suid ts → holds acc LA →
  (∃ t, t ∈ ts ∧ (r < resolution (mkCell t))%Z) →
  rfold (λ children cell,
           ch ← Cell_children cell (Some r); CellCollection_add children ch false)
        (mkCell <$> ts) acc = Raise ValueError.
Proof.
  intros Hv. revert acc LA. induction Hv as [|t ts Ht Hv IH]; intros acc LA Hacc Hex.
  { by destruct Hex as (t & []%elem_of_nil & _). }
  rewrite fmap_cons. cbn [rfold].
  destruct (decide (r < resolution (mkCell t))%Z) as [Hlt|Hge].
  - assert (Cell_children (mkCell t) (Some r) = Raise ValueError) as ->; [|done].
    unfold Cell_children.
    rewrite (proj2 (Z.eqb_neq _ _)) by lia. by rewrite (proj2 (Z.ltb_lt _ _)) by lia.
  - destruct (children_step (Some r) acc LA t Hacc Ht) as (acc' & LA' & -> & Hacc' & _).
    { intros ? [= <-]. lia. }
    rewrite rbind_Ok. apply (IH acc' LA' Hacc').
    destruct Hex as (t' & [->|Ht']%elem_of_cons & Hlt); [done|]. by exists t'.
Qed.

(** X17: [flatten] to a resolution below the maximum resolution of the
    collection raises a value error: directly below the minimum resolution,
    and otherwise from [children] of the first cell that is finer than the
    resolution asked for. *)
Theorem flatten_below_max (S : CellCollection) (L : list suid) (r mx : Z) :
  holds S L → L ≠ [] → max_resolution S = Some mx → (r < mx)%Z →
  CellCollection_flatten S (Some r) = Raise ValueError.
Proof.
  intros [Hv [[-> _]|[_ ->]]] Hne Hmx Hr; [done|].
  destruct (collection_of_resolutions L Hne) as (mx' & mn & Hmx' & Hmn & Hex & _).
  rewrite Hmx in Hmx'. injection Hmx' as <-.
  unfold CellCollection_flatten. rewrite rbind_Ok, Hmn, rbind_Ok.
  destruct (r <? mn)%Z; [done|].
  unfold CellCollection_children.
  change (CellCollection_init ArgNone None None true) with (Ok (empty_collection ArgNone)).
  rewrite rbind_Ok. cbn [cells collection_of iter_cells]. rewrite rbind_Ok.
  apply (children_fold_fail r L _ []); [done| |].
  - split; [done|]. left. split; [done|]. by eexists.
  - destruct Hex as (t & Ht & Hres). exists t. split; [done|lia].
Qed.

(** X18: [flatten] to a resolution [r] that is at least the maximum
    resolution of the collection (to the maximum resolution itself when
    none is given) returns the valid cells of resolution [r] that a cell
    of the collection contains, each one once. *)
Theorem flatten_cells (S : CellCollection) (L : list suid) (res : option Z) (mx : Z) :
  holds S L → L ≠ [] → max_resolution S = Some mx →
  (mx ≤ default mx res)%Z →
  ∃ R cs, CellCollection_flatten S res = Ok R
          ∧ cells R = Some cs ∧ NoDup cs
          ∧ ∀ x, x ∈ cs ↔
              valid_cell x ∧ resolution x = default mx res
              ∧ ∃ t, t ∈ L ∧ t `prefix_of` cell_suids x.
Proof.
  intros HS Hne Hmx Hr. pose proof HS as [Hv [[-> _]|[_ HSeq]]]; [done|].
  destruct (collection_of_resolutions L Hne) as (mx' & mn & Hmx' & Hmn & _ & Hle).
  rewrite <-HSeq, Hmx in Hmx'. injection Hmx' as <-. rewrite <-HSeq in Hmn.
  set (r := default mx res) in *.
  assert (CellCollection_flatten S res = CellCollection_children S (Some r)) as ->.
  { unfold CellCollection_flatten.
    assert (match res with
            | Some r0 => Ok r0
            | None => match max_resolution S with
                      | Some m => Ok m | None => Raise TypeError end
            end = Ok r) as ->.
    { unfold r. destruct res; [done|]. by rewrite Hmx. }
    rewrite rbind_Ok, Hmn, rbind_Ok.
    destruct L as [|t0 L']; [done|]. specialize (Hle t0 ltac:(by left)).
    by rewrite (proj2 (Z.ltb_ge _ _)) by lia. }
  destruct (CellCollection_children_spec S L (Some r) HS Hne) as (R & LR & HR & Hh & Hc & Hm).
  { done. }
  { intros r' t [= <-] Ht. specialize (Hle t Ht). lia. }
  assert (LR ≠ []) as HneR.
  { destruct L as [|t L']; [done|]. intros E.
    destruct (descendants_nonempty t (Z.to_nat (r - resolution (mkCell t)))).
    fold (level (Some r) t). destruct (level (Some r) t) as [|x l] eqn:El; [done|].
    assert (x ∈ LR) as Hx; [|rewrite E in Hx; by apply elem_of_nil in Hx].
    apply Hm. exists t. split; [by left|]. rewrite El. by left. }
  destruct Hh as [HvR [[-> _]|[_ ->]]]; [done|].
  exists (collection_of LR), (mkCell <$> LR). split; [done|]. split; [done|].
  destruct Hc as (HndR & _ & _). split; [by apply (NoDup_fmap_2 _)|].
  intros [x]. rewrite (list_elem_of_fmap_inj _), Hm.
  unfold valid_cell. cbn [cell_suids]. split.
  - intros (t & Ht & Hx). eapply Forall_forall in Hv as Hvt; [|exact Ht].
    apply descendants_spec in Hx as (Hvx & Hl & Hp); [|done]. split; [done|].
    specialize (Hle t Ht). split; [|by exists t].
    unfold resolution in *. cbn [cell_suids] in *. lia.
  - intros (Hvx & Hres & t & Ht & Hp). exists t. split; [done|].
    eapply Forall_forall in Hv as Hvt; [|exact Ht].
    apply descendants_spec; [done|]. split; [done|]. split; [|done].
    specialize (Hle t Ht). unfold resolution in *. cbn [cell_suids] in *. lia.
Qed.

End children_of_collections.

Section children_round_trip.
Context `{SO : SetOrder}.

(** Among the children of the cells of [L], the cells whose parent is [t]
    are nine when [t] is in [L] and none otherwise. *)
Lemma siblings_of_children L LR t :
  Forall valid_suid L → NoDup LR →
  (∀ x, x ∈ LR ↔ ∃ t, t ∈ L ∧ x ∈ level None t) →
  (t ∈ L → length (siblings t LR) = 9%nat)
  ∧ (t ∉ L → siblings t LR = []).
Proof.
  intros Hv Hnd Hm.
  assert (∀ x, x ∈ siblings t LR ↔ t ∈ L ∧ x ∈ child_suids t) as Hs.
  { intros x. unfold siblings. rewrite list_elem_of_filter, Hm, child_suids_elem. split.
    - intros [<- (t' & Ht' & (i & -> & Hi & Hlt)%descendants_elem)].
      destruct i as [|k [|??]]; try done. apply Forall_cons in Hlt as [Hlt _].
      cbn [fmap list_fmap]. rewrite removelast_last. split; [done|]. by exists k.
    - intros [Ht (k & Hk & ->)]. rewrite removelast_last. split; [done|].
      exists t. split; [done|]. apply descendants_elem. exists [k].
      split; [done|]. split; [done|]. by apply Forall_singleton. }
  split.
  - intros Ht. rewrite (NoDup_Permutation (siblings t LR) (child_suids t)).
    + unfold child_suids. by rewrite length_fmap, length_seq.
    + by apply NoDup_filter.
    + apply child_suids_NoDup.
    + intros x. rewrite Hs. tauto.
  - intros Ht. destruct (siblings t LR) as [|x l] eqn:E; [done|].
    destruct (Hs x) as [[? _] _]; [by left|done].
Qed.

(** X19: the children of a collection in canonical form, given back to the
    constructor with compression, are the cells of the collection again:
    the same suids up to order, and the same collection when no two of
    its cells share a sort key. *)
Theorem children_compress_round_trip (S : CellCollection) (L : list suid) :
  holds S L → L ≠ [] → canonical_form L →
  ∃ ch P, CellCollection_children S None = Ok ch
          ∧ CellCollection_len ch = (9 * CellCollection_len S)%nat
          ∧ CellCollection_init (ArgStrs (suids ch)) None None true = Ok P
          ∧ suids P ≡ₚ suids S
          ∧ (distinct_keys S → P = S).
Proof.
  intros HS Hne Hcan. pose proof Hcan as (Hnd & Hanc & Hsort).
  pose proof HS as [Hv [[-> _]|[_ HSeq]]]; [done|].
  destruct (CellCollection_children_spec S L None HS Hne) as (R & LR & HR & Hh & Hc & Hm);
    [done|done|].
  destruct Hc as (HndR & _ & _). pose proof Hh as [HvR _].
  assert (LR ≡ₚ flat_map (level None) L) as Hperm.
  { apply NoDup_Permutation; [done| |].
    - apply flat_map_NoDup; [done|intros; apply descendants_NoDup|].
      intros x y z _ _ (i & -> & Hi & _)%descendants_elem (j & E & Hj & _)%descendants_elem.
      destruct i as [|a [|??]]; try done. destruct j as [|b [|??]]; try done.
      cbn in E. by apply app_inj_tail in E as [-> _].
    - intros x. rewrite Hm, list_elem_of_In, in_flat_map.
      by setoid_rewrite list_elem_of_In. }
  assert (length LR = (9 * length L)%nat) as Hlen.
  { rewrite Hperm, (flat_map_length_const _ _ 9); [lia|].
    intros t _. apply descendants_length. }
  assert (LR ≠ []) as HneR.
  { intros E. rewrite E in Hlen. destruct L; [done|]. cbn in Hlen. lia. }
  assert (∀ x, x ∈ rhealpix_compress LR ↔ x ∈ L) as Hcomp.
  { intros x. rewrite rhealpix_compress_elem.
    destruct (siblings_of_children L LR x Hv HndR Hm) as [H9 H0]. split.
    - intros [[Hx Hn9]|Hx9].
      + apply Hm in Hx as (t & Ht & (i & -> & Hi & _)%descendants_elem).
        destruct i as [|k [|??]]; try done. cbn [fmap list_fmap] in Hn9.
        rewrite removelast_last in Hn9.
        by destruct (siblings_of_children L LR t Hv HndR Hm) as [H9' _]; apply H9' in Ht.
      + destruct (decide (x ∈ L)) as [|Hx]; [done|]. by rewrite H0 in Hx9.
    - intros Hx. right. by apply H9. }
  assert (∀ x, x ∈ L ↔ x ∈ pre_absorb true LR
                        ∧ ¬ has_ancestor x (pre_absorb true LR)) as Hmem.
  { intros x. cbn [pre_absorb]. rewrite Hcomp.
    rewrite (has_ancestor_ext x (rhealpix_compress LR) L) by done.
    split; [|tauto]. intros Hx. split; [done|by apply Hanc]. }
  assert (CellCollection_init (ArgStrs (suids R)) None None true
          = Ok (collection_of (canonical true LR))) as Hinit.
  { rewrite (holds_suids R LR Hh), CellCollection_init_strs by done.
    rewrite CellCollection_init_valid.
    - by rewrite fmap_cell_suids.
    - by destruct LR.
    - by apply Forall_valid_cell.
    - intros _. rewrite fmap_cell_suids. by apply siblings_top_NoDup. }
  destruct (canonical_elem true LR) as (Hcn & _ & Hce).
  assert (canonical true LR ≡ₚ L) as HpL.
  { apply NoDup_Permutation; [done|done|]. intros x. by rewrite Hce, <-Hmem. }
  exists R, (collection_of (canonical true LR)).
  split; [done|]. split; [|split; [done|split]].
  - unfold CellCollection_len. rewrite (holds_suids R LR Hh), (holds_suids S L HS).
    by rewrite !length_fmap.
  - rewrite HSeq. cbn [suids collection_of]. by rewrite HpL.
  - intros Hk. rewrite HSeq in Hk |- *. f_equal.
    apply canonical_unique; [done|done|done|].
    intros x y. by apply distinct_keys_collection_of.
Qed.

End children_round_trip.

Lemma canonical_form_Q_P1 : canonical_form [[Lbl "Q"]; [Lbl "P"; Dig 1]].
Proof.
  split; [|split].
  - apply (bool_decide_unpack _). by vm_compute.
  - intros x [->|[->|[]%elem_of_nil]%elem_of_cons]%elem_of_cons;
      apply (bool_decide_unpack _); by vm_compute.
  - repeat constructor. by vm_compute.
Defined.

Lemma holds_Q_P1 :
  holds (collection_of [[Lbl "Q"]; [Lbl "P"; Dig 1]]) [[Lbl "Q"]; [Lbl "P"; Dig 1]].
Proof. split; [by repeat constructor|]. right. by split. Defined.

Lemma collection_children_witness :
  ∃ R cs, @CellCollection_children first_seen
            (collection_of [[Lbl "Q"]; [Lbl "P"; Dig 1]]) None = Ok R
          ∧ cells R = Some cs ∧ NoDup cs
          ∧ (∀ x, x ∈ cs ↔
               valid_cell x
               ∧ ∃ t, t ∈ [[Lbl "Q"]; [Lbl "P"; Dig 1]] ∧ t `prefix_of` cell_suids x
                      ∧ resolution x = (resolution (mkCell t) + 1)%Z)
          ∧ length cs = 18%nat.
Proof.
  destruct (@collection_children first_seen
              (collection_of [[Lbl "Q"]; [Lbl "P"; Dig 1]])
              [[Lbl "Q"]; [Lbl "P"; Dig 1]] None)
    as (R & cs & H1 & H2 & H3 & H4 & H5).
  - exact holds_Q_P1.
  - discriminate.
  - exact canonical_form_Q_P1.
  - intros r t E. discriminate E.
  - exists R, cs. split; [exact H1|]. split; [exact H2|]. split; [exact H3|].
    split; [exact H4|]. apply H5. reflexivity.
Defined.

Lemma flatten_below_max_witness :
  @CellCollection_flatten first_seen
    (collection_of [[Lbl "Q"]; [Lbl "P"; Dig 1]]) (Some 0%Z) = Raise ValueError.
Proof.
  apply (@flatten_below_max first_seen (collection_of [[Lbl "Q"]; [Lbl "P"; Dig 1]])
           [[Lbl "Q"]; [Lbl "P"; Dig 1]] 0 1);
    [exact holds_Q_P1|discriminate|reflexivity|reflexivity].
Defined.

Lemma flatten_cells_witness :
  ∃ R cs, @CellCollection_flatten first_seen
            (collection_of [[Lbl "Q"]; [Lbl "P"; Dig 1]]) None = Ok R
          ∧ cells R = Some cs ∧ NoDup cs
          ∧ ∀ x, x ∈ cs ↔
              valid_cell x ∧ resolution x = 1%Z
              ∧ ∃ t, t ∈ [[Lbl "Q"]; [Lbl "P"; Dig 1]] ∧ t `prefix_of` cell_suids x.
Proof.
  apply (@flatten_cells first_seen (collection_of [[Lbl "Q"]; [Lbl "P"; Dig 1]])
           [[Lbl "Q"]; [Lbl "P"; Dig 1]] None 1);
    [exact holds_Q_P1|discriminate|reflexivity|discriminate].
Defined.

Lemma children_compress_round_trip_witness :
  ∃ ch P, @CellCollection_children first_seen
            (collection_of [[Lbl "Q"]; [Lbl "P"; Dig 1]]) None = Ok ch
          ∧ CellCollection_len ch = 18%nat
          ∧ @CellCollection_init first_seen (ArgStrs (suids ch)) None None true = Ok P
          ∧ suids P ≡ₚ ["Q"; "P1"]
          ∧ P = collection_of [[Lbl "Q"]; [Lbl "P"; Dig 1]].
Proof.
  destruct (@children_compress_round_trip first_seen
              (collection_of [[Lbl "Q"]; [Lbl "P"; Dig 1]])
              [[Lbl "Q"]; [Lbl "P"; Dig 1]])
    as (ch & P & H1 & H2 & H3 & H4 & H5).
  - exact holds_Q_P1.
  - discriminate.
  - exact canonical_form_Q_P1.
  - exists ch, P. split; [exact H1|]. split; [exact H2|]. split; [exact H3|].
    split; [exact H4|]. apply H5.
    apply distinct_keys_off_N; [by repeat constructor|].
    intros x [->|[->|[]%elem_of_nil]%elem_of_cons]%elem_of_cons; done.
Defined.

(** * Difference *)

(** ** What one comparison retains and removes *)

Lemma prefix_of_same_length {A} (a b : list A) :
  a `prefix_of` b → (length b ≤ length a)%nat → a = b.
Proof. intros [k ->]. rewrite length_app. destruct k; [by rewrite app_nil_r|cbn; lia]. Qed.

Lemma overlap_ge one two :
  zip_all_equal one two = true → (length two ≤ length one)%nat → two `prefix_of` one.
Proof.
  intros [H|H]%zip_all_equal_prefix Hl; [|done].
  by rewrite (prefix_of_same_length _ _ H Hl).
Qed.

Lemma overlap_lt one two :
  zip_all_equal one two = true → (length one < length two)%nat →
  one `prefix_of` two ∧ one ≠ two.
Proof.
  intros [H|H]%zip_all_equal_prefix Hl.
  - split; [done|]. intros ->. lia.
  - apply prefix_length in H. lia.
Qed.

Lemma prefix_overlap one two :
  one `prefix_of` two ∨ two `prefix_of` one → zip_all_equal one two = true.
Proof. by intros ?%zip_all_equal_prefix. Qed.

Lemma retained_no_overlap one two y :
  zip_all_equal one two = false → retained one two y ↔ y = one.
Proof.
  intros Ho. split; [|intros ->; by left].
  intros [[_ ->]|[Hp _]]; [done|]. rewrite prefix_overlap in Ho; [done|by left].
Qed.

Lemma removed_no_overlap one two y :
  zip_all_equal one two = false → ¬ removed one two y.
Proof.
  intros Ho [[Hp _]|[Hp _]]; rewrite prefix_overlap in Ho; done || by (left + right).
Qed.

Lemma retained_ge one two y : two `prefix_of` one → ¬ retained one two y.
Proof.
  intros Hp [[Ho _]|[Hp' (i & k & Hi & _)]].
  - rewrite prefix_overlap in Ho; [done|by right].
  - apply prefix_length in Hp. lia.
Qed.

Lemma removed_ge one two y : two `prefix_of` one → removed one two y ↔ y = one.
Proof.
  intros Hp. split; [|intros ->; by left].
  intros [[_ ->]|(Hp' & Hne & _)]; [done|]. destruct Hne.
  apply prefix_of_same_length; [done|by apply prefix_length].
Qed.

(** A valid suid that strictly extends a suid continues it with a digit. *)
Lemma valid_extension one two :
  valid_suid two → one ≠ [] → one `prefix_of` two → one ≠ two →
  ∃ k rest, (k < 9)%nat ∧ two = one ++ Dig k :: rest.
Proof.
  intros Hv Hne [ext ->] Hneq.
  destruct ext as [|e rest]; [by rewrite app_nil_r in Hneq|].
  apply valid_suid_inv in Hv as (f & ds & E & _ & Hds).
  destruct one as [|o one]; [done|]. injection E as -> E.
  symmetry in E. apply fmap_app_inv in E as (l1 & l2 & -> & E2 & ->).
  destruct l2 as [|k l2]; [done|]. injection E2 as -> ->.
  apply Forall_app in Hds as [_ Hds]. apply Forall_cons in Hds as [Hk _].
  by exists k, (Dig <$> l2).
Qed.

Lemma retained_children one two y :
  valid_suid two → one ≠ [] → one `prefix_of` two → one ≠ two →
  (∃ k, (k < 9)%nat ∧ retained (one ++ [Dig k]) two y) ↔ retained one two y.
Proof.
  intros Hv Hne Hp Hneq.
  destruct (valid_extension one two Hv Hne Hp Hneq) as (k0 & rest & Hk0 & ->).
  assert (∀ k, (one ++ Dig k0 :: rest) !! length one = Some (Dig k) ↔ k = k0) as Hat.
  { intros k. rewrite lookup_app_r, Nat.sub_diag by lia. cbn.
    split; [by intros [= ->]|by intros ->]. }
  split.
  - intros (k & Hk & [[Ho ->]|[Hp' (i & k' & Hi & Hk' & -> & Hn)]]); right; (split; [done|]).
    + exists (length one), k. rewrite length_app. cbn [length]. split; [lia|].
      split; [done|]. rewrite take_app_length. split; [done|].
      rewrite Hat. intros ->. rewrite prefix_overlap in Ho; [done|]. left.
      exists rest. by rewrite <-app_assoc.
    + exists i, k'. rewrite length_app in Hi. cbn [length] in Hi.
      split; [lia|]. done.
  - intros [[Ho _]|[_ (i & k & Hi & Hk & -> & Hn)]].
    { rewrite prefix_overlap in Ho; [done|by left]. }
    destruct (decide (i = length one)) as [->|Hi'].
    + exists k. split; [done|]. left. rewrite take_app_length. split; [|done].
      apply not_true_is_false. intros [H|H]%zip_all_equal_prefix.
      * destruct H as [ext H]. rewrite <-app_assoc in H. apply app_inv_head in H.
        injection H as -> _. by apply Hn, Hat.
      * apply Hn. rewrite length_app in Hi. cbn [length] in Hi.
        apply prefix_of_same_length in H; [|rewrite !length_app; cbn; lia].
        apply app_inv_head in H. injection H as -> _. by apply Hat.
    + exists k0. split; [done|]. right. split.
      * exists rest. by rewrite <-app_assoc.
      * exists i, k. rewrite length_app. cbn [length]. split; [lia|]. done.
Qed.

Lemma removed_children one two y :
  valid_suid two → one ≠ [] → one `prefix_of` two → one ≠ two →
  (∃ k, (k < 9)%nat ∧ removed (one ++ [Dig k]) two y) ↔ removed one two y.
Proof.
  intros Hv Hne Hp Hneq.
  destruct (valid_extension one two Hv Hne Hp Hneq) as (k0 & rest & Hk0 & ->).
  split.
  - intros (k & Hk & [[H ->]|(H & Hn & ->)]); right; (split; [done|split; [done|]]); [|done].
    symmetry. apply prefix_of_same_length; [done|].
    rewrite !length_app. cbn. lia.
  - intros [[H _]|(_ & _ & ->)].
    { apply prefix_length in H. rewrite length_app in H. cbn in H. lia. }
    exists k0. split; [done|]. destruct rest as [|e rest].
    + left. split; [|done]. done.
    + right. split; [exists (e :: rest); by rewrite <-app_assoc|]. split; [|done].
      intros E. apply app_inv_head in E. done.
Qed.

(** ** What the recursion collects *)

Lemma rfold_members {A St B} (f : St → A → result St) (g : St → list B)
    (P : A → B → Prop) l s s' :
  (∀ s x s1, x ∈ l → f s x = Ok s1 → ∀ y, y ∈ g s1 ↔ y ∈ g s ∨ P x y) →
  rfold f l s = Ok s' →
  ∀ y, y ∈ g s' ↔ y ∈ g s ∨ ∃ x, x ∈ l ∧ P x y.
Proof.
  revert s. induction l as [|x l IH]; intros s Hstep Hr y.
  - injection Hr as <-. split; [by left|]. by intros [?|(x & []%elem_of_nil & _)].
  - cbn [rfold] in Hr. apply rbind_ok in Hr as (s1 & Hx & Hr).
    rewrite (IH s1); [| |exact Hr].
    2:{ intros s2 x' s3 Hx'. apply Hstep. by right. }
    rewrite (Hstep s x s1 ltac:(by left) Hx). split.
    + intros [[Hy|Hy]|(x' & Hx' & Hy)]; [by left|right..].
      * exists x. split; [by left|done].
      * exists x'. split; [by right|done].
    + intros [Hy|(x' & [->|Hx']%elem_of_cons & Hy)]; [by left; left|by left; right|].
      right. by exists x'.
Qed.

Section difference_members.
Context `{SO : SetOrder}.

(** The two loops of one call, given what one comparison adds. *)
Lemma progressively_intersect_loops fuel ones twos st st' :
  (∀ s one two s1,
     one ∈ ones → two ∈ twos →
     (if Cell_overlaps one two then
        if (resolution one >=? resolution two)%Z then
          Ok (mkAccum (cells_to_retain s) (cells_to_remove s ++ [cell_suids one]))
        else
          ch ← Cell_children one None;
          children ← operand_cells ch;
          progressively_intersect fuel children (Some [two]) s
      else
        Ok (mkAccum (cells_to_retain s ++ [cell_suids one]) (cells_to_remove s)))
     = Ok s1 →
     (∀ y, y ∈ cells_to_retain s1 ↔
           y ∈ cells_to_retain s ∨ retained (cell_suids one) (cell_suids two) y)
     ∧ (∀ y, y ∈ cells_to_remove s1 ↔
             y ∈ cells_to_remove s ∨ removed (cell_suids one) (cell_suids two) y)) →
  progressively_intersect (S fuel) (Some ones) (Some twos) st = Ok st' →
  (∀ y, y ∈ cells_to_retain st' ↔
        y ∈ cells_to_retain st
        ∨ ∃ one, one ∈ ones ∧ ∃ two, two ∈ twos
                 ∧ retained (cell_suids one) (cell_suids two) y)
  ∧ (∀ y, y ∈ cells_to_remove st' ↔
          y ∈ cells_to_remove st
          ∨ ∃ one, one ∈ ones ∧ ∃ two, two ∈ twos
                   ∧ removed (cell_suids one) (cell_suids two) y).
Proof.
  intros Hinner. rewrite progressively_intersect_unfold.
  set (step := λ (st : accum) (cell_one : Cell), _). intros Hr. split.
  - apply (rfold_members step cells_to_retain
             (λ one y, ∃ two, two ∈ twos
                              ∧ retained (cell_suids one) (cell_suids two) y)
             ones st st'); [|done].
    intros s one s1 Hone Hs. unfold step in Hs.
    eapply (rfold_members _ cells_to_retain
              (λ two y, retained (cell_suids one) (cell_suids two) y) twos s s1);
      [|exact Hs].
    intros s2 two s3 Htwo H. by apply (Hinner s2 one two s3).
  - apply (rfold_members step cells_to_remove
             (λ one y, ∃ two, two ∈ twos
                              ∧ removed (cell_suids one) (cell_suids two) y)
             ones st st'); [|done].
    intros s one s1 Hone Hs. unfold step in Hs.
    eapply (rfold_members _ cells_to_remove
              (λ two y, removed (cell_suids one) (cell_suids two) y) twos s s1);
      [|exact Hs].
    intros s2 two s3 Htwo H. by apply (Hinner s2 one two s3).
Qed.

Lemma progressively_intersect_members fuel ones twos st st' :
  Forall valid_cell ones → Forall valid_cell twos →
  (∀ one two, one ∈ ones → two ∈ twos →
     (length (cell_suids two) ≤ length (cell_suids one) + fuel)%nat) →
  progressively_intersect (S fuel) (Some ones) (Some twos) st = Ok st' →
  (∀ y, y ∈ cells_to_retain st' ↔
        y ∈ cells_to_retain st
        ∨ ∃ one, one ∈ ones ∧ ∃ two, two ∈ twos
                 ∧ retained (cell_suids one) (cell_suids two) y)
  ∧ (∀ y, y ∈ cells_to_remove st' ↔
          y ∈ cells_to_remove st
          ∨ ∃ one, one ∈ ones ∧ ∃ two, two ∈ twos
                   ∧ removed (cell_suids one) (cell_suids two) y).
Proof.
  revert ones twos st st'. induction fuel as [|fuel IH];
    intros ones twos st st' Hones Htwos Hlen; apply progressively_intersect_loops.
  all: intros s [one] [two] s1 Hone Htwo; unfold Cell_overlaps; cbn [cell_suids];
       pose proof (Hlen _ _ Hone Htwo) as Hl; cbn [cell_suids] in Hl;
       eapply Forall_forall in Hones as Hv1; [|exact Hone];
       eapply Forall_forall in Htwos as Hv2; [|exact Htwo];
       unfold valid_cell in Hv1, Hv2; cbn [cell_suids] in Hv1, Hv2;
       destruct (zip_all_equal one two) eqn:Ho;
       [destruct (Z.geb_spec (resolution (mkCell one)) (resolution (mkCell two)))
          as [Hge|Hlt]; unfold resolution in *; cbn [cell_suids] in *|].
  - (* the second cell contains the first *)
    intros [= <-]. cbn [cells_to_retain cells_to_remove].
    assert (two `prefix_of` one) as Hp by (apply overlap_ge; [done|lia]).
    split; intros y.
    + split; [by left|]. intros [?|Hy]; [done|]. by apply retained_ge in Hy.
    + rewrite elem_of_app, list_elem_of_singleton, removed_ge by done. done.
  - lia.
  - intros [= <-]. cbn [cells_to_retain cells_to_remove]. split; intros y.
    + by rewrite elem_of_app, list_elem_of_singleton, retained_no_overlap.
    + split; [by left|]. intros [?|Hy]; [done|]. by apply removed_no_overlap in Hy.
  - intros [= <-]. cbn [cells_to_retain cells_to_remove].
    assert (two `prefix_of` one) as Hp by (apply overlap_ge; [done|lia]).
    split; intros y.
    + split; [by left|]. intros [?|Hy]; [done|]. by apply retained_ge in Hy.
    + rewrite elem_of_app, list_elem_of_singleton, removed_ge by done. done.
  - (* the first cell strictly contains the second: its children are compared *)
    rewrite Cell_children_default, rbind_Ok by done.
    cbn [operand_cells collection_of cells cell_suids]. rewrite rbind_Ok. intros Hrec.
    destruct (overlap_lt one two Ho ltac:(lia)) as [Hp Hne].
    assert (one ≠ []) as Hne1.
    { apply valid_suid_inv in Hv1 as (f & ds & -> & _). done. }
    apply IH in Hrec as [Hret Hrem].
    + split; intros y.
      * rewrite Hret, <-(retained_children one two y) by done.
        split; (intros [?|H]; [by left|right]).
        -- destruct H as (ch & (x & -> & (k & Hk & ->)%child_suids_elem)%list_elem_of_fmap
                          & two' & ->%list_elem_of_singleton & H).
           by exists k.
        -- destruct H as (k & Hk & H). exists (mkCell (one ++ [Dig k])).
           split; [apply list_elem_of_fmap_2, child_suids_elem; by exists k|].
           exists (mkCell two). split; [by left|done].
      * rewrite Hrem, <-(removed_children one two y) by done.
        split; (intros [?|H]; [by left|right]).
        -- destruct H as (ch & (x & -> & (k & Hk & ->)%child_suids_elem)%list_elem_of_fmap
                          & two' & ->%list_elem_of_singleton & H).
           by exists k.
        -- destruct H as (k & Hk & H). exists (mkCell (one ++ [Dig k])).
           split; [apply list_elem_of_fmap_2, child_suids_elem; by exists k|].
           exists (mkCell two). split; [by left|done].
    + apply Forall_valid_cell. by apply child_suids_valid.
    + by constructor.
    + intros ch two' (x & -> & (k & Hk & ->)%child_suids_elem)%list_elem_of_fmap
        ->%list_elem_of_singleton.
      cbn [cell_suids]. rewrite length_app. cbn [length]. lia.
  - intros [= <-]. cbn [cells_to_retain cells_to_remove]. split; intros y.
    + by rewrite elem_of_app, list_elem_of_singleton, retained_no_overlap.
    + split; [by left|]. intros [?|Hy]; [done|]. by apply removed_no_overlap in Hy.
Qed.

End difference_members.

(** ** What a difference holds *)

Lemma retained_inside one two y : retained one two y → one `prefix_of` y.
Proof.
  intros [[_ ->]|([ext ->] & i & k & Hi & _ & -> & _)]; [done|].
  rewrite take_app_ge by lia. rewrite <-app_assoc. by eexists.
Qed.

Lemma removed_inside one two y : removed one two y → one `prefix_of` y.
Proof. by intros [[_ ->]|(H & _ & ->)]. Qed.

Lemma removed_overlap one two y : removed one two y → two `prefix_of` y.
Proof. by intros [[H ->]|(_ & _ & ->)]. Qed.

Lemma retained_disjoint one two y :
  retained one two y → zip_all_equal y two = false.
Proof.
  intros [[Ho ->]|(Hp & i & k & Hi & Hk & -> & Hn)]; [done|].
  apply not_true_is_false. intros H. apply Hn.
  destruct (two !! i) as [e|] eqn:He; [|apply lookup_ge_None in He; lia]. f_equal.
  symmetry. apply (proj1 (zip_all_equal_lookup _ _) H i); [|done].

  apply (list_lookup_middle (take i two) [] (Dig k) i).
  rewrite length_take. lia.
Qed.

(** Where two suids that do not overlap first differ. *)
Lemma first_difference (x t : suid) :
  zip_all_equal x t = false →
  ∃ i a, x !! i = Some a ∧ (i < length t)%nat ∧ t !! i ≠ Some a
         ∧ take i x = take i t.
Proof.
  revert t. induction x as [|a x IH]; intros [|b t] H; try done.
  cbn [zip_all_equal] in H. destruct (decide (a = b)) as [->|Hne].
  - destruct (IH t H) as (i & c & Hc & Hi & Hn & Ht).
    exists (S i), c. cbn. split; [done|]. split; [lia|]. split; [done|]. by f_equal.
  - exists 0%nat, a. cbn. split; [done|]. split; [lia|]. split; [|done].
    by intros [= ->].
Qed.

(** Nine distinct valid cells under one parent are all of its children. *)
Lemma full_group_children U p :
  Forall valid_suid U → NoDup U → length (siblings p U) = 9%nat →
  p ≠ [] ∧ ∀ k, (k < 9)%nat → p ++ [Dig k] ∈ U.
Proof.
  intros Hv Hnd H9.
  assert (p ≠ []) as Hp.
  { intros ->. by apply (siblings_top_NoDup U). }
  split; [done|].
  assert (siblings p U ⊆ child_suids p) as Hsub.
  { intros x [Hx Hin]%list_elem_of_filter.
    eapply Forall_forall in Hv; [|exact Hin].
    apply valid_suid_inv in Hv as (f & ds & -> & Hf & Hds).
    destruct ds as [|d ds _] using rev_ind; [by destruct Hp|].
    rewrite fmap_app, app_comm_cons in Hx |- *. cbn [fmap list_fmap] in Hx |- *.
    rewrite removelast_last in Hx. subst p. apply child_suids_elem.
    exists d. split; [|done]. apply Forall_app in Hds as [_ Hd].
    by apply Forall_cons in Hd as [Hd _]. }
  assert (NoDup (siblings p U)) as Hnd' by by apply NoDup_filter.
  assert (siblings p U ≡ₚ child_suids p) as Hperm.
  { apply submseteq_length_Permutation; [by apply NoDup_submseteq|].
    unfold child_suids. rewrite length_fmap, length_seq. lia. }
  intros k Hk.
  assert (p ++ [Dig k] ∈ siblings p U) as [_ H]%list_elem_of_filter; [|done].
  rewrite Hperm. apply child_suids_elem. by exists k.
Qed.

Lemma valid_suid_digit x i a :
  valid_suid x → x !! i = Some a → (1 ≤ i)%nat → ∃ k, (k < 9)%nat ∧ a = Dig k.
Proof.
  intros (f & ds & -> & _ & Hds)%valid_suid_inv Ha Hi.
  destruct i as [|i]; [lia|]. cbn in Ha.
  apply list_lookup_fmap_Some in Ha as (k & -> & Hk).
  exists k. split; [|done]. by eapply Forall_lookup_1 in Hds.
Qed.

Lemma prefix_lookup_eq {A} (s x t : list A) i :
  s `prefix_of` x → s `prefix_of` t → (i < length s)%nat → x !! i = t !! i.
Proof. intros [k1 ->] [k2 ->] Hi. by rewrite !lookup_app_l. Qed.

(** A parent of nine cells that do not overlap [t] does not overlap [t]. *)
Lemma full_group_disjoint U t p :
  valid_suid t → Forall valid_suid U → NoDup U →
  (∀ u, u ∈ U → zip_all_equal u t = false) →
  length (siblings p U) = 9%nat → zip_all_equal p t = false.
Proof.
  intros Ht Hv Hnd Hdis H9.
  apply full_group_children in H9 as [Hy Hch]; [|done..].
  apply not_true_is_false. intros [Hp|Hp]%zip_all_equal_prefix.
  - destruct (decide (p = t)) as [->|Hneq].
    + specialize (Hdis _ (Hch 0%nat ltac:(lia))).
      rewrite prefix_overlap in Hdis; [done|]. right. by eexists.
    + destruct (valid_extension p t Ht Hy Hp Hneq) as (k & rest & Hk & ->).
      specialize (Hdis _ (Hch k Hk)).
      rewrite prefix_overlap in Hdis; [done|]. left. exists rest.
      by rewrite <-app_assoc.
  - specialize (Hdis _ (Hch 0%nat ltac:(lia))).
    rewrite prefix_overlap in Hdis; [done|]. right.
    etrans; [exact Hp|]. by eexists.
Qed.

Section difference_contents.
Context `{SO : SetOrder}.

Lemma canonical_member b U y :
  y ∈ canonical b U → y ∈ U ∨ (b = true ∧ length (siblings y U) = 9%nat).
Proof.
  intros [Hy _]%canonical_elem. destruct b; cbn [pre_absorb] in Hy; [|by left].
  apply rhealpix_compress_elem in Hy as [[? _]|?]; [by left|by right].
Qed.

(** The cells a difference passes to the constructor. *)
Lemma CellCollection_sub_members S T L LT b :
  holds S L → holds T LT → L ≠ [] → LT ≠ [] →
  ∃ U, CellCollection_sub S (OpColl T) b = Ok (built b U)
       ∧ Forall valid_suid U ∧ NoDup U
       ∧ ∀ y, y ∈ U ↔
           (∃ one two, one ∈ L ∧ two ∈ LT ∧ retained one two y)
           ∧ ¬ (∃ one two, one ∈ L ∧ two ∈ LT ∧ removed one two y).
Proof.
  intros [HvL [[-> _]|[_ ->]]] [HvT [[-> _]|[_ ->]]] HL HT; try done.
  destruct (CellCollection_sub_eq (collection_of L) (collection_of LT)
              (mkCell <$> L) (mkCell <$> LT) b) as (st & Hst & Hvalid & Hsub);
    [done|done|by apply Forall_valid_cell..|].
  exists (kept st). split; [done|].
  split.
  { apply Forall_forall. intros x [Hx _]%set_to_list_elem%list_elem_of_difference.
    destruct Hvalid as [Hr _]. by eapply Forall_forall in Hr. }
  split; [apply set_to_list_NoDup|].
  specialize (Hst SO).
  assert (∃ fuel, depth_bound (collection_of LT) = Datatypes.S fuel ∧
            ∀ two, two ∈ mkCell <$> LT → (length (cell_suids two) ≤ fuel)%nat)
    as (fuel & Hfuel & Hle).
  { unfold depth_bound. eexists. split; [done|]. intros two Hin.
    pose proof (depth_bound_le (collection_of LT) _ two eq_refl Hin) as H.
    unfold depth_bound in H. lia. }
  rewrite Hfuel in Hst.
  apply progressively_intersect_members in Hst as [Hret Hrem];
    [|by apply Forall_valid_cell..|].
  2:{ intros one two _ Hin. specialize (Hle two Hin). lia. }
  intros y. unfold kept. rewrite set_to_list_elem, list_elem_of_difference, Hret, Hrem.
  cbn [cells_to_retain cells_to_remove]. split.
  - intros [[[]%elem_of_nil|(one & (o & -> & Ho)%list_elem_of_fmap
                             & two & (t & -> & Ht)%list_elem_of_fmap & H)] Hn].
    split; [by exists o, t|]. intros (o' & t' & Ho' & Ht' & H'). apply Hn. right.
    exists (mkCell o'). split; [by apply list_elem_of_fmap_2|].
    exists (mkCell t'). split; [by apply list_elem_of_fmap_2|done].
  - intros [(o & t & Ho & Ht & H) Hn]. split.
    + right. exists (mkCell o). split; [by apply list_elem_of_fmap_2|].
      exists (mkCell t). split; [by apply list_elem_of_fmap_2|done].
    + intros [[]%elem_of_nil|(one & (o' & -> & Ho')%list_elem_of_fmap
                              & two & (t' & -> & Ht')%list_elem_of_fmap & H')].
      apply Hn. by exists o', t'.
Qed.

Lemma CellCollection_sub_cell S c b :
  valid_cell c →
  CellCollection_sub S (OpCell c) b
  = CellCollection_sub S (OpColl (collection_of [cell_suids c])) b.
Proof.
  intros Hv. unfold CellCollection_sub. cbn [validate_other].
  by rewrite CellCollection_init_cell.
Qed.

(** Every cell a difference returns lies in a cell of the left operand or,
    with compression, is the parent of nine cells that do. *)
Lemma built_inside b U L LR :
  Forall valid_suid U → NoDup U → (∀ u, u ∈ U → covers L u) →
  (U ≠ [] → LR = canonical b U) → (U = [] → LR = []) →
  ∀ y, y ∈ LR →
    covers L y ∨ (b = true ∧ ∀ k, (k < 9)%nat → covers L (y ++ [Dig k])).
Proof.
  intros Hv Hnd Hin Hne Hnil y Hy.
  destruct (decide (U = [])) as [E|E].
  { rewrite Hnil in Hy by done. by apply elem_of_nil in Hy. }
  rewrite Hne in Hy by done.
  apply canonical_member in Hy as [Hy|[-> H9]]; [left; by apply Hin|].
  right. split; [done|]. intros k Hk. apply Hin.
  by apply (full_group_children U y).
Qed.

End difference_contents.

Section difference_theorems.
Context `{SO : SetOrder}.

(** X20: subtracting one cell from a collection.  No cell of the result
    overlaps the cell taken away; every cell of the result lies in a cell
    of the collection or, with compression, is the parent of nine cells
    that do; and every cell that lies in the collection and does not
    overlap the cell taken away still lies in the result. *)
Theorem difference_by_cell (S : CellCollection) (L : list suid) (t : suid) (b : bool) :
  holds S L → L ≠ [] → valid_suid t →
  ∃ R LR, CellCollection_sub S (OpCell (mkCell t)) b = Ok R
    ∧ holds R LR ∧ canonical_form LR
    ∧ (∀ y, y ∈ LR → Cell_overlaps (mkCell y) (mkCell t) = false)
    ∧ (∀ y, y ∈ LR →
         covers L y ∨ (b = true ∧ ∀ k, (k < 9)%nat → covers L (y ++ [Dig k])))
    ∧ (∀ x, valid_suid x → covers L x →
         Cell_overlaps (mkCell x) (mkCell t) = false → covers LR x).
Proof.
  intros HS HL Ht. rewrite CellCollection_sub_cell by done. cbn [cell_suids].
  destruct (CellCollection_sub_members S (collection_of [t]) L [t] b)
    as (U & Hsub & Hv & Hnd & HU); [done|by apply holds_collection_of; [constructor|]|done..|].
  destruct (built_holds b U Hv Hnd) as (LR & HR & Hcan & Hne & Hnil).
  exists (built b U), LR. split; [done|]. split; [done|]. split; [done|].
  assert (∀ u, u ∈ U → zip_all_equal u t = false) as Hdis.
  { intros u [(one & two & _ & ->%list_elem_of_singleton & Hr) _]%HU.
    by apply retained_disjoint in Hr. }
  unfold Cell_overlaps. cbn [cell_suids].
  split; [|split].
  - intros y Hy.
    destruct (decide (U = [])) as [E|E].
    { rewrite Hnil in Hy by done. by apply elem_of_nil in Hy. }
    rewrite Hne in Hy by done.
    apply canonical_member in Hy as [Hy|[_ H9]]; [by apply Hdis|].
    by apply (full_group_disjoint U).
  - apply (built_inside b U); [done..| |done|done].
    intros u [(one & two & Hone & _ & Hr) _]%HU. exists one. split; [done|].
    by eapply retained_inside.
  - intros x Hx (s & Hs & Hsx) Hxt.
    assert (∃ u, u ∈ U ∧ u `prefix_of` x) as (u & Hu & Hux).
    { assert (∀ u, retained s t u → u ∈ U) as Hret.
      { intros u Hr. apply HU. split; [exists s, t; by rewrite list_elem_of_singleton|].
        intros (one & two & _ & ->%list_elem_of_singleton & Hrm).
        apply removed_overlap in Hrm. apply retained_disjoint in Hr.
        rewrite prefix_overlap in Hr; [done|by right]. }
      destruct (zip_all_equal s t) eqn:Hst.
      - apply zip_all_equal_prefix in Hst as [Hp|Hp].
        + destruct (first_difference x t Hxt) as (i & a & Ha & Hi & Hn & Htk).
          assert (length s ≤ i)%nat as Hsi.
          { destruct (decide (length s ≤ i)%nat) as [|Hlt]; [done|].
            destruct Hn. rewrite <-Ha. symmetry.
            apply (prefix_lookup_eq s); [done|done|lia]. }
          assert (valid_suid s) as Hvs.
          { destruct HS as [HvL _]. by eapply Forall_forall in HvL. }
          assert (1 ≤ length s)%nat as Hs1.
          { apply valid_suid_inv in Hvs as (f & ds & -> & _). cbn. lia. }
          destruct (valid_suid_digit x i a Hx Ha ltac:(lia)) as (k & Hk & ->).
          exists (take i t ++ [Dig k]). split.
          * apply Hret. right. split; [done|]. exists i, k. done.
          * rewrite <-Htk. exists (drop (Datatypes.S i) x).
            rewrite <-app_assoc. cbn [app].
            by rewrite <-(take_drop_middle x i (Dig k)) at 1.
        + rewrite prefix_overlap in Hxt; [done|]. right. by etrans.
      - exists s. split; [|done]. apply Hret. by left. }
    rewrite Hne by (intros E; rewrite E in Hu; by apply elem_of_nil in Hu).
    destruct (canonical_covers b U u Hu) as (y & Hy & Hyu).
    exists y. split; [done|]. by etrans.
Qed.

(** X21: a cell of the left operand that does not overlap at least one
    cell of the right operand, and lies in none of them, is kept whole by
    a difference: it or an ancestor is in the result, whatever other cells
    of the right operand lie inside it.  Every cell of the result lies in a
    cell of the left operand or, with compression, is the parent of nine
    cells that do. *)
Theorem difference_keeps_cell (S T : CellCollection) (L LT : list suid)
    (s two : suid) (b : bool) :
  holds S L → holds T LT → s ∈ L → two ∈ LT →
  Cell_overlaps (mkCell s) (mkCell two) = false →
  (∀ t, t ∈ LT → ¬ t `prefix_of` s) →
  ∃ R LR, CellCollection_sub S (OpColl T) b = Ok R
    ∧ holds R LR
    ∧ covers LR s
    ∧ (∀ y, y ∈ LR →
         covers L y ∨ (b = true ∧ ∀ k, (k < 9)%nat → covers L (y ++ [Dig k]))).
Proof.
  intros HS HT Hs Htwo Ho Hnot.
  destruct (CellCollection_sub_members S T L LT b)
    as (U & Hsub & Hv & Hnd & HU); [done|done|..].
  { intros ->. by apply elem_of_nil in Hs. }
  { intros ->. by apply elem_of_nil in Htwo. }
  destruct (built_holds b U Hv Hnd) as (LR & HR & Hcan & Hne & Hnil).
  exists (built b U), LR. split; [done|]. split; [done|].
  assert (s ∈ U) as HsU.
  { apply HU. split; [exists s, two; split; [done|split; [done|by left]]|].
    intros (one & t & _ & Ht & Hrm%removed_overlap). by apply (Hnot t). }
  split.
  - rewrite Hne by (intros E; rewrite E in HsU; by apply elem_of_nil in HsU).
    by apply canonical_covers.
  - apply (built_inside b U); [done..| |done|done].
    intros u [(one & t & Hone & _ & Hr) _]%HU. exists one. split; [done|].
    by eapply retained_inside.
Qed.

End difference_theorems.

Lemma difference_by_cell_witness :
  ∃ R LR,
    @CellCollection_sub first_seen (collection_of [[Lbl "P"]])
      (OpCell (mkCell [Lbl "P"; Dig 4])) true = Ok R
    ∧ holds R LR ∧ canonical_form LR
    ∧ (∀ y, y ∈ LR → Cell_overlaps (mkCell y) (mkCell [Lbl "P"; Dig 4]) = false)
    ∧ (∀ y, y ∈ LR →
         covers [[Lbl "P"]] y
         ∨ (true = true ∧ ∀ k, (k < 9)%nat → covers [[Lbl "P"]] (y ++ [Dig k])))
    ∧ (∀ x, valid_suid x → covers [[Lbl "P"]] x →
         Cell_overlaps (mkCell x) (mkCell [Lbl "P"; Dig 4]) = false → covers LR x).
Proof.
  apply (@difference_by_cell first_seen (collection_of [[Lbl "P"]]) [[Lbl "P"]]
           [Lbl "P"; Dig 4] true).
  - apply holds_collection_of; [by repeat constructor|done].
  - done.
  - reflexivity.
Defined.

Lemma difference_keeps_cell_witness :
  ∃ R LR,
    @CellCollection_sub first_seen (collection_of [[Lbl "P"]])
      (OpColl (collection_of [[Lbl "Q"]; [Lbl "P"; Dig 1]])) true = Ok R
    ∧ holds R LR
    ∧ covers LR [Lbl "P"]
    ∧ (∀ y, y ∈ LR →
         covers [[Lbl "P"]] y
         ∨ (true = true ∧ ∀ k, (k < 9)%nat → covers [[Lbl "P"]] (y ++ [Dig k]))).
Proof.
  apply (@difference_keeps_cell first_seen (collection_of [[Lbl "P"]])
           (collection_of [[Lbl "Q"]; [Lbl "P"; Dig 1]])
           [[Lbl "P"]] [[Lbl "Q"]; [Lbl "P"; Dig 1]] [Lbl "P"] [Lbl "Q"] true).
  - apply holds_collection_of; [by repeat constructor|done].
  - apply holds_collection_of; [by repeat constructor|done].
  - by left.
  - by left.
  - reflexivity.
  - intros t [->|[->|[]%elem_of_nil]%elem_of_cons]%elem_of_cons [k Hk]; done.
Defined.

(** * Operators of a cell *)

Lemma prefix_snoc_cases {A} (y l : list A) x :
  y `prefix_of` l ++ [x] → y = l ++ [x] ∨ y `prefix_of` l.
Proof.
  intros [ext E]. destruct ext as [|e ext _] using rev_ind.
  - left. by rewrite app_nil_r in E.
  - right. rewrite app_assoc in E. apply app_inj_tail in E as [-> _]. by eexists.
Qed.

Lemma has_ancestor_prefix y U :
  has_ancestor y U ↔ ∃ u, u ∈ U ∧ u ≠ [] ∧ u `prefix_of` y ∧ u ≠ y.
Proof.
  rewrite has_ancestor_alt. split.
  - intros (i & Hi & Hin). exists (take (S i) y). split; [done|].
    split; [destruct y; [cbn in Hi; lia|done]|]. split; [apply take_prefix_of|].
    intros E. apply (f_equal length) in E. rewrite length_take in E. lia.
  - intros (u & Hu & Hne & [ext ->] & Hneq).
    destruct u as [|e u]; [done|]. exists (length u).
    destruct ext as [|e' ext]; [by rewrite app_nil_r in Hneq|].
    rewrite length_app. cbn [length]. split; [lia|].
    by rewrite (take_app_length (e :: u)).
Qed.

(** What one comparison retains has no cell below another. *)
Lemma retained_no_ancestor a b y y' :
  retained a b y → retained a b y' → y' `prefix_of` y → y' = y.
Proof.
  intros Hy Hy' Hp. pose proof (retained_disjoint _ _ _ Hy') as Hd.
  destruct Hy as [[Ho ->]|(Hab & i & k & Hi & Hk & -> & Hn)].
  - by apply retained_no_overlap in Hy'.
  - apply prefix_snoc_cases in Hp as [->|Hp]; [done|].
    rewrite prefix_overlap in Hd; [done|]. left.
    etrans; [exact Hp|apply take_prefix_of].
Qed.

Section cell_operators.
Context `{SO : SetOrder}.

Lemma Cell_sub_eq a b :
  valid_suid a → valid_suid b →
  Cell_sub (mkCell a) (OpCell (mkCell b))
  = CellCollection_sub (collection_of [a]) (OpColl (collection_of [b])) true.
Proof.
  intros Ha Hb. unfold Cell_sub. cbn [validate_other].
  by rewrite !CellCollection_init_cell, !rbind_Ok.
Qed.

Lemma Cell_add_eq a b :
  valid_suid a → valid_suid b →
  Cell_add (mkCell a) (OpCell (mkCell b))
  = CellCollection_add (collection_of [a]) (OpColl (collection_of [b])) true.
Proof.
  intros Ha Hb. unfold Cell_add. cbn [validate_other].
  by rewrite !CellCollection_init_cell, !rbind_Ok.
Qed.

(** X22: the difference of two cells.  [a - b] holds the cell [a] when the
    cells do not overlap, nothing when [b] contains [a], and otherwise, at
    each level below [a] down to the level of [b], the eight cells beside
    the one that contains [b]; it is empty exactly when [b] contains
    [a]. *)
Theorem Cell_sub_cells (a b : suid) :
  valid_suid a → valid_suid b →
  ∃ R LR, Cell_sub (mkCell a) (OpCell (mkCell b)) = Ok R
    ∧ holds R LR ∧ canonical_form LR
    ∧ (∀ y, y ∈ LR ↔ retained a b y)
    ∧ (LR = [] ↔ b `prefix_of` a).
Proof.
  intros Ha Hb. rewrite Cell_sub_eq by done.
  destruct (CellCollection_sub_members (collection_of [a]) (collection_of [b])
              [a] [b] true)
    as (U & Hsub & Hv & Hnd & HU);
    [by apply holds_collection_of; [constructor|]..|done|done|].
  assert (∀ y, y ∈ U ↔ retained a b y) as HU'.
  { intros y. rewrite HU. split.
    - by intros [(one & two & ->%list_elem_of_singleton & ->%list_elem_of_singleton & H) _].
    - intros Hr. split; [exists a, b; by rewrite !list_elem_of_singleton|].
      intros (one & two & _ & ->%list_elem_of_singleton & Hrm).
      apply removed_overlap in Hrm. apply retained_disjoint in Hr.
      rewrite prefix_overlap in Hr; [done|by right]. }
  destruct (built_holds true U Hv Hnd) as (LR & HR & Hcan & Hne & Hnil).
  exists (built true U), LR. split; [done|]. split; [done|]. split; [done|].
  assert (∀ y, y ∈ LR ↔ y ∈ U) as HLR.
  { intros y. destruct (decide (U = [])) as [E|E].
    { rewrite Hnil, E by done. done. }
    rewrite Hne by done. destruct (canonical_elem true U) as (_ & _ & ->).
    assert (no_full_group U) as Hg.
    { intros p H9.
      pose proof (full_group_disjoint U b p Hb Hv Hnd) as Hd.
      rewrite prefix_overlap in Hd.
      - discriminate Hd; [|done]. intros u Hu%HU'. by eapply retained_disjoint.
      - apply full_group_children in H9 as [Hp Hch]; [|done..].
        pose proof (Hch 0%nat ltac:(lia)) as H0%HU'.
        pose proof (Hch 1%nat ltac:(lia)) as H1%HU'.
        destruct H0 as [[Ho E0]|(Hab & i & k & Hi & Hk & E1 & Hn)].
        + apply retained_no_overlap in H1; [|done]. rewrite <-H1 in E0.
          by apply app_inv_head in E0.
        + apply app_inj_tail in E1 as [-> _]. left. apply take_prefix_of. }
    cbn [pre_absorb]. rewrite rhealpix_compress_no_full_group by done.
    split; [tauto|]. intros Hy. split; [done|].
    rewrite (has_ancestor_ext y _ U)
      by (intros z; by apply rhealpix_compress_no_full_group).
    intros (u & Hu%HU' & _ & Hp & Hneq)%has_ancestor_prefix.
    apply Hneq. apply (retained_no_ancestor a b); [by apply HU'|done..]. }
  split.
  - intros y. by rewrite HLR.
  - split.
    + intros ->. destruct (decide (b `prefix_of` a)) as [|Hn]; [done|]. exfalso.
      assert (∃ y, retained a b y) as (y & Hy%HU'%HLR); [|by apply elem_of_nil in Hy].
      destruct (zip_all_equal a b) eqn:Ho; [|exists a; by left].
      apply zip_all_equal_prefix in Ho as [Hp|Hp]; [|done].
      assert (a ≠ []) as Hane.
      { apply valid_suid_inv in Ha as (f & ds & -> & _). done. }
      destruct (valid_extension a b Hb Hane Hp) as (k & rest & Hk & ->).
      { intros ->. by apply Hn. }
      exists (a ++ [Dig (if decide (k = 0%nat) then 1 else 0)%nat]).
      right. split; [done|].
      exists (length a), (if decide (k = 0%nat) then 1 else 0)%nat.
      rewrite length_app. cbn [length].
      split; [lia|]. split; [case_decide; lia|]. rewrite take_app_length.
      split; [done|]. intros E.
      pose proof (list_lookup_middle a rest (Dig k) (length a) eq_refl) as Hm.
      assert (Some (Dig k) = Some (Dig (if decide (k = 0%nat) then 1 else 0)%nat))
        as [= Hk'] by (etrans; [symmetry; exact Hm|exact E]).
      case_decide; lia.
    + intros Hp. destruct LR as [|y LR]; [done|].
      assert (retained a b y) as Hr by (apply HU', HLR; by left).
      by apply retained_ge in Hr.
Qed.

(** X23: the sum of two cells holds both cells, unless one of them lies in
    the other: then it holds the containing cell only. *)
Theorem Cell_add_cells (a b : suid) :
  valid_suid a → valid_suid b →
  ∃ R LR, Cell_add (mkCell a) (OpCell (mkCell b)) = Ok R
    ∧ holds R LR ∧ canonical_form LR
    ∧ ∀ y, y ∈ LR ↔ (y = a ∧ ¬ (b `prefix_of` a ∧ b ≠ a))
                     ∨ (y = b ∧ ¬ (a `prefix_of` b ∧ a ≠ b)).
Proof.
  intros Ha Hb. rewrite Cell_add_eq by done.
  assert (holds (collection_of [a]) [a]) as HSa
    by (apply holds_collection_of; [by constructor|done]).
  assert (holds (collection_of [b]) [b]) as HSb
    by (apply holds_collection_of; [by constructor|done]).
  rewrite (CellCollection_add_eq _ _ [a] [b]) by done.
  destruct (union_of_spec _ _ [a] [b] HSa HSb) as (_ & Hv & Hnd & Hm).
  set (U := union_of (collection_of [a]) (collection_of [b])) in *.
  destruct (built_holds true U Hv Hnd) as (LR & HR & Hcan & Hne & Hnil).
  exists (built true U), LR. split; [done|]. split; [done|]. split; [done|].
  assert (a ∈ U) as HaU by (apply Hm; left; by left).
  rewrite Hne by (intros E; rewrite E in HaU; by apply elem_of_nil in HaU).
  assert (length U ≤ 2)%nat as Hlen.
  { apply (submseteq_length U [a; b]). apply NoDup_submseteq; [done|].
    intros x [ ->%list_elem_of_singleton | ->%list_elem_of_singleton ]%Hm;
      [by left|right; by left]. }
  assert (no_full_group U) as Hg.
  { intros p. assert (length (siblings p U) ≤ length U)%nat by apply length_filter.
    lia. }
  assert (a ≠ [] ∧ b ≠ []) as [Hane Hbne].
  { apply valid_suid_inv in Ha as (fa & da & -> & _).
    apply valid_suid_inv in Hb as (fb & db & -> & _). done. }
  intros y. destruct (canonical_elem true U) as (_ & _ & ->). cbn [pre_absorb].
  rewrite rhealpix_compress_no_full_group by done.
  rewrite (has_ancestor_ext y _ U)
    by (intros z; by apply rhealpix_compress_no_full_group).
  rewrite has_ancestor_prefix, Hm, !list_elem_of_singleton.
  split.
  - intros [[ -> | -> ] Hn]; [left|right]; (split; [done|]); intros [Hp Hneq]; apply Hn.
    + exists b. rewrite Hm, !list_elem_of_singleton. split; [by right|done].
    + exists a. rewrite Hm, !list_elem_of_singleton. split; [by left|done].
  - intros [[-> Hn] | [-> Hn]]; (split; [by (left + right)|]);
      intros (u & [ ->%list_elem_of_singleton | ->%list_elem_of_singleton ]%Hm
              & _ & Hp & Hneq); try done; by apply Hn.
Qed.

End cell_operators.

Lemma Cell_sub_cells_witness :
  ∃ R LR,
    @Cell_sub first_seen (mkCell [Lbl "P"]) (OpCell (mkCell [Lbl "P"; Dig 1; Dig 2]))
    = Ok R
    ∧ holds R LR ∧ canonical_form LR
    ∧ (∀ y, y ∈ LR ↔ retained [Lbl "P"] [Lbl "P"; Dig 1; Dig 2] y)
    ∧ (LR = [] ↔ [Lbl "P"; Dig 1; Dig 2] `prefix_of` [Lbl "P"]).
Proof.
  apply (@Cell_sub_cells first_seen [Lbl "P"] [Lbl "P"; Dig 1; Dig 2]); reflexivity.
Defined.

Lemma Cell_add_cells_witness :
  ∃ R LR,
    @Cell_add first_seen (mkCell [Lbl "P"; Dig 3]) (OpCell (mkCell [Lbl "P"; Dig 1; Dig 2]))
    = Ok R
    ∧ holds R LR ∧ canonical_form LR
    ∧ ∀ y, y ∈ LR ↔
        (y = [Lbl "P"; Dig 3]
         ∧ ¬ ([Lbl "P"; Dig 1; Dig 2] `prefix_of` [Lbl "P"; Dig 3]
              ∧ [Lbl "P"; Dig 1; Dig 2] ≠ [Lbl "P"; Dig 3]))
        ∨ (y = [Lbl "P"; Dig 1; Dig 2]
           ∧ ¬ ([Lbl "P"; Dig 3] `prefix_of` [Lbl "P"; Dig 1; Dig 2]
                ∧ [Lbl "P"; Dig 3] ≠ [Lbl "P"; Dig 1; Dig 2])).
Proof.
  apply (@Cell_add_cells first_seen [Lbl "P"; Dig 3] [Lbl "P"; Dig 1; Dig 2]);
    reflexivity.
Defined.

(** * Neighbours across faces *)

Lemma an_digit_of_ok d n :
  (n < 9)%nat → an (Dig n) d = Ok (Dig (an_digit_of d n)) ∧ (an_digit_of d n < 9)%nat.
Proof.
  intros H. digit_cases H; destruct d; (split; [reflexivity|]); vm_compute; lia.
Qed.

Lemma turn_digit_ok q n :
  (n < 9)%nat → q ∈ [1; 2; 3]%nat →
  rotate_entry (Dig n) q = Ok (Dig (turn_digit (Some q) n))
  ∧ (turn_digit (Some q) n < 9)%nat.
Proof.
  intros H Hq. digit_cases H; enum_cases Hq; (split; [reflexivity|]); vm_compute; lia.
Qed.

(** The scan of a cell on the border of its face in direction [d]: every
    digit and the face are replaced by their atomic neighbours. *)
Lemma neighbour_scan_all_border d rds f f' :
  Forall (λ n, (n < 9)%nat ∧ in_border (Dig n) d = true) rds →
  an (Lbl f) d = Ok (Lbl f') →
  neighbour_scan d ((Dig <$> rds) ++ [Lbl f]) false
  = Ok ((Dig <$> (an_digit_of d <$> rds)) ++ [Lbl f']).
Proof.
  intros Hall Hf. induction Hall as [|n rds [Hn Hb] _ IH].
  - by rewrite !fmap_nil, !app_nil_l, neighbour_scan_cons, Hf.
  - rewrite !fmap_cons, <-!app_comm_cons, neighbour_scan_cons.
    destruct (an_digit_of_ok d n Hn) as [-> _].
    rewrite rbind_Ok, Hb. cbn [negb]. by rewrite IH.
Qed.

(** The scan changes the face only when it crosses the border at every
    level. *)
Lemma neighbour_scan_face_change d rds rds' f f' :
  Forall (λ n, n < 9)%nat rds →
  neighbour_scan d ((Dig <$> rds) ++ [Lbl f]) false = Ok ((Dig <$> rds') ++ [Lbl f']) →
  f' ≠ f →
  Forall (λ n, (n < 9)%nat ∧ in_border (Dig n) d = true) rds
  ∧ an (Lbl f) d = Ok (Lbl f').
Proof.
  intros Hds. revert rds'. induction Hds as [|n rds Hn _ IH]; intros rds' Hscan Hne.
  - split; [done|]. rewrite fmap_nil, app_nil_l, neighbour_scan_cons in Hscan.
    destruct (an (Lbl f) d) as [g|]; [|done]. rewrite rbind_Ok in Hscan.
    cbn in Hscan. destruct rds' as [|? [|? ?]]; by injection Hscan as ->.
  - rewrite fmap_cons, <-app_comm_cons, neighbour_scan_cons in Hscan.
    destruct (an_digit_of_ok d n Hn) as [Hm _]. rewrite Hm, rbind_Ok in Hscan.
    apply rbind_ok in Hscan as (tl & Htl & E). injection E as E.
    destruct rds' as [|m' rds']; [by injection E|].
    rewrite fmap_cons, <-app_comm_cons in E. injection E as _ ->.
    destruct (in_border (Dig n) d) eqn:Hb; cbn [negb] in Htl.
    + destruct (IH _ Htl Hne) as [Hall Hf]. split; [|done]. by constructor.
    + rewrite neighbour_scan_copy in Htl. injection Htl as Htl.
      apply app_inj_tail in Htl as [_ [= ->]]. done.
Qed.

Lemma rotate_turn f l oq :
  f ∈ zero_cells → Forall (λ n, n < 9)%nat l →
  (∀ q, oq = Some q → q ∈ [1; 2; 3]%nat) →
  match oq with
  | Some q => rotate (Lbl f :: (Dig <$> l)) q
  | None => Ok (Lbl f :: (Dig <$> l))
  end = Ok (Lbl f :: (Dig <$> (turn_digit oq <$> l))).
Proof.
  intros Hf Hl Hq. destruct oq as [q|]; [|by rewrite list_fmap_id].
  specialize (Hq q eq_refl). unfold rotate. cbn [rmap].
  rewrite rotate_entry_face by done. rewrite rbind_Ok.
  assert (rmap (λ x, rotate_entry x q) (Dig <$> l)
          = Ok (Dig <$> (turn_digit (Some q) <$> l))) as ->; [|done].
  induction Hl as [|n l Hn _ IH]; [done|].
  cbn [fmap list_fmap rmap]. destruct (turn_digit_ok q n Hn Hq) as [-> _].
  by rewrite rbind_Ok, IH.
Qed.

Lemma way_back_heads fa fb x y d :
  way_back (mkCell (fa :: x)) (mkCell (fb :: y)) d
  = way_back (mkCell [fa]) (mkCell [fb]) d.
Proof. done. Qed.

(** One digit of a cell that crosses to another face, there and back. *)
Lemma cross_digit_back f f' d n :
  f ∈ zero_cells → an (Lbl f) d = Ok (Lbl f') → (n < 9)%nat →
  in_border (Dig n) d = true →
  let d' := way_back (mkCell [Lbl f]) (mkCell [Lbl f']) d in
  let m := turn_digit (quarter_turns (Lbl f) (Lbl f')) (an_digit_of d n) in
  (m < 9)%nat ∧ in_border (Dig m) d' = true
  ∧ turn_digit (quarter_turns (Lbl f') (Lbl f)) (an_digit_of d' m) = n.
Proof.
  intros Hf Han Hn. unfold zero_cells in Hf.
  enum_cases Hf; destruct d; injection Han as <-; digit_cases Hn;
    intros Hb; try discriminate Hb;
    (split; [vm_compute; lia|]); (split; reflexivity).
Qed.

Lemma cross_face_back f f' d :
  f ∈ zero_cells → an (Lbl f) d = Ok (Lbl f') →
  f' ∈ zero_cells ∧ f' ≠ f
  ∧ an (Lbl f') (way_back (mkCell [Lbl f]) (mkCell [Lbl f']) d) = Ok (Lbl f)
  ∧ (¬ polar (mkCell [Lbl f]) → ¬ polar (mkCell [Lbl f']) →
     way_back (mkCell [Lbl f]) (mkCell [Lbl f']) d = opposite d).
Proof.
  intros Hf Han. unfold zero_cells in Hf.
  enum_cases Hf; destruct d; injection Han as <-;
    (split; [unfold zero_cells; rewrite !elem_of_cons; tauto|]);
    (split; [done|]); (split; [by vm_compute|]);
    intros H1 H2; try done;
    (by destruct H1; vm_compute; tauto) || (by destruct H2; vm_compute; tauto).
Qed.

Lemma neighbour_back_on_face f ds d rds' :
  f ∈ zero_cells → Forall (λ n, n < 9)%nat ds →
  neighbour_scan d ((Dig <$> reverse ds) ++ [Lbl f]) false
  = Ok ((Dig <$> rds') ++ [Lbl f]) →
  Cell_neighbour (mkCell (Lbl f :: (Dig <$> reverse rds'))) (opposite d)
  = Ok (mkCell (Lbl f :: (Dig <$> ds))).
Proof.
  intros Hf Hds Hscan.
  apply neighbour_scan_back in Hscan; [|by apply Forall_reverse|done].
  rewrite <-(reverse_involutive rds'), <-reverse_suid in Hscan.
  rewrite (Cell_neighbour_unfold _ _ _ _ Hscan), reverse_rev_suid.
  rewrite reverse_involutive. cbn [head_elem].
  rewrite rbind_Ok, quarter_turns_same, rbind_Ok by done.
  apply Cell_of_tuple_valid. apply valid_suid_inv. by exists f, ds.
Qed.

(** The neighbour in the direction [way_back] is the cell one came from. *)
Lemma Cell_neighbour_way_back (a b : Cell) (d : direction) :
  valid_cell a → Cell_neighbour a d = Ok b →
  Cell_neighbour b (way_back a b d) = Ok a
  ∧ (¬ polar a → ¬ polar b → way_back a b d = opposite d).
Proof.
  destruct a as [t]. unfold valid_cell. cbn [cell_suids].
  intros Hva. pose proof Hva as (f & ds & -> & Hf & Hds)%valid_suid_inv.
  apply Forall_reverse in Hds as Hrds.
  destruct (neighbour_scan_digits d (reverse ds) f Hf Hrds)
    as (rds' & f' & Hscan & Hf' & Hds').
  apply Forall_reverse in Hds' as Hrds'.
  pose proof Hscan as Hscan'. rewrite <-reverse_suid in Hscan'.
  rewrite (Cell_neighbour_unfold _ _ _ _ Hscan'), reverse_rev_suid.
  cbn [head_elem]. rewrite rbind_Ok.
  destruct (decide (f' = f)) as [->|Hne].
  - rewrite quarter_turns_same, rbind_Ok by done.
    intros [-> _]%Cell_of_tuple_ok.
    assert (way_back (mkCell (Lbl f :: (Dig <$> ds)))
              (mkCell (Lbl f :: (Dig <$> reverse rds'))) d = opposite d) as ->.
    { unfold way_back. cbn [cell_suids head]. by rewrite decide_True. }
    split; [|done]. by apply neighbour_back_on_face.
  - destruct (neighbour_scan_face_change d _ _ f f' Hrds Hscan Hne) as [Hall Han].
    rewrite (neighbour_scan_all_border d _ f f' Hall Han) in Hscan.
    injection Hscan as Hscan. apply app_inv_tail, (inj (fmap Dig)) in Hscan.
    subst rds'.
    rewrite (rotate_turn f' _ (quarter_turns (Lbl f) (Lbl f')));
      [|done|done|by intros q Hq; eapply quarter_turns_range].
    rewrite rbind_Ok. intros [-> _]%Cell_of_tuple_ok.
    rewrite way_back_heads.
    destruct (cross_face_back f f' d Hf Han) as (_ & _ & Han' & Heq).
    split; [|done].
    set (d' := way_back (mkCell [Lbl f]) (mkCell [Lbl f']) d) in *.
    set (g := λ n, turn_digit (quarter_turns (Lbl f) (Lbl f')) (an_digit_of d n)).
    assert (turn_digit (quarter_turns (Lbl f) (Lbl f'))
              <$> reverse (an_digit_of d <$> reverse ds) = g <$> ds) as ->.
    { by rewrite <-fmap_reverse, reverse_involutive, <-list_fmap_compose. }
    assert (Forall (λ n, (n < 9)%nat ∧ in_border (Dig n) d' = true)
              (reverse (g <$> ds))) as Hall'.
    { rewrite <-fmap_reverse. apply Forall_fmap.
      eapply Forall_impl; [exact Hall|]. intros n [Hn Hb].
      by destruct (cross_digit_back f f' d n Hf Han Hn Hb) as (? & ? & _). }
    pose proof (neighbour_scan_all_border d' _ f' f Hall' Han') as Hback.
    rewrite <-reverse_suid in Hback.
    rewrite (Cell_neighbour_unfold _ _ _ _ Hback), reverse_rev_suid.
    cbn [head_elem]. rewrite rbind_Ok.
    rewrite (rotate_turn f _ (quarter_turns (Lbl f') (Lbl f)));
      [|done| |by intros q Hq; eapply quarter_turns_range].
    2:{ apply Forall_reverse, Forall_fmap. eapply Forall_impl; [exact Hall'|].
        intros n [Hn _]. by apply an_digit_of_ok. }
    rewrite rbind_Ok.
    assert (turn_digit (quarter_turns (Lbl f') (Lbl f))
              <$> reverse (an_digit_of d' <$> reverse (g <$> ds)) = ds) as ->.
    { rewrite <-fmap_reverse, reverse_involutive, <-!list_fmap_compose.
      rewrite <-(list_fmap_id ds) at 2. apply Forall_fmap_ext_1.
      apply Forall_reverse in Hall. rewrite reverse_involutive in Hall.
      eapply Forall_impl; [exact Hall|]. intros n [Hn Hb].
      by destruct (cross_digit_back f f' d n Hf Han Hn Hb) as (_ & _ & ?). }
    by apply Cell_of_tuple_valid.
Qed.

(** X24: every neighbour leads back.  When [b] is the neighbour of a valid
    cell [a] in direction [d], [a] is the neighbour of [b] in the direction
    [way_back a b d]: the opposite direction when [b] is on the face of
    [a], and otherwise the direction in which the face of [a] is the atomic
    neighbour of the face of [b]; between two cells that are both off the
    polar faces this is always the opposite direction. *)
Theorem neighbour_way_back (a b : Cell) (d : direction) :
  valid_cell a → Cell_neighbour a d = Ok b →
  Cell_neighbour b (way_back a b d) = Ok a
  ∧ (¬ polar a → ¬ polar b → way_back a b d = opposite d).
Proof. apply Cell_neighbour_way_back. Qed.

Lemma neighbour_way_back_witness :
  Cell_neighbour (mkCell [Lbl "N"; Dig 5])
    (way_back (mkCell [Lbl "P"; Dig 1]) (mkCell [Lbl "N"; Dig 5]) up)
  = Ok (mkCell [Lbl "P"; Dig 1])
  ∧ (¬ polar (mkCell [Lbl "P"; Dig 1]) → ¬ polar (mkCell [Lbl "N"; Dig 5]) →
     way_back (mkCell [Lbl "P"; Dig 1]) (mkCell [Lbl "N"; Dig 5]) up = opposite up).
Proof.
  apply (neighbour_way_back (mkCell [Lbl "P"; Dig 1]) (mkCell [Lbl "N"; Dig 5]) up);
    reflexivity.
Defined.

(** * The border of a cell *)

Lemma zip4_chain_elem {A} (a b c d : list A) x :
  length b = length a → length c = length a → length d = length a →
  x ∈ zip4_chain a b c d ↔ x ∈ a ∨ x ∈ b ∨ x ∈ c ∨ x ∈ d.
Proof.
  revert b c d. induction a as [|a0 a IH]; intros [|b0 b] [|c0 c] [|d0 d]; try done.
  - intros _ _ _. cbn. rewrite !elem_of_nil. tauto.
  - intros [= Hb] [= Hc] [= Hd]. cbn [zip4_chain].
    rewrite !elem_of_cons, (IH b c d Hb Hc Hd). tauto.
Qed.

(** The digit sequences of [border]: all digits on the left, on the right,
    on the upper or on the lower edge. *)
Lemma border_edges_elem n i :
  i ∈ zip4_chain (product_repeat [0; 3; 6]%nat n) (product_repeat [2; 5; 8]%nat n)
        (product_repeat [0; 1; 2]%nat n) (product_repeat [6; 7; 8]%nat n)
  ↔ length i = n
    ∧ (Forall (λ k, k ∈ [0; 3; 6]%nat) i ∨ Forall (λ k, k ∈ [2; 5; 8]%nat) i
       ∨ Forall (λ k, k ∈ [0; 1; 2]%nat) i ∨ Forall (λ k, k ∈ [6; 7; 8]%nat) i).
Proof.
  rewrite zip4_chain_elem by by rewrite !product_repeat_length.
  rewrite !product_repeat_elem. tauto.
Qed.

Lemma border_edges_digits n i :
  length i = n
  ∧ (Forall (λ k, k ∈ [0; 3; 6]%nat) i ∨ Forall (λ k, k ∈ [2; 5; 8]%nat) i
     ∨ Forall (λ k, k ∈ [0; 1; 2]%nat) i ∨ Forall (λ k, k ∈ [6; 7; 8]%nat) i) →
  Forall (λ k, k < 9 ∧ k ≠ 4)%nat i.
Proof.
  intros [_ [H|[H|[H|H]]]]; (eapply Forall_impl; [exact H|]); intros k Hk; cbn in Hk;
    enum_cases Hk; lia.
Qed.

Section border.
Context `{SO : SetOrder}.

(** X25: [border(resolution)] of a valid cell returns the cell itself when
    no resolution is given and raises a value error below the resolution
    of the cell; at a resolution [r] at or above it, it returns the
    collection of the cells of resolution [r] whose suid continues the suid
    of the cell with digits that are all on the left edge (0, 3, 6), all on
    the right edge (2, 5, 8), all on the upper edge (0, 1, 2) or all on the
    lower edge (6, 7, 8); at the resolution of the cell that is a
    collection of the cell alone. *)
Theorem Cell_border_at (c : Cell) (r : Z) :
  valid_cell c →
  Cell_border c None = Ok (OpCell c)
  ∧ ((r < resolution c)%Z → Cell_border c (Some r) = Raise ValueError)
  ∧ ((resolution c ≤ r)%Z →
     ∃ R LR, Cell_border c (Some r) = Ok (OpColl R)
       ∧ holds R LR ∧ canonical_form LR
       ∧ ∀ x, x ∈ LR ↔
           ∃ i, x = cell_suids c ++ (Dig <$> i)
                ∧ length i = Z.to_nat (r - resolution c)
                ∧ (Forall (λ k, k ∈ [0; 3; 6]%nat) i
                   ∨ Forall (λ k, k ∈ [2; 5; 8]%nat) i
                   ∨ Forall (λ k, k ∈ [0; 1; 2]%nat) i
                   ∨ Forall (λ k, k ∈ [6; 7; 8]%nat) i)).
Proof.
  destruct c as [t]. unfold valid_cell. cbn [cell_suids]. intros Hv.
  split; [done|]. split.
  { intros Hr. unfold Cell_border. by rewrite (proj2 (Z.ltb_lt _ _)) by lia. }
  intros Hr. unfold Cell_border. rewrite (proj2 (Z.ltb_ge _ _)) by lia.
  set (n := Z.to_nat (r - resolution {| cell_suids := t |})).
  set (E := set_to_list (zip4_chain _ _ _ _)).
  assert (∀ i, i ∈ E ↔
            length i = n
            ∧ (Forall (λ k, k ∈ [0; 3; 6]%nat) i ∨ Forall (λ k, k ∈ [2; 5; 8]%nat) i
               ∨ Forall (λ k, k ∈ [0; 1; 2]%nat) i
               ∨ Forall (λ k, k ∈ [6; 7; 8]%nat) i)) as HE.
  { intros i. unfold E. rewrite set_to_list_elem. apply border_edges_elem. }
  assert (∀ i, i ∈ E → Forall (λ k, k < 9)%nat i) as Hdig.
  { intros i Hi%HE%border_edges_digits. eapply Forall_impl; [exact Hi|].
    by intros k [? _]. }
  set (U := (λ i, t ++ (Dig <$> i)) <$> E).
  assert ((λ i, Cell_repr {| cell_suids := t |} +:+ str_digits i) <$> E
          = repr_suid <$> U) as ->.
  { unfold U. rewrite <-list_fmap_compose.
    apply Forall_fmap_ext_1, Forall_forall. intros i Hi%Hdig.
    unfold compose. by rewrite repr_suid_app. }
  assert (Forall valid_suid U) as HvU.
  { apply Forall_fmap, Forall_forall. intros i Hi%Hdig. by apply valid_suid_app. }
  assert (NoDup U) as Hnd.
  { apply NoDup_fmap_2_strong; [|apply set_to_list_NoDup].
    intros i j _ _ Hij. apply app_inv_head in Hij. by apply (inj (fmap Dig)) in Hij. }
  assert (U ≠ []) as HUne.
  { assert (replicate n 0%nat ∈ E) as Hin.
    { apply HE. split; [apply length_replicate|]. left.
      apply Forall_replicate. by left. }
    intros EU%fmap_nil_inv. rewrite EU in Hin. by apply elem_of_nil in Hin. }
  rewrite CellCollection_init_strs by done.
  rewrite CellCollection_init_built by done.
  destruct (built_holds true U HvU Hnd) as (LR & HR & Hcan & Hne & _).
  exists (built true U), LR. split; [done|]. split; [done|]. split; [done|].
  rewrite Hne by done.
  assert (no_full_group U) as Hg.
  { intros p H9. apply full_group_children in H9 as [Hp Hch]; [|done..].
    pose proof (Hch 4%nat ltac:(lia)) as (i & Ei & Hi%HE)%list_elem_of_fmap.
    pose proof (Hch 0%nat ltac:(lia)) as (i0 & E0 & Hi0%HE)%list_elem_of_fmap.
    destruct i as [|k i _] using rev_ind.
    - destruct Hi as [Hl _], Hi0 as [Hl0 _]. rewrite <-Hl in Hl0.
      destruct i0; [|done]. rewrite <-E0 in Ei. by apply app_inv_head in Ei.
    - rewrite fmap_app, app_assoc in Ei. apply app_inj_tail in Ei as [_ [= <-]].
      apply border_edges_digits, Forall_app in Hi as [_ Hi].
      apply Forall_cons in Hi as [[_ Hi] _]. done. }
  intros x. destruct (canonical_elem true U) as (_ & _ & ->). cbn [pre_absorb].
  rewrite rhealpix_compress_no_full_group by done.
  rewrite (has_ancestor_ext x _ U)
    by (intros z; by apply rhealpix_compress_no_full_group).
  split.
  - intros [(i & -> & Hi%HE)%list_elem_of_fmap _]. exists i. tauto.
  - intros (i & -> & Hl & Hed).
    assert (i ∈ E) as Hi by (apply HE; done).
    split; [by apply (list_elem_of_fmap_2 (λ i, t ++ (Dig <$> i)))|].
    intros (j & Hj & (i' & E' & [Hl' _]%HE)%list_elem_of_fmap)%has_ancestor_alt.
    apply (f_equal length) in E'.
    rewrite length_take, !length_app, !length_fmap in E'.
    rewrite length_app, length_fmap in Hj. fold n in Hl. lia.
Qed.

End border.

Lemma Cell_border_at_witness :
  @Cell_border first_seen (mkCell [Lbl "P"]) None = Ok (OpCell (mkCell [Lbl "P"]))
  ∧ ((1 < resolution (mkCell [Lbl "P"]))%Z →
     @Cell_border first_seen (mkCell [Lbl "P"]) (Some 1%Z) = Raise ValueError)
  ∧ ((resolution (mkCell [Lbl "P"]) ≤ 1)%Z →
     ∃ R LR, @Cell_border first_seen (mkCell [Lbl "P"]) (Some 1%Z) = Ok (OpColl R)
       ∧ holds R LR ∧ canonical_form LR
       ∧ ∀ x, x ∈ LR ↔
           ∃ i, x = cell_suids (mkCell [Lbl "P"]) ++ (Dig <$> i)
                ∧ length i = Z.to_nat (1 - resolution (mkCell [Lbl "P"]))
                ∧ (Forall (λ k, k ∈ [0; 3; 6]%nat) i
                   ∨ Forall (λ k, k ∈ [2; 5; 8]%nat) i
                   ∨ Forall (λ k, k ∈ [0; 1; 2]%nat) i
                   ∨ Forall (λ k, k ∈ [6; 7; 8]%nat) i)).
Proof. apply (@Cell_border_at first_seen (mkCell [Lbl "P"]) 1%Z). reflexivity. Defined.

(** * The neighbours of a cell *)

Lemma fmap_mkCell (cs : list Cell) : mkCell <$> (cell_suids <$> cs) = cs.
Proof. induction cs as [|[t] cs IH]; [done|]. cbn. by f_equal. Qed.

Section cell_neighbours.
Context `{SO : SetOrder}.

(** The constructor on fewer than nine valid cells of one resolution keeps
    exactly these cells. *)
Lemma CellCollection_init_level cs0 n :
  cs0 ≠ [] → Forall valid_cell cs0 → (length cs0 < 9)%nat →
  (∀ x, x ∈ cs0 → length (cell_suids x) = n) →
  ∃ cs, CellCollection_init (ArgCells cs0) None None true
        = Ok (collection_of (cell_suids <$> cs))
        ∧ NoDup cs ∧ (length cs ≤ length cs0)%nat ∧ ∀ x, x ∈ cs ↔ x ∈ cs0.
Proof.
  intros Hne Hv Hlen Hn.
  set (U := cell_suids <$> cs0).
  assert (no_full_group U) as Hg.
  { intros p. assert (length (siblings p U) ≤ length U)%nat by apply length_filter.
    unfold U in *. rewrite length_fmap in *. lia. }
  destruct (canonical_elem true U) as (Hnd & _ & Hm).
  assert (∀ x, x ∈ canonical true U ↔ x ∈ U) as Hm'.
  { intros x. rewrite Hm. cbn [pre_absorb].
    rewrite rhealpix_compress_no_full_group by done. split; [tauto|].
    intros Hx. split; [done|].
    rewrite (has_ancestor_ext x _ U)
      by (intros z; by apply rhealpix_compress_no_full_group).
    intros (j & Hj & (y & E & Hy)%list_elem_of_fmap)%has_ancestor_alt.
    apply list_elem_of_fmap in Hx as (x' & -> & Hx').
    apply (f_equal length) in E. rewrite length_take, (Hn _ Hy) in E.
    rewrite (Hn _ Hx') in Hj, E. lia. }
  exists (mkCell <$> canonical true U). rewrite fmap_cell_suids.
  split; [|split; [|split]].
  - apply CellCollection_init_valid; [done..|]. intros _. apply Hg.
  - apply NoDup_fmap_2; [apply _|done].
  - rewrite length_fmap, <-(length_fmap cell_suids cs0).
    apply submseteq_length, NoDup_submseteq; [done|]. intros x. apply Hm'.
  - intros [x]. rewrite list_elem_of_fmap. split.
    + intros (y & [= ->] & ([z] & -> & Hz)%Hm'%list_elem_of_fmap). done.
    + intros Hx. exists x. split; [done|]. apply Hm'.
      by apply (list_elem_of_fmap_2 cell_suids _ (mkCell x)).
Qed.

(** What [neighbours] returns. *)
Lemma Cell_neighbours_spec (c : Cell) (diag : bool) :
  valid_cell c →
  ∃ R cs, Cell_neighbours c diag = Ok R
    ∧ cells R = Some cs ∧ NoDup cs ∧ (length cs ≤ 8)%nat
    ∧ (∀ x, x ∈ cs → valid_cell x ∧ resolution x = resolution c)
    ∧ ∀ x, x ∈ cs ↔
        (∃ d, Cell_neighbour c d = Ok x)
        ∨ (diag = true ∧ (0 < resolution c)%Z
           ∧ ∃ h v m, (h = left ∨ h = right) ∧ (v = up ∨ v = down)
                      ∧ Cell_neighbour c h = Ok m ∧ Cell_neighbour m v = Ok x).
Proof.
  intros Hv.
  destruct (Cell_neighbour_valid c up Hv) as (u & Hu & Hvu & _).
  destruct (Cell_neighbour_valid c down Hv) as (d & Hd & Hvd & _).
  destruct (Cell_neighbour_valid c left Hv) as (l & Hl & Hvl & _).
  destruct (Cell_neighbour_valid c right Hv) as (r & Hr & Hvr & _).
  destruct (Cell_neighbour_valid l up Hvl) as (lu & Hlu & Hvlu & _).
  destruct (Cell_neighbour_valid l down Hvl) as (ld & Hld & Hvld & _).
  destruct (Cell_neighbour_valid r up Hvr) as (ru & Hru & Hvru & _).
  destruct (Cell_neighbour_valid r down Hvr) as (rd & Hrd & Hvrd & _).
  pose proof (Cell_neighbour_length _ _ _ Hu) as Lu.
  pose proof (Cell_neighbour_length _ _ _ Hd) as Ld.
  pose proof (Cell_neighbour_length _ _ _ Hl) as Ll.
  pose proof (Cell_neighbour_length _ _ _ Hr) as Lr.
  pose proof (Cell_neighbour_length _ _ _ Hlu) as Llu.
  pose proof (Cell_neighbour_length _ _ _ Hld) as Lld.
  pose proof (Cell_neighbour_length _ _ _ Hru) as Lru.
  pose proof (Cell_neighbour_length _ _ _ Hrd) as Lrd.
  unfold Cell_neighbours. cbn [rmap]. rewrite Hu, Hd, Hl, Hr, !rbind_Ok.
  destruct (diag && (0 <? resolution c)%Z) eqn:Hdiag.
  - apply andb_true_iff in Hdiag as [-> Hres%Z.ltb_lt].
    rewrite Hlu, Hld, Hru, Hrd, !rbind_Ok. cbn [app].
    destruct (CellCollection_init_level [u; d; l; r; lu; ld; ru; rd]
                (length (cell_suids c)))
      as (cs & -> & Hnd & Hlen & Hm); [done|by repeat constructor|cbn; lia| |].
    { intros x Hx. rewrite !elem_of_cons, elem_of_nil in Hx.
      destruct Hx as [->|[->|[->|[->|[->|[->|[->|[->|[]]]]]]]]]; congruence. }
    exists (collection_of (cell_suids <$> cs)), cs. split; [done|].
    split; [cbn; f_equal; apply fmap_mkCell|].
    split; [done|]. split; [done|]. split.
    + intros x Hx%Hm. rewrite !elem_of_cons, elem_of_nil in Hx. unfold resolution.
      destruct Hx as [->|[->|[->|[->|[->|[->|[->|[->|[]]]]]]]]];
        (split; [done|]); congruence.
    + intros x. rewrite Hm, !elem_of_cons, elem_of_nil. split.
      * intros [->|[->|[->|[->|[->|[->|[->|[->|[]]]]]]]]].
        -- left. by exists up.
        -- left. by exists down.
        -- left. by exists left.
        -- left. by exists right.
        -- right. split; [done|]. split; [done|]. exists left, up, l. tauto.
        -- right. split; [done|]. split; [done|]. exists left, down, l. tauto.
        -- right. split; [done|]. split; [done|]. exists right, up, r. tauto.
        -- right. split; [done|]. split; [done|]. exists right, down, r. tauto.
      * intros [[[] Hx]|(_ & _ & h & v & m & [-> | ->] & [-> | ->] & Hm1 & Hm2)];
          try (assert (m = l) as -> by congruence);
          try (assert (m = r) as -> by congruence);
          assert (Ok x = Ok x) as _ by done;
          repeat match goal with
                 | H : Cell_neighbour _ _ = Ok x |- _ => rewrite H in *
                 end;
          repeat match goal with
                 | H : Ok x = Ok _ |- _ => injection H as <-
                 end; tauto.
  - rewrite !rbind_Ok, app_nil_r.
    destruct (CellCollection_init_level [u; d; l; r] (length (cell_suids c)))
      as (cs & -> & Hnd & Hlen & Hm); [done|by repeat constructor|cbn; lia| |].
    { intros x Hx. rewrite !elem_of_cons, elem_of_nil in Hx.
      destruct Hx as [->|[->|[->|[->|[]]]]]; congruence. }
    exists (collection_of (cell_suids <$> cs)), cs. split; [done|].
    split; [cbn; f_equal; apply fmap_mkCell|].
    split; [done|]. split; [cbn in Hlen; lia|]. split.
    + intros x Hx%Hm. rewrite !elem_of_cons, elem_of_nil in Hx. unfold resolution.
      destruct Hx as [->|[->|[->|[->|[]]]]]; (split; [done|]); congruence.
    + intros x. rewrite Hm, !elem_of_cons, elem_of_nil. split.
      * intros [->|[->|[->|[->|[]]]]]; left;
          [by exists up|by exists down|by exists left|by exists right].
      * intros [[[] Hx]|(-> & Hres%Z.ltb_lt & _)];
          [| | | |by rewrite Hres in Hdiag];
          repeat match goal with
                 | H : Cell_neighbour _ _ = Ok x |- _ => rewrite H in *
                 end;
          repeat match goal with
                 | H : Ok x = Ok _ |- _ => injection H as <-
                 end; tauto.
Qed.

(** X26: [neighbours] of a valid cell succeeds and returns a collection
    without repeats of at most eight cells, all valid and of the
    resolution of the cell: exactly its neighbours in the four directions
    and, with diagonals and above resolution 0, the upper and lower
    neighbours of its left and right neighbours. *)
Theorem Cell_neighbours_cells (c : Cell) (diag : bool) :
  valid_cell c →
  ∃ R cs, Cell_neighbours c diag = Ok R
    ∧ cells R = Some cs ∧ NoDup cs ∧ (length cs ≤ 8)%nat
    ∧ (∀ x, x ∈ cs → valid_cell x ∧ resolution x = resolution c)
    ∧ ∀ x, x ∈ cs ↔
        (∃ d, Cell_neighbour c d = Ok x)
        ∨ (diag = true ∧ (0 < resolution c)%Z
           ∧ ∃ h v m, (h = left ∨ h = right) ∧ (v = up ∨ v = down)
                      ∧ Cell_neighbour c h = Ok m ∧ Cell_neighbour m v = Ok x).
Proof. apply Cell_neighbours_spec. Qed.

End cell_neighbours.

Lemma Cell_neighbours_cells_witness :
  ∃ R cs, @Cell_neighbours first_seen (mkCell [Lbl "P"; Dig 4]) true = Ok R
    ∧ cells R = Some cs ∧ NoDup cs ∧ (length cs ≤ 8)%nat
    ∧ (∀ x, x ∈ cs →
         valid_cell x ∧ resolution x = resolution (mkCell [Lbl "P"; Dig 4]))
    ∧ ∀ x, x ∈ cs ↔
        (∃ d, Cell_neighbour (mkCell [Lbl "P"; Dig 4]) d = Ok x)
        ∨ (true = true ∧ (0 < resolution (mkCell [Lbl "P"; Dig 4]))%Z
           ∧ ∃ h v m, (h = left ∨ h = right) ∧ (v = up ∨ v = down)
                      ∧ Cell_neighbour (mkCell [Lbl "P"; Dig 4]) h = Ok m
                      ∧ Cell_neighbour m v = Ok x).
Proof.
  apply (@Cell_neighbours_cells first_seen (mkCell [Lbl "P"; Dig 4]) true).
  reflexivity.
Defined.

(** * The string form of a collection *)

Lemma string_app_nil_r (s : string) : s +:+ "" = s.
Proof.
  induction s as [|c s IH]; [done|].
  change (String c s +:+ "") with (String c (s +:+ "")). by rewrite IH.
Qed.

Lemma string_app_assoc (s1 s2 s3 : string) : (s1 +:+ s2) +:+ s3 = s1 +:+ (s2 +:+ s3).
Proof.
  induction s1 as [|c s1 IH]; [done|].
  change ((String c s1 +:+ s2) +:+ s3) with (String c ((s1 +:+ s2) +:+ s3)).
  by rewrite IH.
Qed.

Lemma split_space_word cur w s :
  no_space w → split_space cur (w +:+ s) = split_space (cur +:+ w) s.
Proof.
  revert cur. induction w as [|c w IH]; intros cur Hw.
  - by rewrite string_app_nil_r.
  - unfold no_space in Hw. cbn in Hw. apply not_elem_of_cons in Hw as [Hc Hw].
    change (split_space cur (String c w +:+ s))
      with (if decide (c = " "%char) then cur :: split_space "" (w +:+ s)
            else split_space (cur +:+ String c "") (w +:+ s)).
    rewrite decide_False by done.
    rewrite IH by done. by rewrite string_app_assoc.
Qed.

(** Splitting the blank-separated form of words at blanks gives the words. *)
Lemma split_space_concat cur w l :
  Forall no_space (w :: l) →
  split_space cur (String.concat " " (w :: l)) = (cur +:+ w) :: l.
Proof.
  revert cur w. induction l as [|w' l IH]; intros cur w [Hw Hl]%Forall_cons.
  - cbn [String.concat]. rewrite <-(string_app_nil_r w) at 1.
    by rewrite split_space_word.
  - change (String.concat " " (w :: w' :: l))
      with (w +:+ String " " (String.concat " " (w' :: l))).
    rewrite split_space_word by done. cbn [split_space].
    rewrite decide_True by done. by rewrite IH.
Qed.

Lemma repr_suid_no_space t : valid_suid t → no_space (repr_suid t).
Proof.
  intros (f & ds & -> & Hf & Hds)%valid_suid_inv. unfold repr_suid.
  rewrite Cell_repr_valid by done. unfold no_space. cbn.
  apply not_elem_of_cons. split.
  - clear Hds. unfold zero_cells in Hf. enum_cases Hf; done.
  - induction Hds as [|n ds Hn _ IH]; [apply not_elem_of_nil|]. cbn.
    apply not_elem_of_cons. split; [|done]. digit_cases Hn; by vm_compute.
Qed.

Lemma repr_suid_inj L L' :
  Forall valid_suid L → Forall valid_suid L' →
  repr_suid <$> L = repr_suid <$> L' → L = L'.
Proof.
  intros HL. revert L'. induction HL as [|t L Ht _ IH]; intros [|t' L'] HL' E;
    try done.
  apply Forall_cons in HL' as [Ht' HL']. injection E as E1 E2.
  f_equal; [|by apply IH].
  assert (mkCell t = mkCell t') as [= ->]; [|done]. by apply Cell_repr_inj.
Qed.

Lemma holds_repr S L :
  holds S L → L ≠ [] →
  CellCollection_repr S = String.concat " " (repr_suid <$> L)
  ∧ split_space "" (CellCollection_repr S) = repr_suid <$> L.
Proof.
  intros [Hv [[-> _]|[_ ->]]] Hne; [done|].
  assert (CellCollection_repr (collection_of L)
          = String.concat " " (repr_suid <$> L)) as ->.
  { unfold CellCollection_repr. cbn [suids collection_of]. by destruct L. }
  split; [done|]. destruct L as [|t L]; [done|]. rewrite fmap_cons.
  rewrite split_space_concat; [done|]. rewrite <-fmap_cons.
  apply Forall_fmap. eapply Forall_impl; [exact Hv|]. apply repr_suid_no_space.
Qed.

Section string_form.
Context `{SO : SetOrder}.

(** The constructor leaves a canonical sequence with distinct keys as it
    is. *)
Lemma canonical_fixed b L :
  canonical_form L → (b = true → no_full_group L) →
  distinct_keys (collection_of L) → canonical b L = L.
Proof.
  intros (Hnd & Hanc & Hsort) Hg Hk.
  assert (∀ x, x ∈ pre_absorb b L ↔ x ∈ L) as Hpre.
  { intros x. destruct b; cbn [pre_absorb]; [|done].
    by apply rhealpix_compress_no_full_group, Hg. }
  apply canonical_unique; [done| |done|].
  - intros x. rewrite Hpre, (has_ancestor_ext x _ L) by done.
    split; [|tauto]. intros Hx. split; [done|by apply Hanc].
  - intros x y Hx Hy. by apply (distinct_keys_collection_of L).
Qed.

(** X27: the string form of a collection, given to the constructor, gives
    the collection back, provided the collection is in canonical form, no
    two of its cells share a sort key and, when compression is on, no nine
    of its cells have one parent. *)
Theorem string_form_round_trip (S : CellCollection) (L : list suid) (b : bool) :
  holds S L → L ≠ [] → canonical_form L → (b = true → no_full_group L) →
  distinct_keys S →
  CellCollection_init (ArgStr (CellCollection_repr S)) None None b = Ok S
  ∧ CellCollection_init (ArgStrs (suids S)) None None b = Ok S.
Proof.
  intros HS Hne Hcan Hg Hk.
  destruct (holds_repr S L HS Hne) as [_ Hsplit].
  pose proof (holds_suids S L HS) as Hsuids.
  destruct HS as [Hv [[-> _]|[_ ->]]]; [done|].
  assert (CellCollection_init (ArgStrs (repr_suid <$> L)) None None b
          = Ok (collection_of L)) as Hstrs.
  { rewrite CellCollection_init_strs, CellCollection_init_valid; try done.
    - rewrite fmap_cell_suids. by rewrite canonical_fixed.
    - intros E%fmap_nil_inv. done.
    - by apply Forall_valid_cell.
    - intros Hb. rewrite fmap_cell_suids. by apply Hg. }
  split; [|by rewrite Hsuids].
  rewrite <-Hstrs. unfold CellCollection_init.
  destruct L as [|t L]; [done|].
  destruct (CellCollection_repr (collection_of (t :: L))) as [|c s] eqn:Hrepr.
  - cbn [split_space] in Hsplit. rewrite fmap_cons in Hsplit.
    injection Hsplit as Ht _.
    apply Forall_cons in Hv as [(f & ds & -> & _ & Hds)%valid_suid_inv _].
    unfold repr_suid in Ht. by rewrite Cell_repr_valid in Ht.
  - cbn [arg_false standardise_input fmap list_fmap]. by rewrite Hsplit.
Qed.

(** X28: [==] on collections compares the suid sequences: two collections
    of valid cells are equal exactly when they hold the same cells in the
    same order, and every empty collection equals every other. *)
Theorem CellCollection_eq_sound (S T : CellCollection) (L L' : list suid) :
  holds S L → holds T L' → CellCollection_eq S T = true ↔ L = L'.
Proof.
  intros HS HT. unfold CellCollection_eq. rewrite bool_decide_eq_true.
  assert (∀ R LR, holds R LR → LR ≠ [] →
            split_space "" "Empty CellCollection" ≠ repr_suid <$> LR) as Hempty.
  { intros R LR [Hv _] _ E.
    change (split_space "" "Empty CellCollection")
      with ["Empty"; "CellCollection"] in E.
    destruct LR as [|t LR]; [done|]. rewrite fmap_cons in E. injection E as Ht _.
    apply Forall_cons in Hv as [(f & ds & -> & Hf & Hds)%valid_suid_inv _].
    unfold repr_suid in Ht. rewrite Cell_repr_valid in Ht by done.
    injection Ht as <- _. unfold zero_cells in Hf.
    repeat (apply elem_of_cons in Hf as [Hf|Hf]; [discriminate|]).
    by apply elem_of_nil in Hf. }
  destruct (decide (L = [])) as [->|HL], (decide (L' = [])) as [->|HL'].
  - destruct HS as [_ [[_ [a ->]]|[? _]]]; [|done].
    destruct HT as [_ [[_ [a' ->]]|[? _]]]; [|done]. done.
  - split; [|done]. intros E. exfalso.
    destruct (holds_repr T L' HT HL') as [_ Hsplit]. rewrite <-E in Hsplit.
    destruct HS as [_ [[_ [a ->]]|[? _]]]; [|done].
    by apply (Hempty T L').
  - split; [|done]. intros E. exfalso.
    destruct (holds_repr S L HS HL) as [_ Hsplit]. rewrite E in Hsplit.
    destruct HT as [_ [[_ [a ->]]|[? _]]]; [|done].
    by apply (Hempty S L).
  - split.
    + intros E. destruct (holds_repr S L HS HL) as [_ H1].
      destruct (holds_repr T L' HT HL') as [_ H2]. rewrite E, H2 in H1.
      destruct HS as [Hv _], HT as [Hv' _]. symmetry. by apply repr_suid_inj.
    + intros <-. destruct HS as [_ [[? _]|[_ ->]]]; [done|].
      destruct HT as [_ [[? _]|[_ ->]]]; [done|]. done.
Qed.

End string_form.

Lemma string_form_round_trip_witness :
  @CellCollection_init first_seen
    (ArgStr (CellCollection_repr (collection_of [[Lbl "Q"]; [Lbl "P"; Dig 1]])))
    None None true
  = Ok (collection_of [[Lbl "Q"]; [Lbl "P"; Dig 1]])
  ∧ @CellCollection_init first_seen
      (ArgStrs (suids (collection_of [[Lbl "Q"]; [Lbl "P"; Dig 1]]))) None None true
    = Ok (collection_of [[Lbl "Q"]; [Lbl "P"; Dig 1]]).
Proof.
  apply (@string_form_round_trip first_seen
           (collection_of [[Lbl "Q"]; [Lbl "P"; Dig 1]])
           [[Lbl "Q"]; [Lbl "P"; Dig 1]] true).
  - exact holds_Q_P1.
  - discriminate.
  - exact canonical_form_Q_P1.
  - intros _ k.
    assert (length (siblings k [[Lbl "Q"]; [Lbl "P"; Dig 1]])
            ≤ length [[Lbl "Q"]; [Lbl "P"; Dig 1]])%nat as H by apply length_filter.
    cbn [length] in H. lia.
  - apply distinct_keys_off_N; [by repeat constructor|].
    intros x [->|[->|[]%elem_of_nil]%elem_of_cons]%elem_of_cons; discriminate.
Defined.

Lemma CellCollection_eq_sound_witness :
  CellCollection_eq (collection_of [[Lbl "Q"]; [Lbl "P"; Dig 1]])
    (collection_of [[Lbl "Q"]; [Lbl "P"; Dig 1]]) = true
  ↔ [[Lbl "Q"]; [Lbl "P"; Dig 1]] = [[Lbl "Q"]; [Lbl "P"; Dig 1]].
Proof.
  apply (CellCollection_eq_sound (collection_of [[Lbl "Q"]; [Lbl "P"; Dig 1]])
           (collection_of [[Lbl "Q"]; [Lbl "P"; Dig 1]])); exact holds_Q_P1.
Defined.

(** * Attributes and idempotence *)

Section attributes.
Context `{SO : SetOrder}.

(** X29: the attributes of a collection the constructor returns agree.
    For an empty argument it is the empty sentinel, of length 0; otherwise
    its cells are valid and not empty, its suids are the strings of its
    cells in the same order, its length is their number, its crs and kind
    are the defaults whatever was asked for, and its minimal and maximal
    resolutions are the least and the greatest resolution of its cells. *)
Theorem constructor_attributes (a : cells_arg) (crs0 kind0 : option string)
    (b : bool) (S : CellCollection) :
  arg_valid a →
  CellCollection_init a crs0 kind0 b = Ok S →
  (arg_false a = true →
   S = empty_collection a ∧ CellCollection_len S = 0%nat
   ∧ CellCollection_repr S = "Empty CellCollection")
  ∧ (arg_false a = false →
     ∃ cs mx mn,
       cells S = Some cs ∧ cs ≠ [] ∧ Forall valid_cell cs
       ∧ suids S = Cell_repr <$> cs
       ∧ CellCollection_len S = length cs
       ∧ crs S = Some "auspix" ∧ kind S = Some "rHEALPix"
       ∧ max_resolution S = Some mx ∧ min_resolution S = Some mn
       ∧ (∀ c, c ∈ cs → (mn ≤ resolution c ≤ mx)%Z)
       ∧ (∃ c, c ∈ cs ∧ resolution c = mx)
       ∧ (∃ c, c ∈ cs ∧ resolution c = mn)).
Proof.
  intros Ha HS.
  destruct (CellCollection_init_holds a crs0 kind0 b S Ha HS)
    as [[Hf ->]|(L & [Hv [[-> _]|[_ ->]]] & Hne & _)]; [| done |].
  - split; [done|]. by rewrite Hf.
  - split.
    { intros Hf. unfold CellCollection_init in HS. rewrite Hf in HS.
      assert (empty_collection a = collection_of L) as E by congruence.
      by apply (f_equal crs) in E. }
    intros _.
    assert (resolution <$> (mkCell <$> L) ≠ []) as Hne' by by destruct L.
    destruct (list_max_Z_spec _ Hne') as (mx & Hmx & Hxin & Hle).
    destruct (list_min_Z_spec _ Hne') as (mn & Hmn & Hnin & Hge).
    exists (mkCell <$> L), mx, mn. cbn [collection_of cells suids crs kind
      max_resolution min_resolution]. unfold CellCollection_len.
    cbn [collection_of suids]. rewrite Hmx, Hmn, !length_fmap.
    split; [done|]. split; [by destruct L|]. split; [by apply Forall_valid_cell|].
    split; [by rewrite <-list_fmap_compose|]. split; [done|].
    split; [done|]. split; [done|]. split; [done|]. split; [done|].
    split; [|split].
    + intros c Hc. split; [apply Hge|apply Hle]; by apply list_elem_of_fmap_2.
    + apply list_elem_of_fmap in Hxin as (c & -> & Hc). by exists c.
    + apply list_elem_of_fmap in Hnin as (c & -> & Hc). by exists c.
Qed.

(** X30: union is idempotent on canonical collections: [S + S] is [S] for
    a non-empty collection of valid cells in canonical form in which no
    two cells share a sort key and, when compression is on, no nine cells
    have one parent. *)
Theorem union_idempotent (S : CellCollection) (L : list suid) (b : bool) :
  holds S L → L ≠ [] → canonical_form L → (b = true → no_full_group L) →
  distinct_keys S →
  CellCollection_add S (OpColl S) b = Ok S.
Proof.
  intros HS Hne Hcan Hg Hk.
  rewrite (CellCollection_add_eq S S L L b HS HS).
  destruct (union_of_spec S S L L HS HS) as (_ & Hv & Hnd & Hm).
  destruct HS as [HvL [[-> _]|[_ ->]]]; [done|].
  set (U := union_of (collection_of L) (collection_of L)) in *.
  pose proof Hcan as (HndL & Hanc & Hsort).
  assert (U ≡ₚ L) as Hperm.
  { apply NoDup_Permutation; [done..|]. intros x. rewrite Hm. tauto. }
  assert (∀ x, x ∈ pre_absorb b U ↔ x ∈ L) as Hpre.
  { intros x. rewrite (pre_absorb_perm b U L x Hperm).
    destruct b; cbn [pre_absorb]; [|done].
    by apply rhealpix_compress_no_full_group, Hg. }
  assert (canonical b U = L) as Hc.
  { apply canonical_unique; [done| |done|].
    - intros x. rewrite Hpre, (has_ancestor_ext x _ L) by done.
      split; [|tauto]. intros Hx. split; [done|by apply Hanc].
    - intros x y Hx Hy. by apply (distinct_keys_collection_of L). }
  unfold built. destruct U as [|u U'] eqn:HU.
  - apply Permutation_nil_l in Hperm. by destruct Hne.
  - by rewrite Hc.
Qed.

End attributes.

Lemma constructor_attributes_witness :
  (arg_false (ArgStr "P1 Q") = true →
   collection_of [[Lbl "Q"]; [Lbl "P"; Dig 1]] = empty_collection (ArgStr "P1 Q")
   ∧ CellCollection_len (collection_of [[Lbl "Q"]; [Lbl "P"; Dig 1]]) = 0%nat
   ∧ CellCollection_repr (collection_of [[Lbl "Q"]; [Lbl "P"; Dig 1]])
     = "Empty CellCollection")
  ∧ (arg_false (ArgStr "P1 Q") = false →
     ∃ cs mx mn,
       cells (collection_of [[Lbl "Q"]; [Lbl "P"; Dig 1]]) = Some cs
       ∧ cs ≠ [] ∧ Forall valid_cell cs
       ∧ suids (collection_of [[Lbl "Q"]; [Lbl "P"; Dig 1]]) = Cell_repr <$> cs
       ∧ CellCollection_len (collection_of [[Lbl "Q"]; [Lbl "P"; Dig 1]]) = length cs
       ∧ crs (collection_of [[Lbl "Q"]; [Lbl "P"; Dig 1]]) = Some "auspix"
       ∧ kind (collection_of [[Lbl "Q"]; [Lbl "P"; Dig 1]]) = Some "rHEALPix"
       ∧ max_resolution (collection_of [[Lbl "Q"]; [Lbl "P"; Dig 1]]) = Some mx
       ∧ min_resolution (collection_of [[Lbl "Q"]; [Lbl "P"; Dig 1]]) = Some mn
       ∧ (∀ c, c ∈ cs → (mn ≤ resolution c ≤ mx)%Z)
       ∧ (∃ c, c ∈ cs ∧ resolution c = mx)
       ∧ (∃ c, c ∈ cs ∧ resolution c = mn)).
Proof.
  apply (@constructor_attributes first_seen (ArgStr "P1 Q") None None true
           (collection_of [[Lbl "Q"]; [Lbl "P"; Dig 1]])).
  - exact I.
  - vm_compute. reflexivity.
Defined.

Lemma union_idempotent_witness :
  @CellCollection_add first_seen (collection_of [[Lbl "Q"]; [Lbl "P"; Dig 1]])
    (OpColl (collection_of [[Lbl "Q"]; [Lbl "P"; Dig 1]])) true
  = Ok (collection_of [[Lbl "Q"]; [Lbl "P"; Dig 1]]).
Proof.
  apply (@union_idempotent first_seen (collection_of [[Lbl "Q"]; [Lbl "P"; Dig 1]])
           [[Lbl "Q"]; [Lbl "P"; Dig 1]] true).
  - exact holds_Q_P1.
  - discriminate.
  - exact canonical_form_Q_P1.
  - intros _ k.
    assert (length (siblings k [[Lbl "Q"]; [Lbl "P"; Dig 1]])
            ≤ length [[Lbl "Q"]; [Lbl "P"; Dig 1]])%nat as H by apply length_filter.
    cbn [length] in H. lia.
  - apply distinct_keys_off_N; [by repeat constructor|].
    intros x [->|[->|[]%elem_of_nil]%elem_of_cons]%elem_of_cons; discriminate.
Defined.

(** * A cell among its own neighbours *)

(** The two shapes of a neighbour: on the face of the cell, with the last
    digit replaced by its atomic neighbour, or on the neighbouring face,
    when every digit of the cell is on the border. *)
Lemma Cell_neighbour_shape f ds d m :
  f ∈ zero_cells → Forall (λ n, n < 9)%nat ds →
  Cell_neighbour (mkCell (Lbl f :: (Dig <$> ds))) d = Ok m →
  (¬ Forall (λ n, in_border (Dig n) d = true) ds
   ∧ ∃ init n tl, ds = init ++ [n]
       ∧ m = mkCell (Lbl f :: (Dig <$> (tl ++ [an_digit_of d n]))))
  ∨ (Forall (λ n, in_border (Dig n) d = true) ds
     ∧ ∃ f' ds', an (Lbl f) d = Ok (Lbl f') ∧ f' ≠ f ∧ f' ∈ zero_cells
         ∧ m = mkCell (Lbl f' :: (Dig <$> ds'))).
Proof.
  intros Hf Hds.
  apply Forall_reverse in Hds as Hrds.
  destruct (neighbour_scan_digits d (reverse ds) f Hf Hrds)
    as (rds' & f' & Hscan & Hf' & Hds').
  apply Forall_reverse in Hds' as Hrds'.
  pose proof Hscan as Hscan'. rewrite <-reverse_suid in Hscan'.
  rewrite (Cell_neighbour_unfold _ _ _ _ Hscan'), reverse_rev_suid.
  cbn [head_elem]. rewrite rbind_Ok.
  destruct (decide (f' = f)) as [->|Hne].
  - rewrite quarter_turns_same, rbind_Ok by done.
    intros [-> _]%Cell_of_tuple_ok. left.
    assert (¬ Forall (λ n, in_border (Dig n) d = true) ds) as Hnot.
    { intros Hall. destruct (an_face f d Hf) as (g & Hg & _ & Hgf).
      rewrite (neighbour_scan_all_border d (reverse ds) f g) in Hscan; [|  |done].
      - injection Hscan as Hscan. by apply app_inj_tail in Hscan as [_ [= ->]].
      - apply Forall_reverse. apply Forall_forall. intros n Hn. split.
        + by eapply Forall_forall in Hds.
        + by eapply Forall_forall in Hall. }
    split; [done|].
    destruct ds as [|n init _] using rev_ind; [by destruct Hnot|].
    rewrite reverse_app in Hscan. cbn [reverse app] in Hscan.
    change (reverse [n]) with [n] in Hscan. cbn [app] in Hscan.
    rewrite fmap_cons, <-app_comm_cons, neighbour_scan_cons in Hscan.
    apply Forall_app in Hds as [_ Hn]. apply Forall_cons in Hn as [Hn _].
    destruct (an_digit_of_ok d n Hn) as [Hm _]. rewrite Hm, rbind_Ok in Hscan.
    apply rbind_ok in Hscan as (tl & _ & E). injection E as E.
    destruct rds' as [|k rds']; [by destruct tl|].
    rewrite fmap_cons, <-app_comm_cons in E. injection E as <- _.
    exists init, n, (reverse rds'). split; [done|]. by rewrite reverse_cons.
  - destruct (neighbour_scan_face_change d _ _ f f' Hrds Hscan Hne) as [Hall Han].
    rewrite (rotate_turn f' _ (quarter_turns (Lbl f) (Lbl f')));
      [|done|done|by intros q Hq; eapply quarter_turns_range].
    rewrite rbind_Ok. intros [-> _]%Cell_of_tuple_ok. right. split.
    + apply Forall_reverse in Hall. rewrite reverse_involutive in Hall.
      eapply Forall_impl; [exact Hall|]. by intros n [_ ?].
    + by eexists _, _.
Qed.

(** The four neighbours of a cell are four different cells. *)
Lemma Cell_neighbour_inj_dir c d1 d2 x :
  valid_cell c → Cell_neighbour c d1 = Ok x → Cell_neighbour c d2 = Ok x → d1 = d2.
Proof.
  destruct c as [t]. unfold valid_cell. cbn [cell_suids].
  intros (f & ds & -> & Hf & Hds)%valid_suid_inv H1 H2.
  apply Cell_neighbour_shape in H1
    as [(_ & i1 & n1 & t1 & E1 & ->)|(_ & f1 & s1 & A1 & N1 & _ & ->)]; [| |done..];
  apply Cell_neighbour_shape in H2
    as [(_ & i2 & n2 & t2 & E2 & X2)|(_ & f2 & s2 & A2 & N2 & _ & X2)]; try done.
  - injection X2 as X2. apply (inj (fmap Dig)) in X2.
    apply app_inj_tail in X2 as [_ X2].
    rewrite E1 in E2. apply app_inj_tail in E2 as [_ <-].
    rewrite E1 in Hds. apply Forall_app in Hds as [_ Hn].
    apply Forall_cons in Hn as [Hn _].
    digit_cases Hn; destruct d1, d2; done.
  - injection X2 as -> _. done.
  - injection X2 as <- _. done.
  - injection X2 as <- _. rewrite <-A2 in A1. clear -A1 Hf.
    unfold zero_cells in Hf. enum_cases Hf; destruct d1, d2; done.
Qed.

Lemma on_border_digits d f ds :
  on_border d (mkCell (Lbl f :: (Dig <$> ds)))
  ↔ Forall (λ n, in_border (Dig n) d = true) ds.
Proof. unfold on_border. cbn [cell_suids tail]. by rewrite Forall_fmap. Qed.

Section self_neighbour.
Context `{SO : SetOrder}.

(** C9: [neighbours] can hold the cell itself.  For every valid cell [c],
    [c.neighbours(include_diagonals)] returns a collection, and [c] is one
    of its cells exactly when the diagonals are included, [c] is below
    resolution 0 on one of the two polar faces, and all its digits lie on
    the left border or all on the right border: there the left (right)
    neighbour is across the edge of the face, and its upper (on face [S],
    lower) neighbour is [c] again. *)
Theorem neighbours_hold_self (c : Cell) (diag : bool) :
  valid_cell c →
  ∃ R cs, Cell_neighbours c diag = Ok R ∧ cells R = Some cs
    ∧ (c ∈ cs ↔
       diag = true ∧ (0 < resolution c)%Z ∧ polar c
       ∧ (on_border left c ∨ on_border right c)).
Proof.
  intros Hv.
  destruct (Cell_neighbours_spec c diag Hv) as (R & cs & HR & Hcs & _ & _ & _ & Hm).
  exists R, cs. split; [done|]. split; [done|]. rewrite Hm. split.
  - intros [[d Hd]|(-> & Hres & h & v & m & Hh & Hv' & Hcm & Hmc)].
    { destruct (Cell_neighbour_valid c d Hv) as (b & Hb & _ & Hne).
      rewrite Hd in Hb. by injection Hb as <-. }
    split; [done|]. split; [done|].
    destruct (Cell_neighbour_valid c h Hv) as (b & Hb & Hvm & _).
    rewrite Hcm in Hb. injection Hb as <-.
    destruct (Cell_neighbour_way_back c m h Hv Hcm) as [Hback _].
    pose proof (Cell_neighbour_inj_dir m _ _ c Hvm Hmc Hback) as Ev.
    destruct c as [t]. unfold valid_cell in Hv. cbn [cell_suids] in Hv.
    apply valid_suid_inv in Hv as (f & ds & -> & Hf & Hds).
    apply Cell_neighbour_shape in Hcm
      as [(_ & i1 & n1 & t1 & _ & ->)|(Hall & f' & ds' & Han & Hne & _ & ->)];
      [| |done..].
    + exfalso. unfold way_back in Ev. cbn [cell_suids head] in Ev.
      rewrite decide_True in Ev by done.
      destruct Hh as [-> | ->], Hv' as [-> | ->]; done.
    + rewrite way_back_heads in Ev. rewrite !on_border_digits.
      unfold zero_cells in Hf.
      enum_cases Hf; destruct Hh as [-> | ->]; injection Han as <-;
        destruct Hv' as [-> | ->]; try (vm_compute in Ev; discriminate Ev);
        (split; [by (left + right)|]); by (left + right).
  - intros (-> & Hres & Hpol & Hb). right. split; [done|]. split; [done|].
    destruct c as [t]. unfold valid_cell in Hv. cbn [cell_suids] in Hv.
    pose proof Hv as (f & ds & -> & Hf & Hds)%valid_suid_inv.
    assert (∃ h, (h = left ∨ h = right)
                 ∧ Forall (λ n, in_border (Dig n) h = true) ds) as (h & Hh & Hall).
    { destruct Hb as [Hb%on_border_digits|Hb%on_border_digits];
        [exists left|exists right]; (split; [tauto|done]). }
    destruct (Cell_neighbour_valid (mkCell (Lbl f :: (Dig <$> ds))) h Hv)
      as (m & Hcm & _ & _).
    destruct (Cell_neighbour_way_back (mkCell (Lbl f :: (Dig <$> ds))) m h Hv Hcm)
      as [Hback _].
    pose proof Hcm as Hshape.
    apply Cell_neighbour_shape in Hshape
      as [(Hnot & _)|(_ & f' & ds' & Han & Hne & _ & ->)]; [done| |done..].
    rewrite way_back_heads in Hback.
    assert (f = "N"%char ∨ f = "S"%char) as Hface.
    { destruct Hpol as [[= ->]|[= ->]]; tauto. }
    destruct Hface as [-> | ->], Hh as [-> | ->]; injection Han as <-.
    + exists left, up, (mkCell (Lbl "R" :: (Dig <$> ds'))). tauto.
    + exists right, up, (mkCell (Lbl "P" :: (Dig <$> ds'))). tauto.
    + exists left, down, (mkCell (Lbl "R" :: (Dig <$> ds'))). tauto.
    + exists right, down, (mkCell (Lbl "P" :: (Dig <$> ds'))). tauto.
Qed.

End self_neighbour.

Lemma neighbours_hold_self_witness :
  ∃ R cs, @Cell_neighbours first_seen (mkCell [Lbl "N"; Dig 3]) true = Ok R
    ∧ cells R = Some cs ∧ mkCell [Lbl "N"; Dig 3] ∈ cs.
Proof.
  destruct (@neighbours_hold_self first_seen (mkCell [Lbl "N"; Dig 3]) true)
    as (R & cs & H1 & H2 & H3); [reflexivity|].
  exists R, cs. split; [exact H1|]. split; [exact H2|]. apply H3.
  split; [reflexivity|]. split; [reflexivity|]. split; [left; reflexivity|].
  left. constructor; [reflexivity|constructor].
Defined.
